(** * danmaku2ass: comment parsers, format probe and ASS generator

    A shallow embedding of the Go packages [parser] (bilibili.go, acfun.go,
    niconico.go, parser.go) and [ass] (ass.go), with the properties of the
    conversion pipeline proved over it.

    Conventions.
    - [float64] values are IEEE 754 binary64 numbers, represented by the
      Standard Library's [spec_float] with precision 53 and maximal exponent
      1024; every arithmetic operation rounds to nearest even, as Go's does.
    - Go strings are byte strings ([string]); [len] counts bytes; runes are
      obtained by UTF-8 decoding.
    - Go's [int] and [int64] are 64-bit; values are kept in [Z].
    - Library calls whose result depends on the operating system or on a
      document decoder ([encoding/xml], [encoding/json], [os.Create]) enter
      the model as explicit data: the decoded record list, or a flag of the
      file. *)

From Stdlib Require Import ZArith Ascii String SpecFloat Lia Bool.
From stdpp Require Import base tactics option list gmap strings.

Local Open Scope Z_scope.

(* ================================================================== *)
(** ** float64 *)

Module F64.

Definition prec : Z := 53.
Definition emax : Z := 1024.

Definition float64 : Type := spec_float.

Definition add : float64 -> float64 -> float64 := SFadd prec emax.
Definition sub : float64 -> float64 -> float64 := SFsub prec emax.
Definition mul : float64 -> float64 -> float64 := SFmul prec emax.
Definition div : float64 -> float64 -> float64 := SFdiv prec emax.
Definition ltb : float64 -> float64 -> bool := SFltb.

(** [float64(n)] for an integer [n]. *)
Definition of_Z (n : Z) : float64 := binary_normalize prec emax n 0 false.

(** The binary64 number nearest to [m * 2^e]. *)
Definition of_bin (m e : Z) : float64 := binary_normalize prec emax m e false.

(** The binary64 number nearest to the decimal constant [n / 10^k], which
    is what the Go compiler and [strconv] produce for a decimal literal with
    [k] fractional digits when [n] and [10^k] are below [2^53]. *)
Definition of_dec (n : Z) (k : nat) : float64 :=
  div (of_Z n) (of_Z (10 ^ Z.of_nat k)).

Definition is_nan (x : float64) : bool :=
  match x with S754_nan => true | _ => false end.

Definition is_finite (x : float64) : bool :=
  match x with S754_zero _ | S754_finite _ _ _ => true | _ => false end.

Definition sign (x : float64) : bool :=
  match x with
  | S754_zero s | S754_infinity s | S754_finite s _ _ => s
  | S754_nan => false
  end.

(** The integer part of a finite number, rounded towards zero. *)
Definition trunc (x : float64) : Z :=
  match x with
  | S754_finite s m e =>
      let a := match e with
               | Z0 => Zpos m
               | Zpos p => Zpos m * 2 ^ Zpos p
               | Zneg p => Zpos m / 2 ^ Zpos p
               end in
      if s then - a else a
  | _ => 0
  end.

(** The largest integer not above a finite number. *)
Definition floorZ (x : float64) : Z :=
  match x with
  | S754_finite s m e =>
      match e with
      | Z0 => if s then Zneg m else Zpos m
      | Zpos p => (if s then Zneg m else Zpos m) * 2 ^ Zpos p
      | Zneg p => (if s then Zneg m else Zpos m) / 2 ^ Zpos p
      end
  | _ => 0
  end.

(** Go's conversion [int(x)] on amd64: truncation towards zero; a NaN, an
    infinity or a value outside the int64 range gives the "integer
    indefinite" value [-2^63]. *)
Definition to_int (x : float64) : Z :=
  match x with
  | S754_nan | S754_infinity _ => - 2 ^ 63
  | _ => let t := trunc x in
         if (- 2 ^ 63 <=? t) && (t <? 2 ^ 63) then t else - 2 ^ 63
  end.

(** [math.Floor]: zeros, infinities and NaN are returned unchanged; the
    floor of a finite number is an integer that binary64 represents
    exactly. *)
Definition Floor (x : float64) : float64 :=
  match x with
  | S754_finite s _ _ => binary_normalize prec emax (floorZ x) 0 s
  | _ => x
  end.

End F64.

(* ================================================================== *)
(** ** Package [strings] and UTF-8 decoding *)

Module Strings.

Local Open Scope string_scope.

(** [strings.HasPrefix s p]. *)
Definition HasPrefix (s p : string) : bool := String.prefix p s.

Fixpoint drop (n : nat) (s : string) : string :=
  match n, s with
  | O, _ => s
  | S n', String _ s' => drop n' s'
  | S _, EmptyString => EmptyString
  end.

Fixpoint take (n : nat) (s : string) : string :=
  match n, s with
  | S n', String c s' => String c (take n' s')
  | _, _ => EmptyString
  end.

(** [strings.Cut s sep]: the text before and after the first occurrence
    of [sep] in [s], if there is one. *)
Fixpoint Cut (s sep : string) : option (string * string) :=
  if String.prefix sep s then Some (EmptyString, drop (String.length sep) s)
  else match s with
       | EmptyString => None
       | String c s' =>
           match Cut s' sep with
           | Some (before, after) => Some (String c before, after)
           | None => None
           end
       end.

(** [strings.Contains s sub]. *)
Definition Contains (s sub : string) : bool :=
  match Cut s sub with Some _ => true | None => false end.

(** The callers below pass a separator that is not empty, so that every
    cut consumes at least one byte and [String.length s] rounds suffice. *)
Fixpoint SplitN (fuel : nat) (s sep : string) : list string :=
  match fuel with
  | O => [s]
  | S fuel' =>
      match Cut s sep with
      | None => [s]
      | Some (before, after) => before :: SplitN fuel' after sep
      end
  end.

(** [strings.Split s sep], for a separator that is not empty. *)
Definition Split (s sep : string) : list string :=
  SplitN (String.length s) s sep.

Fixpoint ReplaceN (fuel : nat) (s old new : string) : string :=
  match fuel with
  | O => s
  | S fuel' =>
      match Cut s old with
      | None => s
      | Some (before, after) => before ++ new ++ ReplaceN fuel' after old new
      end
  end.

(** [strings.Replace s old new (-1)], for [old] not empty: every
    occurrence of [old], found from the left without overlap, becomes
    [new]. *)
Definition ReplaceAll (s old new : string) : string :=
  ReplaceN (String.length s) s old new.

Fixpoint CountN (fuel : nat) (s sub : string) : Z :=
  match fuel with
  | O => 0
  | S fuel' =>
      match Cut s sub with
      | None => 0
      | Some (_, after) => 1 + CountN fuel' after sub
      end
  end.

(** [strings.Count s sub], for [sub] not empty. *)
Definition Count (s sub : string) : Z := CountN (String.length s) s sub.

(** The line feed, Go's ["\n"]. *)
Definition LF : string := String (ascii_of_nat 10) EmptyString.

End Strings.

Module Utf8.

Definition RuneError : Z := 65533.

Definition byte (c : ascii) : Z := Z.of_nat (nat_of_ascii c).

Definition cont (lo hi : Z) (c : ascii) : option Z :=
  let b := byte c in
  if (lo <=? b) && (b <=? hi) then Some (Z.land b 63) else None.

(** [utf8.DecodeRuneInString]: the first rune of a string that is not
    empty and the rest of the string; a byte that starts no well-formed
    encoding decodes to [RuneError] and is consumed alone. *)
Definition DecodeRune (c : ascii) (rest : string) : Z * string :=
  let b := byte c in
  let bad := (RuneError, rest) in
  if b <? 128 then (b, rest)
  else if (194 <=? b) && (b <=? 223) then
    match rest with
    | String c1 r1 =>
        match cont 128 191 c1 with
        | Some x1 => (Z.shiftl (Z.land b 31) 6 + x1, r1)
        | None => bad
        end
    | _ => bad
    end
  else if (224 <=? b) && (b <=? 239) then
    let lo := if b =? 224 then 160 else 128 in
    let hi := if b =? 237 then 159 else 191 in
    match rest with
    | String c1 (String c2 r2) =>
        match cont lo hi c1, cont 128 191 c2 with
        | Some x1, Some x2 =>
            (Z.shiftl (Z.land b 15) 12 + Z.shiftl x1 6 + x2, r2)
        | _, _ => bad
        end
    | _ => bad
    end
  else if (240 <=? b) && (b <=? 244) then
    let lo := if b =? 240 then 144 else 128 in
    let hi := if b =? 244 then 143 else 191 in
    match rest with
    | String c1 (String c2 (String c3 r3)) =>
        match cont lo hi c1, cont 128 191 c2, cont 128 191 c3 with
        | Some x1, Some x2, Some x3 =>
            (Z.shiftl (Z.land b 7) 18 + Z.shiftl x1 12 + Z.shiftl x2 6 + x3, r3)
        | _, _, _ => bad
        end
    | _ => bad
    end
  else bad.

(** [utf8.AppendRune]: the bytes of a rune; a surrogate or a value above
    [0x10FFFF] is written as [RuneError]. *)
Definition chr (b : Z) : ascii := ascii_of_nat (Z.to_nat b).

Definition EncodeRune (r : Z) : list ascii :=
  let three x := [chr (224 + Z.shiftr x 12);
                  chr (128 + Z.land (Z.shiftr x 6) 63);
                  chr (128 + Z.land x 63)] in
  if (0 <=? r) && (r <? 128) then [chr r]
  else if (128 <=? r) && (r <? 2048) then
    [chr (192 + Z.shiftr r 6); chr (128 + Z.land r 63)]
  else if (r <? 0) || (1114111 <? r) || ((55296 <=? r) && (r <=? 57343)) then
    three RuneError
  else if r <? 65536 then three r
  else [chr (240 + Z.shiftr r 18);
        chr (128 + Z.land (Z.shiftr r 12) 63);
        chr (128 + Z.land (Z.shiftr r 6) 63);
        chr (128 + Z.land r 63)].

(** The conversion [string(rs)] of a rune slice. *)
Definition encode (rs : list Z) : string :=
  string_of_list_ascii (concat (map EncodeRune rs)).

Fixpoint runesN (fuel : nat) (s : string) : list Z :=
  match fuel, s with
  | S fuel', String c rest =>
      let '(r, rest') := DecodeRune c rest in r :: runesN fuel' rest'
  | _, _ => []
  end.

(** The conversion [[]rune(s)]. *)
Definition runes (s : string) : list Z := runesN (String.length s) s.

End Utf8.

(* ================================================================== *)
(** ** Package [fmt]: the scanning verbs and format verbs the program uses *)

Module Fmt.

(** The scanner reads runes; [list Z] is the input that is left. *)
Definition input : Type := list Z.

(** A scan step fails ([None], Go's [err != nil]) or gives a value and the
    rest of the input. *)
Definition scan (A : Type) : Type := input -> option (A * input).

Definition ret {A} (a : A) : scan A := fun i => Some (a, i).

Definition bind {A B} (m : scan A) (k : A -> scan B) : scan B :=
  fun i => match m i with
           | Some (a, i') => k a i'
           | None => None
           end.

Notation "x <- m ;; k" := (bind m (fun x => k))
  (at level 100, m at level 99, right associativity, only parsing).

(** [isSpace] of scan.go: the Unicode white space below [2^16]. *)
Definition isSpace (r : Z) : bool :=
  ((9 <=? r) && (r <=? 13)) || (r =? 32) || (r =? 133) || (r =? 160)
  || (r =? 5760) || ((8192 <=? r) && (r <=? 8202)) || (r =? 8232)
  || (r =? 8233) || (r =? 8239) || (r =? 8287) || (r =? 12288).

(** [ss.SkipSpace] in the [Sscanf] mode, where a newline is no space and
    is an error. *)
Fixpoint SkipSpace (i : input) : option input :=
  match i with
  | [] => Some []
  | r :: rest =>
      if r =? 10 then None
      else if isSpace r then SkipSpace rest
      else Some i
  end.

Definition skipSpace : scan unit :=
  fun i => match SkipSpace i with Some i' => Some (tt, i') | None => None end.

(** [ss.notEOF]. *)
Definition notEOF : scan unit :=
  fun i => match i with [] => None | _ => Some (tt, i) end.

Definition mem (r : Z) (set : list Z) : bool := existsb (Z.eqb r) set.

(** [ss.accept]: consume the next rune when it belongs to [set]. *)
Definition accept (set : list Z) : scan (option Z) :=
  fun i => match i with
           | r :: rest => if mem r set then Some (Some r, rest) else Some (None, i)
           | [] => Some (None, i)
           end.

(** The loop [for s.accept(set) {}]: the longest prefix within [set]. *)
Fixpoint acceptMany (set : list Z) (i : input) : list Z * input :=
  match i with
  | r :: rest =>
      if mem r set then
        let '(tok, i') := acceptMany set rest in (r :: tok, i')
      else ([], i)
  | [] => ([], [])
  end.

Definition many (set : list Z) : scan (list Z) :=
  fun i => Some (acceptMany set i).

(** The literal runes of a format: [ss.advance] on a rune that is neither
    a space nor a verb. *)
Definition literal (c : Z) : scan unit :=
  fun i => match i with
           | r :: rest => if r =? c then Some (tt, rest) else None
           | [] => None
           end.

Definition sign : list Z := [43; 45].
Definition decimalDigits : list Z := [48; 49; 50; 51; 52; 53; 54; 55; 56; 57].
Definition hexadecimalDigits : list Z :=
  decimalDigits ++ [97; 65; 98; 66; 99; 67; 100; 68; 101; 69; 102; 70].
Definition underscore : list Z := [95].
Definition period : list Z := [46].

Definition digitVal (r : Z) : Z :=
  if (48 <=? r) && (r <=? 57) then r - 48
  else if (97 <=? r) && (r <=? 102) then r - 87
  else r - 55.

Definition digitsVal (base : Z) (ds : list Z) : Z :=
  fold_left (fun acc d => acc * base + digitVal d) ds 0.

(** [ss.scanInt] for the verbs [%d] (base 10) and [%x] (base 16) into a
    64-bit integer: white space, an optional sign, at least one digit, and
    [strconv.ParseInt]'s range check. *)
Definition scanInt (base : Z) (digits : list Z) : scan Z :=
  _ <- skipSpace ;;
  _ <- notEOF ;;
  sg <- accept sign ;;
  _ <- notEOF ;;
  d <- accept digits ;;
  match d with
  | None => fun _ => None
  | Some d0 =>
      ds <- many digits ;;
      let v := digitsVal base (d0 :: ds) in
      let n := if sg is Some 45 then - v else v in
      if (- 2 ^ 63 <=? n) && (n <? 2 ^ 63) then ret n else fun _ => None
  end.

(** A verb other than [%c] first skips white space ([doScanf]). *)
Definition verb_d : scan Z := _ <- skipSpace ;; scanInt 10 decimalDigits.
Definition verb_x : scan Z := _ <- skipSpace ;; scanInt 16 hexadecimalDigits.

(** [ss.token(true, notSpace)]: the runes up to the next white space. *)
Fixpoint notSpaceToken (i : input) : list Z * input :=
  match i with
  | r :: rest =>
      if isSpace r then ([], i)
      else let '(tok, i') := notSpaceToken rest in (r :: tok, i')
  | [] => ([], [])
  end.

(** The verb [%s] ([ss.convertString]): the next word. *)
Definition verb_s : scan (list Z) :=
  _ <- skipSpace ;;
  _ <- skipSpace ;;
  _ <- notEOF ;;
  _ <- skipSpace ;;
  fun i => Some (notSpaceToken i).

Definition opt (set : list Z) : scan (list Z) :=
  r <- accept set ;; ret (match r with Some c => [c] | None => [] end).

(** Three runes in a row, each from its own set, or nothing consumed
    beyond the ones that matched ([s.accept(a) && s.accept(b) && s.accept(c)]);
    the flag tells whether all three matched. *)
Definition accept3 (a b c : list Z) : scan (bool * list Z) :=
  x <- accept a ;;
  match x with
  | None => ret (false, [])
  | Some x' =>
      y <- accept b ;;
      match y with
      | None => ret (false, [x'])
      | Some y' =>
          z <- accept c ;;
          match z with
          | None => ret (false, [x'; y'])
          | Some z' => ret (true, [x'; y'; z'])
          end
      end
  end.

(** [ss.floatToken]: the text of a floating-point number. *)
Definition floatToken : scan (list Z) :=
  nan <- accept3 [110; 78] [97; 65] [110; 78] ;;
  if fst nan then ret (snd nan)
  else
    sg <- opt sign ;;
    inf <- accept3 [105; 73] [110; 78] [102; 70] ;;
    let buf := snd nan ++ sg ++ snd inf in
    if fst inf then ret buf
    else
      zero <- accept [48] ;;
      hexp <- match zero with
              | Some z => x <- accept [120; 88] ;;
                          ret (match x with
                               | Some x' => (true, [z; x'])
                               | None => (false, [z])
                               end)
              | None => ret (false, [])
              end ;;
      let digits := (if fst hexp then hexadecimalDigits else decimalDigits)
                      ++ underscore in
      let exp := if fst hexp then [112; 80] else [101; 69; 112; 80] in
      int <- many digits ;;
      dot <- accept period ;;
      frac <- match dot with
              | Some p => ds <- many digits ;; ret (p :: ds)
              | None => ret []
              end ;;
      e <- accept exp ;;
      ex <- match e with
            | Some e' => s <- opt sign ;;
                         ds <- many (decimalDigits ++ underscore) ;;
                         ret (e' :: s ++ ds)
            | None => ret []
            end ;;
      ret (buf ++ snd hexp ++ int ++ frac ++ ex).

(** The verb [%f] into a [*float64]; [convertFloat] stands for
    [ss.convertFloat], that is [strconv.ParseFloat] on the token. *)
Definition verb_f (convertFloat : list Z -> option F64.float64)
  : scan F64.float64 :=
  _ <- skipSpace ;;
  _ <- skipSpace ;;
  _ <- notEOF ;;
  tok <- floatToken ;;
  match convertFloat tok with
  | Some x => ret x
  | None => fun _ => None
  end.

(** [Sscanf] returns no error when every verb of the format was served;
    input that is left over is ignored. *)
Definition Sscanf {A} (s : string) (format : scan A) : option A :=
  match format (Utf8.runes s) with
  | Some (a, _) => Some a
  | None => None
  end.

End Fmt.

(* ================================================================== *)
(** ** Package [os]: the file operations [ProbeFormat] uses *)

(** Go's [(value, error)] results whose value is meaningless on error. *)
Inductive result (A : Type) : Type :=
| Ok (a : A)
| Err (e : string).
Arguments Ok {A} a.
Arguments Err {A} e.

Module Os.

Local Open Scope string_scope.

(** An open [*os.File]: its bytes, the read position, and what the
    operating system answers to [lseek] and [read] on it (a pipe or a
    terminal cannot seek; a directory or a failing device cannot be
    read). *)
Record File : Type := mkFile {
  data : string;
  offset : Z;
  seekable : bool;
  readable : bool
}.

Inductive Whence : Type := SeekStart | SeekCurrent.

(** [file.Seek(off, whence)]: the new position, or an error that leaves
    the file as it was. *)
Definition Seek (f : File) (off : Z) (whence : Whence) : File * result Z :=
  if seekable f then
    let pos := match whence with
               | SeekStart => off
               | SeekCurrent => offset f + off
               end in
    if (pos <? 0)%Z then (f, Err "invalid argument")
    else (mkFile (data f) pos (seekable f) (readable f), Ok pos)
  else (f, Err "illegal seek").

(** [file.Read(buf)] with [len(buf) = size > 0]: the bytes [buf[:n]] and
    the error; at the end of the file [n = 0] and the error is [io.EOF]. *)
Definition Read (f : File) (size : nat) : File * (string * option string) :=
  if readable f then
    let chunk := Strings.take size (Strings.drop (Z.to_nat (offset f)) (data f)) in
    match chunk with
    | EmptyString => (f, (EmptyString, Some "EOF"))
    | _ => (mkFile (data f) (offset f + Z.of_nat (String.length chunk))
                   (seekable f) (readable f),
            (chunk, None))
    end
  else (f, (EmptyString, Some "input/output error")).

End Os.

(* ================================================================== *)
(** ** Package [parser] *)

Module Parser.

Import F64.
Local Open Scope string_scope.

(** parser.go, [type Comment struct]. *)
Record Comment : Type := mkComment {
  Timeline : float64;
  Timestamp : Z;
  No : Z;
  Text : string;
  Position : Z;
  Color : Z;
  Size : float64;
  Height : float64;
  Width : float64
}.

(** parser.go, [calculateLength]: the number of runes. *)
Definition calculateLength (text : string) : float64 :=
  of_Z (Z.of_nat (length (Utf8.runes text))).

(** The three lines every parser shares: the text with its line breaks,
    and the height and width estimated from it. *)
Definition normalizeText (content : string) : string :=
  Strings.ReplaceAll content "/n" Strings.LF.

Definition textHeight (text : string) (size : float64) : float64 :=
  mul (of_Z (Strings.Count text Strings.LF + 1)) size.

Definition textWidth (text : string) (size : float64) : float64 :=
  mul (calculateLength text) size.

(** *** bilibili.go *)

Record BilibiliComment : Type := mkBilibiliComment {
  P : string;
  BContent : string
}.

(** What [fmt.Sscanf(c.P, "%f,%s,%d,%d,%d", ...)] stores on success:
    timeline, mode, size, color, timestamp. *)
Definition BilibiliFields : Type := (float64 * string * Z * Z * Z)%type.

(** The [switch mode] of [parseBilibili]; [None] is its [default: continue]. *)
Definition bilibiliPosition (mode : string) : option Z :=
  if String.eqb mode "1" then Some 0
  else if String.eqb mode "4" then Some 2
  else if String.eqb mode "5" then Some 1
  else if String.eqb mode "6" then Some 3
  else None.

Section BilibiliLoop.

(** The call of [fmt.Sscanf] on the attribute [p]; [None] is [err != nil]. *)
Variable scanP : string -> option BilibiliFields.
Variable fontSize : float64.

(** One round of the [for i, c := range biliXML.Comments] loop: the
    Comment it appends, or [None] when it [continue]s. *)
Definition bilibiliStep (i : Z) (c : BilibiliComment) : option Comment :=
  match scanP (P c) with
  | None => None
  | Some (timeline, mode, size, color, timestamp) =>
      match bilibiliPosition mode with
      | None => None
      | Some position =>
          let textSize := div (mul (of_Z size) fontSize) (of_Z 25) in
          let text := normalizeText (BContent c) in
          let height := textHeight text textSize in
          let width := textWidth text textSize in
          Some {| Timeline := timeline; Timestamp := timestamp; No := i;
                  Text := text; Position := position; Color := color;
                  Size := textSize; Height := height; Width := width |}
      end
  end.

(** The loop from index [i] on; the Comments come out in the order in
    which [append] adds them. *)
Fixpoint bilibiliLoop (i : Z) (cs : list BilibiliComment) : list Comment :=
  match cs with
  | [] => []
  | c :: rest =>
      match bilibiliStep i c with
      | Some cm => cm :: bilibiliLoop (i + 1) rest
      | None => bilibiliLoop (i + 1) rest
      end
  end.

(** [parseBilibili] after the XML decoder has run: [doc] is the decoded
    document or the decoder's error. *)
Definition parseBilibiliWith (doc : result (list BilibiliComment))
  : result (list Comment) :=
  match doc with
  | Err e => Err e
  | Ok cs => Ok (bilibiliLoop 0 cs)
  end.

End BilibiliLoop.

(** The format ["%f,%s,%d,%d,%d"] on Go's scanner. The word scanned by
    [%s] is written back as bytes. *)
Definition bilibiliFormat (convertFloat : list Z -> option float64)
  : Fmt.scan (float64 * list Z * Z * Z * Z) :=
  Fmt.bind (Fmt.verb_f convertFloat) (fun timeline =>
  Fmt.bind (Fmt.literal 44) (fun _ =>
  Fmt.bind Fmt.verb_s (fun mode =>
  Fmt.bind (Fmt.literal 44) (fun _ =>
  Fmt.bind Fmt.verb_d (fun size =>
  Fmt.bind (Fmt.literal 44) (fun _ =>
  Fmt.bind Fmt.verb_d (fun color =>
  Fmt.bind (Fmt.literal 44) (fun _ =>
  Fmt.bind Fmt.verb_d (fun timestamp =>
  Fmt.ret (timeline, mode, size, color, timestamp)))))))))).

Definition SscanfP (convertFloat : list Z -> option float64) (p : string)
  : option BilibiliFields :=
  match Fmt.Sscanf p (bilibiliFormat convertFloat) with
  | Some (timeline, mode, size, color, timestamp) =>
      Some (timeline, Utf8.encode mode, size, color, timestamp)
  | None => None
  end.

(** bilibili.go, [parseBilibili]. *)
Definition parseBilibili (convertFloat : list Z -> option float64)
    (doc : result (list BilibiliComment)) (fontSize : float64)
  : result (list Comment) :=
  parseBilibiliWith (SscanfP convertFloat) fontSize doc.

(** *** niconico.go *)

Record NiconicoComment : Type := mkNiconicoComment {
  VPos : Z;
  NNo : Z;
  Date : Z;
  UserID : string;
  Mail : string;
  NContent : string
}.

(** The variables [position], [color] and [size] that the command loop
    of [parseNiconico] updates. *)
Record NicoStyle : Type := mkNicoStyle {
  nsPosition : Z;
  nsColor : Z;
  nsSize : float64
}.

(** [fmt.Sscanf(cmd, "%x", &color)]; [None] is [err != nil], and then
    [color] keeps its value. *)
Definition scanColor (cmd : string) : option Z := Fmt.Sscanf cmd Fmt.verb_x.

(** The body of [for _, cmd := range commands]: the [switch cmd]. *)
Definition niconicoCommand (fontSize : float64) (st : NicoStyle) (cmd : string)
  : NicoStyle :=
  if String.eqb cmd "ue" then
    mkNicoStyle 1 (nsColor st) (nsSize st)
  else if String.eqb cmd "shita" then
    mkNicoStyle 2 (nsColor st) (nsSize st)
  else if String.eqb cmd "big" then
    mkNicoStyle (nsPosition st) (nsColor st) (mul fontSize (of_bin 3 (-1)))
  else if String.eqb cmd "small" then
    mkNicoStyle (nsPosition st) (nsColor st) (mul fontSize (of_bin 1 (-1)))
  else if (String.length cmd =? 6)%nat then
    match scanColor cmd with
    | Some color => mkNicoStyle (nsPosition st) color (nsSize st)
    | None => st
    end
  else st.

(** The declarations before the loop: [var position int],
    [color = 0xFFFFFF], [size = fontSize]. *)
Definition niconicoDefault (fontSize : float64) : NicoStyle :=
  mkNicoStyle 0 16777215 fontSize.

Definition niconicoCommands (fontSize : float64) (commands : list string)
  : NicoStyle :=
  fold_left (niconicoCommand fontSize) commands (niconicoDefault fontSize).

Definition niconicoStyle (fontSize : float64) (mail : string) : NicoStyle :=
  niconicoCommands fontSize (Strings.Split mail " ").

(** One round of the loop over [nicoXML.Comments]. *)
Definition niconicoStep (fontSize : float64) (c : NiconicoComment) : Comment :=
  let st := niconicoStyle fontSize (Mail c) in
  let text := normalizeText (NContent c) in
  let height := textHeight text (nsSize st) in
  let width := textWidth text (nsSize st) in
  let timeline := div (of_Z (VPos c)) (of_Z 100) in
  {| Timeline := timeline; Timestamp := Date c; No := NNo c; Text := text;
     Position := nsPosition st; Color := nsColor st; Size := nsSize st;
     Height := height; Width := width |}.

(** niconico.go, [parseNiconico], after the XML decoder has run. *)
Definition parseNiconico (doc : result (list NiconicoComment))
    (fontSize : float64) : result (list Comment) :=
  match doc with
  | Err e => Err e
  | Ok cs => Ok (map (niconicoStep fontSize) cs)
  end.

(** *** acfun.go *)

Record AcfunComment : Type := mkAcfunComment {
  Time : float64;
  Mode : Z;
  ASize : Z;
  AColor : Z;
  AContent : string
}.

(** The [switch c.Mode] of [parseAcfun]; [None] is its [default: continue]. *)
Definition acfunPosition (mode : Z) : option Z :=
  match mode with
  | 1 => Some 0
  | 4 => Some 2
  | 5 => Some 1
  | 6 => Some 3
  | _ => None
  end.

Definition acfunStep (fontSize : float64) (i : Z) (c : AcfunComment)
  : option Comment :=
  match acfunPosition (Mode c) with
  | None => None
  | Some position =>
      let textSize := div (mul (of_Z (ASize c)) fontSize) (of_Z 25) in
      let text := normalizeText (AContent c) in
      let height := textHeight text textSize in
      let width := textWidth text textSize in
      Some {| Timeline := Time c; Timestamp := 0; No := i; Text := text;
              Position := position; Color := AColor c; Size := textSize;
              Height := height; Width := width |}
  end.

Fixpoint acfunLoop (fontSize : float64) (i : Z) (cs : list AcfunComment)
  : list Comment :=
  match cs with
  | [] => []
  | c :: rest =>
      match acfunStep fontSize i c with
      | Some cm => cm :: acfunLoop fontSize (i + 1) rest
      | None => acfunLoop fontSize (i + 1) rest
      end
  end.

(** acfun.go, [parseAcfun], after the JSON decoder has run. *)
Definition parseAcfun (doc : result (list AcfunComment)) (fontSize : float64)
  : result (list Comment) :=
  match doc with
  | Err e => Err e
  | Ok cs => Ok (acfunLoop fontSize 0 cs)
  end.

(** *** parser.go *)

(** [type Format string] and its three constants. *)
Definition Format : Type := string.
Definition FormatBilibili : Format := "Bilibili".
Definition FormatNiconico : Format := "Niconico".
Definition FormatAcfun : Format := "Acfun".

(** The [if] chain at the end of [ProbeFormat], on the bytes read. *)
Definition classify (content : string) : Format * option string :=
  if Strings.HasPrefix content "<?xml" then
    if Strings.Contains content "<i>" then (FormatBilibili, None)
    else if Strings.Contains content "<chat>" then (FormatNiconico, None)
    else (EmptyString, Some "unknown format")
  else if Strings.HasPrefix content "[" then (FormatAcfun, None)
  else (EmptyString, Some "unknown format").

(** The part of [ProbeFormat] after the [defer]: read at most 100 bytes
    and classify them. *)
Definition probeBody (f : Os.File) : Os.File * (Format * option string) :=
  let '(f', (content, err)) := Os.Read f 100 in
  match err with
  | Some e => if String.eqb e "EOF" then (f', classify content)
              else (f', (EmptyString, Some e))
  | None => (f', classify content)
  end.

(** parser.go, [ProbeFormat]: the file after the call, the format and the
    error. The deferred [file.Seek(curPos, io.SeekStart)] runs on every
    return that follows the [defer] statement; its own result is dropped. *)
Definition ProbeFormat (f : Os.File) : Os.File * (Format * option string) :=
  match Os.Seek f 0 Os.SeekCurrent with
  | (f0, Err e) => (f0, (EmptyString, Some e))
  | (f0, Ok curPos) =>
      let '(f1, r) := probeBody f0 in
      let '(f2, _) := Os.Seek f1 curPos Os.SeekStart in
      (f2, r)
  end.

(** The documents of the three formats as their decoders return them. *)
Record Document : Type := mkDocument {
  asBilibili : result (list BilibiliComment);
  asNiconico : result (list NiconicoComment);
  asAcfun : result (list AcfunComment)
}.

(** parser.go, [ParseComments]. *)
Definition ParseComments (convertFloat : list Z -> option float64)
    (doc : Document) (format : Format) (fontSize : float64)
  : result (list Comment) :=
  if String.eqb format FormatBilibili then
    parseBilibili convertFloat (asBilibili doc) fontSize
  else if String.eqb format FormatNiconico then
    parseNiconico (asNiconico doc) fontSize
  else if String.eqb format FormatAcfun then
    parseAcfun (asAcfun doc) fontSize
  else Err ("unsupported format: " ++ format).

End Parser.

(* ================================================================== *)
(** ** Package [sort]: [sort.Slice]

    [sort.Slice] runs the pattern-defeating quicksort of zsortfunc.go on the
    interface [lessSwap]: [Less i j] compares the elements at two indices of
    the slice and [Swap i j] exchanges them. The slice is a list; indices
    are natural numbers, the sort never leaves the range it is given. *)

Module Sort.

Local Open Scope nat_scope.

Section LessSwap.

Context {A : Type}.
(** The order of the caller's [less] closure, on the elements. *)
Variable lt : A -> A -> bool.

Definition Less (data : list A) (i j : nat) : bool :=
  match data !! i, data !! j with
  | Some x, Some y => lt x y
  | _, _ => false
  end.

Definition Swap (data : list A) (i j : nat) : list A :=
  match data !! i, data !! j with
  | Some x, Some y => <[j := x]> (<[i := y]> data)
  | _, _ => data
  end.

(** [for j := i; j > a && Less(j, j-1); j-- { Swap(j, j-1) }] *)
Fixpoint insertDown (data : list A) (a j : nat) : list A :=
  match j with
  | O => data
  | S j' =>
      if (a <? j) && Less data j j' then insertDown (Swap data j j') a j'
      else data
  end.

(** [for i := ...; i < b; i++], with [n] rounds left. *)
Fixpoint insertionLoop (data : list A) (a i n : nat) : list A :=
  match n with
  | O => data
  | S n' => insertionLoop (insertDown data a i) a (S i) n'
  end.

(** [insertionSort_func]: sorts [data[a:b]]. *)
Definition insertionSort_func (data : list A) (a b : nat) : list A :=
  insertionLoop data a (a + 1) (b - (a + 1)).

(** [siftDown_func]; the root moves down at every round, so [hi] rounds
    are enough. *)
Fixpoint siftDownN (fuel : nat) (data : list A) (root hi first : nat)
  : list A :=
  match fuel with
  | O => data
  | S fuel' =>
      let child := 2 * root + 1 in
      if hi <=? child then data
      else
        let child :=
          if (child + 1 <? hi) && Less data (first + child) (first + child + 1)
          then child + 1 else child in
        if negb (Less data (first + root) (first + child)) then data
        else siftDownN fuel' (Swap data (first + root) (first + child))
                       child hi first
  end.

Definition siftDown_func (data : list A) (lo hi first : nat) : list A :=
  siftDownN hi data lo hi first.

(** [for i := (hi - 1) / 2; i >= 0; i-- { siftDown_func(data, i, hi, first) }],
    entered with [n = i + 1]. *)
Fixpoint heapBuild (data : list A) (n hi first : nat) : list A :=
  match n with
  | O => data
  | S i => heapBuild (siftDown_func data i hi first) i hi first
  end.

(** [for i := hi - 1; i >= 0; i-- { Swap(first, first+i); siftDown_func(data, lo, i, first) }],
    entered with [n = i + 1]. *)
Fixpoint heapPop (data : list A) (n first : nat) : list A :=
  match n with
  | O => data
  | S i => heapPop (siftDown_func (Swap data first (first + i)) 0 i first) i first
  end.

(** [heapSort_func]: sorts [data[a:b]]. *)
Definition heapSort_func (data : list A) (a b : nat) : list A :=
  let first := a in
  let hi := b - a in
  heapPop (heapBuild data ((hi - 1) / 2 + 1) hi first) hi first.

(** [for i <= j && p(i) { i++ }], with fuel for the rounds. *)
Fixpoint scanUp (p : nat -> bool) (fuel i j : nat) : nat :=
  match fuel with
  | O => i
  | S fuel' => if (i <=? j) && p i then scanUp p fuel' (S i) j else i
  end.

(** [for i <= j && p(j) { j-- }]; the callers have [1 <= i]. *)
Fixpoint scanDown (p : nat -> bool) (i j : nat) : nat :=
  match j with
  | O => O
  | S j' => if (i <=? j) && p j then scanDown p i j' else j
  end.

(** The main loop of [partition_func]: [a] holds the pivot. *)
Fixpoint partitionLoop (fuel : nat) (data : list A) (a i j : nat)
  : list A * nat :=
  match fuel with
  | O => (data, j)
  | S fuel' =>
      let i := scanUp (fun i => Less data i a) (S j - i) i j in
      let j := scanDown (fun j => negb (Less data j a)) i j in
      if j <? i then (data, j)
      else partitionLoop fuel' (Swap data i j) a (S i) (j - 1)
  end.

(** [partition_func]: the data, the new index of the pivot, and whether
    the range was already partitioned. *)
Definition partition_func (data : list A) (a b pivot : nat)
  : list A * nat * bool :=
  let data := Swap data a pivot in
  let i := a + 1 in
  let j := b - 1 in
  let i := scanUp (fun i => Less data i a) (S j - i) i j in
  let j := scanDown (fun j => negb (Less data j a)) i j in
  if j <? i then (Swap data j a, j, true)
  else
    let data := Swap data i j in
    let '(data, j) := partitionLoop (b - a) data a (S i) (j - 1) in
    (Swap data j a, j, false).

(** The loop of [partitionEqual_func]. *)
Fixpoint partitionEqualLoop (fuel : nat) (data : list A) (a i j : nat)
  : list A * nat :=
  match fuel with
  | O => (data, i)
  | S fuel' =>
      let i := scanUp (fun i => negb (Less data a i)) (S j - i) i j in
      let j := scanDown (fun j => Less data a j) i j in
      if j <? i then (data, i)
      else partitionEqualLoop fuel' (Swap data i j) a (S i) (j - 1)
  end.

(** [partitionEqual_func]: the elements equal to the pivot go first; the
    index after them. *)
Definition partitionEqual_func (data : list A) (a b pivot : nat)
  : list A * nat :=
  let data := Swap data a pivot in
  partitionEqualLoop (b - a) data a (a + 1) (b - 1).

(** [for i < b && p(i) { i++ }], with fuel for the rounds. *)
Fixpoint scanTo (p : nat -> bool) (fuel i b : nat) : nat :=
  match fuel with
  | O => i
  | S fuel' => if (i <? b) && p i then scanTo p fuel' (S i) b else i
  end.

(** [for j := ...; j >= 1; j-- { if !Less(j, j-1) { break }; Swap(j, j-1) }] *)
Fixpoint shiftLeft (data : list A) (j : nat) : list A :=
  match j with
  | O => data
  | S j' => if negb (Less data j j') then data
            else shiftLeft (Swap data j j') j'
  end.

(** [for j := ...; j < b; j++ { if !Less(j, j-1) { break }; Swap(j, j-1) }],
    with [n = b - j] rounds left. *)
Fixpoint shiftRight (data : list A) (j n : nat) : list A :=
  match n with
  | O => data
  | S n' => if negb (Less data j (j - 1)) then data
            else shiftRight (Swap data j (j - 1)) (S j) n'
  end.

Definition maxSteps : nat := 5.
Definition shortestShifting : nat := 50.

(** The [for j := 0; j < maxSteps; j++] loop of
    [partialInsertionSort_func], with [steps] rounds left. *)
Fixpoint partialLoop (steps : nat) (data : list A) (a b i : nat)
  : list A * bool :=
  match steps with
  | O => (data, false)
  | S steps' =>
      let i := scanTo (fun i => negb (Less data i (i - 1))) (b - i) i b in
      if i =? b then (data, true)
      else if b - a <? shortestShifting then (data, false)
      else
        let data := Swap data i (i - 1) in
        let data := if 2 <=? i - a then shiftLeft data (i - 1) else data in
        let data := if 2 <=? b - i then shiftRight data (i + 1) (b - (i + 1))
                    else data in
        partialLoop steps' data a b i
  end.

(** [partialInsertionSort_func]: the data, and whether [data[a:b]] is
    sorted at the end. *)
Definition partialInsertionSort_func (data : list A) (a b : nat)
  : list A * bool :=
  partialLoop maxSteps data a b (a + 1).

(** [xorshift.Next] on a [uint64]. *)
Definition xorshiftNext (r : Z) : Z :=
  let mask := (2 ^ 64 - 1)%Z in
  let r := Z.lxor r (Z.land (Z.shiftl r 13) mask) in
  let r := Z.lxor r (Z.shiftr r 7) in
  Z.lxor r (Z.land (Z.shiftl r 17) mask).

(** [bits.Len]. *)
Definition bitsLen (n : nat) : nat :=
  match n with O => O | _ => S (Nat.log2 n) end.

Definition nextPowerOfTwo (length : nat) : Z := (2 ^ Z.of_nat (bitsLen length))%Z.

(** One round of the loop of [breakPatterns_func]: the data and the
    state of the generator. *)
Definition breakStep (a length idx : nat) (modulus : Z)
    (st : list A * Z) (i : nat) : list A * Z :=
  let '(data, random) := st in
  let random := xorshiftNext random in
  let other := Z.to_nat (Z.land random (modulus - 1)) in
  let other := if length <=? other then other - length else other in
  (Swap data (idx - 1 + i) (a + other), random).

(** [breakPatterns_func]. *)
Definition breakPatterns_func (data : list A) (a b : nat) : list A :=
  let length := b - a in
  if 8 <=? length then
    let random := Z.of_nat length in
    let modulus := nextPowerOfTwo length in
    let idx := a + (length / 4) * 2 - 1 in
    fst (fold_left (breakStep a length idx modulus) [0; 1; 2] (data, random))
  else data.

Inductive sortedHint : Type := unknownHint | increasingHint | decreasingHint.

(** [order2_func]. *)
Definition order2_func (data : list A) (a b swaps : nat) : nat * nat * nat :=
  if Less data b a then (b, a, S swaps) else (a, b, swaps).

(** [median_func]. *)
Definition median_func (data : list A) (a b c swaps : nat) : nat * nat :=
  let '(a, b, swaps) := order2_func data a b swaps in
  let '(b, c, swaps) := order2_func data b c swaps in
  let '(a, b, swaps) := order2_func data a b swaps in
  (b, swaps).

(** [medianAdjacent_func]. *)
Definition medianAdjacent_func (data : list A) (a swaps : nat) : nat * nat :=
  median_func data (a - 1) a (a + 1) swaps.

Definition shortestNinther : nat := 50.
Definition maxSwaps : nat := 4 * 3.

(** [choosePivot_func]. *)
Definition choosePivot_func (data : list A) (a b : nat) : nat * sortedHint :=
  let l := b - a in
  let i := a + l / 4 * 1 in
  let j := a + l / 4 * 2 in
  let k := a + l / 4 * 3 in
  let '(j, swaps) :=
    if 8 <=? l then
      let '(i, j, k, swaps) :=
        if shortestNinther <=? l then
          let '(i, swaps) := medianAdjacent_func data i 0 in
          let '(j, swaps) := medianAdjacent_func data j swaps in
          let '(k, swaps) := medianAdjacent_func data k swaps in
          (i, j, k, swaps)
        else (i, j, k, 0) in
      median_func data i j k swaps
    else (j, 0) in
  if swaps =? 0 then (j, increasingHint)
  else if swaps =? maxSwaps then (j, decreasingHint)
  else (j, unknownHint).

(** The loop of [reverseRange_func]. *)
Fixpoint reverseLoop (fuel : nat) (data : list A) (i j : nat) : list A :=
  match fuel with
  | O => data
  | S fuel' => if i <? j then reverseLoop fuel' (Swap data i j) (S i) (j - 1)
               else data
  end.

(** [reverseRange_func]. *)
Definition reverseRange_func (data : list A) (a b : nat) : list A :=
  reverseLoop (b - a) data a (b - 1).

Definition maxInsertion : nat := 12.

Definition isIncreasing (h : sortedHint) : bool :=
  match h with increasingHint => true | _ => false end.

(** [pdqsort_func]. One unit of fuel pays for one round of its [for]
    loop or for one recursive call; the range shrinks at every round, so
    [b - a + 1] units are enough. The recursive call starts with its own
    [wasBalanced] and [wasPartitioned], both true. *)
Fixpoint pdqsortN (fuel : nat) (data : list A) (a b limit : nat)
    (wasBalanced wasPartitioned : bool) : list A :=
  match fuel with
  | O => data
  | S fuel' =>
      let length := b - a in
      if length <=? maxInsertion then insertionSort_func data a b
      else if limit =? 0 then heapSort_func data a b
      else
        let '(data, limit) :=
          if negb wasBalanced then (breakPatterns_func data a b, limit - 1)
          else (data, limit) in
        let '(pivot, hint) := choosePivot_func data a b in
        let '(data, pivot, hint) :=
          match hint with
          | decreasingHint =>
              (reverseRange_func data a b, (b - 1) - (pivot - a), increasingHint)
          | _ => (data, pivot, hint)
          end in
        let '(data, sorted) :=
          if wasBalanced && wasPartitioned && isIncreasing hint
          then partialInsertionSort_func data a b
          else (data, false) in
        if sorted then data
        else if (0 <? a) && negb (Less data (a - 1) pivot) then
          let '(data, mid) := partitionEqual_func data a b pivot in
          pdqsortN fuel' data mid b limit wasBalanced wasPartitioned
        else
          let '(data, mid, alreadyPartitioned) := partition_func data a b pivot in
          let leftLen := mid - a in
          let rightLen := b - mid in
          let balanceThreshold := length / 8 in
          if leftLen <? rightLen then
            let data := pdqsortN fuel' data a mid limit true true in
            pdqsortN fuel' data (mid + 1) b limit
                     (balanceThreshold <=? leftLen) alreadyPartitioned
          else
            let data := pdqsortN fuel' data (mid + 1) b limit true true in
            pdqsortN fuel' data a mid limit
                     (balanceThreshold <=? rightLen) alreadyPartitioned
  end.

(** [sort.Slice(x, less)]. *)
Definition Slice (x : list A) : list A :=
  let length := length x in
  let limit := bitsLen length in
  pdqsortN (length + 1) x 0 length limit true true.

End LessSwap.

End Sort.

(* ================================================================== *)
(** ** Package [fmt]: the verbs of [Sprintf] the generator uses *)

Module Sprintf.

Local Open Scope string_scope.
Local Open Scope Z_scope.

Definition digitChar (d : Z) : ascii :=
  ascii_of_nat (Z.to_nat (if d <? 10 then 48 + d else 55 + d)).

Fixpoint digitsN (fuel : nat) (base n : Z) (acc : string) : string :=
  match fuel with
  | O => acc
  | S fuel' =>
      let acc' := String (digitChar (n mod base)) acc in
      if n <? base then acc' else digitsN fuel' base (n / base) acc'
  end.

(** The digits of [n >= 0] in base 10 or 16, without padding. *)
Definition digits (base n : Z) : string :=
  digitsN (S (Z.to_nat (Z.log2 n))) base n EmptyString.

Fixpoint zeros (n : nat) : string :=
  match n with O => EmptyString | S n' => String "0" (zeros n') end.

(** [%0wd]: the sign, then zeros up to the width [w], then the digits. *)
Definition padded (base : Z) (w : nat) (n : Z) : string :=
  let ds := digits base (Z.abs n) in
  let sg := if n <? 0 then "-" else EmptyString in
  sg ++ zeros (w - String.length sg - String.length ds) ++ ds.

Definition verb_d (n : Z) : string := padded 10 0 n.
Definition verb_02d (n : Z) : string := padded 10 2 n.
Definition verb_X (n : Z) : string := padded 16 0 n.

(** The integer nearest to [n / d] for [d > 0], ties to even. *)
Definition divRound (n d : Z) : Z :=
  let q := n / d in
  let r := n mod d in
  if 2 * r <? d then q
  else if d <? 2 * r then q + 1
  else if Z.even q then q else q + 1.

(** [%f]: six digits after the point, correctly rounded. *)
Definition verb_f (x : F64.float64) : string :=
  match x with
  | S754_nan => "NaN"
  | S754_infinity s => if s then "-Inf" else "+Inf"
  | S754_zero s => (if s then "-" else EmptyString) ++ "0.000000"
  | S754_finite s m e =>
      let n := match e with
               | Zneg p => divRound (Zpos m * 10 ^ 6) (2 ^ Zpos p)
               | _ => Zpos m * 2 ^ e * 10 ^ 6
               end in
      (if s then "-" else EmptyString)
        ++ digits 10 (n / 10 ^ 6) ++ "." ++ padded 10 6 (n mod 10 ^ 6)
  end.

End Sprintf.

(* ================================================================== *)
(** ** Package [ass] *)

Module Ass.

Import F64 Parser.
Local Open Scope string_scope.
Local Open Scope Z_scope.

(** ass.go, [type Event struct]. *)
Record Event : Type := mkEvent {
  Start : float64;
  End_ : float64;
  Style : string;
  EText : string;
  MarginL : Z;
  MarginR : Z;
  MarginV : Z;
  Effect : string
}.

(** ass.go, [type Generator struct]. *)
Record Generator : Type := mkGenerator {
  GWidth : Z;
  GHeight : Z;
  FontName : string;
  FontSize : float64;
  Alpha : float64;
  DurationStart : float64;
  MarginStart : float64
}.

(** ass.go, [NewGenerator]. *)
Definition NewGenerator (width height : Z) (fontName : string)
    (fontSize alpha durationStart marginStart : float64) : Generator :=
  mkGenerator width height fontName fontSize alpha durationStart marginStart.

(** Go's [/] and [%] on integers truncate towards zero. *)
Definition formatTime (seconds : float64) : string :=
  let hours := Z.quot (to_int seconds) 3600 in
  let minutes := Z.quot (Z.rem (to_int seconds) 3600) 60 in
  let secs := Z.rem (to_int seconds) 60 in
  let centisecs :=
    to_int (Floor (mul (sub seconds (Floor seconds)) (of_Z 100))) in
  Sprintf.verb_d hours ++ ":" ++ Sprintf.verb_02d minutes ++ ":"
    ++ Sprintf.verb_02d secs ++ "." ++ Sprintf.verb_02d centisecs.

(** The [switch comment.Position] of [generateEvents]; [None] is its
    [default: continue]. *)
Definition styleOf (position : Z) : option string :=
  match position with
  | 0 => Some "R2L"
  | 1 => Some "Top"
  | 2 => Some "Bottom"
  | _ => None
  end.

Definition eventOf (g : Generator) (comment : Comment) : option Event :=
  let start := Timeline comment in
  let end_ := add start (DurationStart g) in
  match styleOf (Position comment) with
  | None => None
  | Some style =>
      Some {| Start := start; End_ := end_; Style := style;
              EText := Text comment; MarginL := 0; MarginR := 0;
              MarginV := 0; Effect := EmptyString |}
  end.

(** ass.go, [generateEvents]. *)
Fixpoint generateEvents (g : Generator) (comments : list Comment) : list Event :=
  match comments with
  | [] => []
  | comment :: rest =>
      match eventOf g comment with
      | Some ev => ev :: generateEvents g rest
      | None => generateEvents g rest
      end
  end.

(** The line [writeEvents] writes for one event. *)
Definition dialogueLine (event : Event) : string :=
  "Dialogue: 0," ++ formatTime (Start event) ++ "," ++ formatTime (End_ event)
    ++ "," ++ Style event ++ ",,0,0,0,," ++ EText event ++ Strings.LF.

(** ass.go, [writeEvents]: the lines, in the order they are written. *)
Definition writeEvents (events : list Event) : list string :=
  map dialogueLine events.

(** Go's [<<] on a 64-bit [int] wraps around. *)
Definition shl64 (n k : Z) : Z :=
  let w := (n * 2 ^ k) mod 2 ^ 64 in
  if w <? 2 ^ 63 then w else w - 2 ^ 64.

Definition styleLine (g : Generator) (name : string) : string :=
  let colour := Sprintf.verb_X (shl64 (to_int (mul (Alpha g) (of_Z 255))) 24) in
  "Style: " ++ name ++ "," ++ FontName g ++ "," ++ Sprintf.verb_f (FontSize g)
    ++ ",&H" ++ colour ++ ",&H" ++ colour
    ++ ",&H000000,&H000000,0,0,0,0,100,100,0,0,1,2,0,2,20,20,2,0" ++ Strings.LF.

(** ass.go, [writeHeader]: the text it writes. *)
Definition writeHeader (g : Generator) : string :=
  let LF := Strings.LF in
  "[Script Info]" ++ LF
    ++ "ScriptType: v4.00+" ++ LF
    ++ "PlayResX: " ++ Sprintf.verb_d (GWidth g) ++ LF
    ++ "PlayResY: " ++ Sprintf.verb_d (GHeight g) ++ LF
    ++ "Aspect Ratio: "
    ++ Sprintf.verb_f (div (of_Z (GWidth g)) (of_Z (GHeight g))) ++ LF
    ++ "Collisions: Normal" ++ LF
    ++ "WrapStyle: 2" ++ LF
    ++ "ScaledBorderAndShadow: yes" ++ LF
    ++ LF
    ++ "[V4+ Styles]" ++ LF
    ++ "Format: Name, Fontname, Fontsize, PrimaryColour, SecondaryColour, OutlineColour, BackColour, Bold, Italic, Underline, StrikeOut, ScaleX, ScaleY, Spacing, Angle, BorderStyle, Outline, Shadow, Alignment, MarginL, MarginR, MarginV, Encoding" ++ LF
    ++ styleLine g "R2L" ++ styleLine g "Top" ++ styleLine g "Bottom"
    ++ LF ++ "[Events]" ++ LF
    ++ "Format: Layer, Start, End, Style, Name, MarginL, MarginR, MarginV, Effect, Text" ++ LF.

(** *** Memory and files

    A Go slice is a window on a backing array that the caller and the
    callee share. The world holds the backing arrays by address and the
    files by path; [creatable] tells for which paths [os.Create] succeeds. *)

Record World : Type := mkWorld {
  heap : gmap nat (list Comment);
  files : gmap string string;
  creatable : string -> bool
}.

Record CommentSlice : Type := mkSlice {
  array : nat;
  low : nat;
  len : nat
}.

Definition backing (w : World) (s : CommentSlice) : list Comment :=
  default [] (heap w !! array s).

(** The elements [s[0], ..., s[len(s)-1]] as the memory has them. *)
Definition elems (w : World) (s : CommentSlice) : list Comment :=
  take (len s) (drop (low s) (backing w s)).

(** Overwrite the window of [s] with [l] (used with [length l = len s]). *)
Definition store (w : World) (s : CommentSlice) (l : list Comment) : World :=
  let arr := backing w s in
  mkWorld (<[array s := (take (low s) arr ++ l ++ drop (low s + len s) arr)%list]>
             (heap w))
          (files w) (creatable w).

(** The closure passed to [sort.Slice]:
    [comments[i].Timeline < comments[j].Timeline]. *)
Definition lessTimeline (x y : Comment) : bool :=
  ltb (Timeline x) (Timeline y).

(** ass.go, [GenerateASS]: the world after the call and the error. The
    sort happens on the caller's array before the output file is created;
    [generateEvents] then reads the sorted array. *)
Definition GenerateASS (g : Generator) (comments : CommentSlice)
    (output : string) (w : World) : World * option string :=
  let w := store w comments (Sort.Slice lessTimeline (elems w comments)) in
  if creatable w output then
    let header := writeHeader g in
    let events := generateEvents g (elems w comments) in
    let text := header ++ String.concat EmptyString (writeEvents events) in
    (mkWorld (heap w) (<[output := text]> (files w)) (creatable w), None)
  else (w, Some ("open " ++ output ++ ": permission denied")).

End Ass.

(* ================================================================== *)
(** ** Package [main]: the conversion after the command line is parsed *)

Module Main.

Import F64 Parser Ass.
Local Open Scope string_scope.

(** An input file that [os.Open] opened: its bytes for the probe and what
    the three decoders make of them. *)
Record Input : Type := mkInput {
  file : Os.File;
  document : Document
}.

(** The body of [for _, inputFile := range cfg.InputFiles]: the Comments
    to append, none when the probe or the parser reports an error. *)
Definition readInput (convertFloat : list Z -> option float64)
    (fontSize : float64) (inp : Input) : list Comment :=
  match ProbeFormat (file inp) with
  | (_, (_, Some _)) => []
  | (_, (format, None)) =>
      match ParseComments convertFloat (document inp) format fontSize with
      | Err _ => []
      | Ok comments => comments
      end
  end.

Definition allComments (convertFloat : list Z -> option float64)
    (fontSize : float64) (inputs : list Input) : list Comment :=
  concat (map (readInput convertFloat fontSize) inputs).

(** The rest of [main]: the merged Comments live in a fresh array at
    address [addr]; the world after [GenerateASS] and its error. *)
Definition convert (convertFloat : list Z -> option float64)
    (g : Generator) (inputs : list Input) (output : string)
    (addr : nat) (w : World) : World * option string :=
  let all := allComments convertFloat (FontSize g) inputs in
  let w := mkWorld (<[addr := all]> (heap w)) (files w) (creatable w) in
  GenerateASS g (mkSlice addr 0 (length all)) output w.

(** The dialogue lines written for a list of already merged Comments. *)
Definition dialogueLines (g : Generator) (comments : list Comment) : list string :=
  writeEvents (generateEvents g (Sort.Slice lessTimeline comments)).

End Main.

(* ================================================================== *)
(** ** Notions the properties are stated with *)

Module Spec.

Import Parser.

(** The bytes [ProbeFormat] reads from a file: at most 100, from the
    current position on. *)
Definition probePrefix (f : Os.File) : string :=
  Strings.take 100 (Strings.drop (Z.to_nat (Os.offset f)) (Os.data f)).

(** The elements of a result that is a list (the records of a decoded
document, the Comments of a parse); none on error. *)
Definition commentsOf {A : Type} (r : result (list A)) : list A :=
  match r with Ok cs => cs | Err _ => [] end.

(** The four enumerated positions. *)
Definition enumerated (position : Z) : Prop :=
  position = 0 \/ position = 1 \/ position = 2 \/ position = 3.

(** The modes with a position: 1, 4, 5 and 6; as text in the Bilibili
attribute, as a number in the AcFun record. *)
Definition supportedModeText (mode : string) : bool :=
  String.eqb mode "1" || String.eqb mode "4" || String.eqb mode "5"
  || String.eqb mode "6".

Definition supportedMode (mode : Z) : bool :=
  (mode =? 1) || (mode =? 4) || (mode =? 5) || (mode =? 6).

(** The Bilibili record scans and its mode is supported. *)
Definition bilibiliEmits (scanP : string -> option BilibiliFields)
    (c : BilibiliComment) : bool :=
  match scanP (P c) with
  | Some (_, mode, _, _, _) => supportedModeText mode
  | None => false
  end.

(** The raw size a Bilibili record carries, when the record is emitted. *)
Definition bilibiliRawSize (scanP : string -> option BilibiliFields)
    (c : BilibiliComment) : option Z :=
  match scanP (P c) with
  | Some (_, mode, size, _, _) =>
      if supportedModeText mode then Some size else None
  | None => None
  end.

(** The AcFun record has a supported mode. *)
Definition acfunEmits (c : AcfunComment) : bool := supportedMode (Mode c).

(** The Niconico commands, attribute by attribute: what a token sets, if
it sets the attribute at all. *)
Definition positionToken (t : string) : option Z :=
  if String.eqb t "ue" then Some 1
  else if String.eqb t "shita" then Some 2
  else None.

Definition sizeToken (fontSize : F64.float64) (t : string) : option F64.float64 :=
  if String.eqb t "big" then Some (F64.mul fontSize (F64.of_bin 3 (-1)))
  else if String.eqb t "small" then Some (F64.mul fontSize (F64.of_bin 1 (-1)))
  else None.

Definition colorToken (t : string) : option Z :=
  if (String.length t =? 6)%nat then scanColor t else None.

(** Last token wins, per attribute: each attribute takes the value of the
last token that sets it, and its default when no token does. *)
Definition lastWins (fontSize : F64.float64) (tokens : list string) : NicoStyle :=
  mkNicoStyle (List.last (omap positionToken tokens) 0)
              (List.last (omap colorToken tokens) 16777215)
              (List.last (omap (sizeToken fontSize) tokens) fontSize).

(** [rawSize * baseFontSize / 25.0] in binary64. *)
Definition scaledSize (fontSize : F64.float64) (rawSize : Z) : F64.float64 :=
  F64.div (F64.mul (F64.of_Z rawSize) fontSize) (F64.of_Z 25).

(** The indices, counted from [i], of the elements of a list that satisfy [p]. *)
Fixpoint indicesWhere {A : Type} (p : A -> bool) (i : Z) (l : list A) : list Z :=
  match l with
  | [] => []
  | x :: rest => if p x then i :: indicesWhere p (i + 1) rest
                 else indicesWhere p (i + 1) rest
  end.

(** The end-to-end scenario: one Bilibili file with three records, of
modes 1, 5 and 9. *)
Definition scenarioRecords : list BilibiliComment :=
  [ mkBilibiliComment "1.5,1,25,16777215,1700000000,0,abc,1" "first";
    mkBilibiliComment "3.0,5,25,16777215,1700000001,0,abc,2" "second";
    mkBilibiliComment "2.0,9,25,16777215,1700000002,0,abc,3" "third" ]%string.

Definition scenarioBytes : string :=
  ("<?xml version='1.0' encoding='UTF-8'?><i>"
   ++ "<d p='1.5,1,25,16777215,1700000000,0,abc,1'>first</d>"
   ++ "<d p='3.0,5,25,16777215,1700000001,0,abc,2'>second</d>"
   ++ "<d p='2.0,9,25,16777215,1700000002,0,abc,3'>third</d></i>")%string.

Definition scenarioInput : Main.Input :=
  Main.mkInput (Os.mkFile scenarioBytes 0 true true)
    (mkDocument (Ok scenarioRecords)
                (Err "expected element type <packet> but have <i>")
                (Err "invalid character '<' looking for beginning of value")).

(** The generator [main] builds from the default flags: 320x240,
"MS PGothic", size 48, alpha 0.8, both durations 5. *)
Definition defaultGenerator : Ass.Generator :=
  Ass.NewGenerator 320 240 "MS PGothic" (F64.of_Z 48) (F64.of_dec 8 1)
                   (F64.of_Z 5) (F64.of_Z 5).

(** A world with no array and no file, where every path can be created. *)
Definition emptyWorld : Ass.World := Ass.mkWorld ∅ ∅ (fun _ => true).

End Spec.

(** ** The order of binary64 numbers *)

Module FloatSpec.

(** A number that is not NaN has a place on the line: its class (minus
infinity, negative, zero, positive, plus infinity), then its exponent, then
its mantissa, the last two negated for negative numbers. [SFcompare]
compares these keys lexicographically. *)
Definition key (x : F64.float64) : Z * Z * Z :=
  match x with
  | S754_infinity true => (-2, 0, 0)
  | S754_finite true m e => (-1, - e, Zneg m)
  | S754_zero _ => (0, 0, 0)
  | S754_nan => (0, 0, 0)
  | S754_finite false m e => (1, e, Zpos m)
  | S754_infinity false => (2, 0, 0)
  end.

Definition keyLt (k1 k2 : Z * Z * Z) : Prop :=
  let '(c1, e1, m1) := k1 in
  let '(c2, e2, m2) := k2 in
  c1 < c2 \/ (c1 = c2 /\ (e1 < e2 \/ (e1 = e2 /\ m1 < m2))).

(** Go's [==] on [float64]. *)
Definition eqb (x y : F64.float64) : bool := SFeqb x y.

(** The values a [float64] can hold: the mantissa has at most 53 bits and
the exponent is the one of the format. *)
Definition valid (x : F64.float64) : bool := valid_binary F64.prec F64.emax x.

End FloatSpec.

(** ** Sorted ranges, permutations of a range, stability *)

Module SortSpec.

Section Order.

Context {A : Type}.
Variable lt : A -> A -> bool.

(** No element of [d[a:b]] is less than an element before it in the range. *)
Definition sortedSeg (d : list A) (a b : nat) : Prop :=
  forall (i j : nat) (x y : A),
    (a <= i)%nat -> (i < j)%nat -> (j < b)%nat ->
    d !! i = Some x -> d !! j = Some y -> lt y x = false.

(** The whole list is in ascending order. *)
Definition sorted (d : list A) : Prop := sortedSeg d 0 (length d).

(** [d'] agrees with [d] outside of the range [a:b]. *)
Definition sameOutside (d d' : list A) (a b : nat) : Prop :=
  forall i : nat, (i < a)%nat \/ (b <= i)%nat -> d' !! i = d !! i.

(** [d'] is [d] with the elements of the range [a:b] rearranged. *)
Definition permSeg (d d' : list A) (a b : nat) : Prop :=
  d ≡ₚ d' /\ sameOutside d d' a b.

(** The range [d[a:b]] as a list of its own. *)
Definition seg (d : list A) (a b : nat) : list A := take (b - a) (drop a d).

(** Every element of [d[a:b]] satisfies [P]. *)
Definition allSeg (P : A -> Prop) (d : list A) (a b : nat) : Prop :=
  forall (k : nat) (x : A), (a <= k < b)%nat -> d !! k = Some x -> P x.

(** All pairs of positions of [d[a:b]] are in order, except possibly those
whose later position is [k]. *)
Definition sortedExcept (d : list A) (a b k : nat) : Prop :=
  forall (i j : nat) (x y : A),
    (a <= i)%nat -> (i < j)%nat -> (j < b)%nat -> j <> k ->
    d !! i = Some x -> d !! j = Some y -> lt y x = false.

(** When the range does not start the slice, the element in front of it
is not greater than any element of the range ([pdqsort_func] keeps this
true for the ranges it works on: the element in front is an earlier pivot). *)
Definition lowerBound (d : list A) (a b : nat) : Prop :=
  forall q : A, (0 < a)%nat -> d !! (a - 1)%nat = Some q ->
    allSeg (fun x => lt x q = false) d a b.

(** In the heap [d[first : first+hi]], the node [i] is not less than its
children. *)
Definition heapAt (d : list A) (first hi i : nat) : Prop :=
  forall (c : nat) (x y : A),
    c = (2 * i + 1)%nat \/ c = (2 * i + 2)%nat -> (c < hi)%nat ->
    d !! (first + i)%nat = Some x -> d !! (first + c)%nat = Some y ->
    lt x y = false.

Definition heapRange (d : list A) (first lo hi : nat) : Prop :=
  forall i : nat, (lo <= i < hi)%nat -> heapAt d first hi i.

(** The state of [siftDown_func] while the element at [root] sinks: every
other node of [lo:hi] is not less than its children, and the parent of
[root], if it is in the range, is not less than the children of [root]. *)
Definition siftInv (d : list A) (first lo hi root : nat) : Prop :=
  (forall i : nat, (lo <= i < hi)%nat -> i <> root -> heapAt d first hi i)
  /\ (forall (g c : nat) (x y : A),
         (lo <= g)%nat -> root = (2 * g + 1)%nat \/ root = (2 * g + 2)%nat ->
         c = (2 * root + 1)%nat \/ c = (2 * root + 2)%nat -> (c < hi)%nat ->
         d !! (first + g)%nat = Some x -> d !! (first + c)%nat = Some y ->
         lt x y = false).

(** The elements that an equivalence [eqv] puts in the class of [x] come in
the same order in [d'] as in [d], for every class. *)
Definition stable (eqv : A -> A -> bool) (d d' : list A) : Prop :=
  forall x : A, List.filter (eqv x) d' = List.filter (eqv x) d.

End Order.

End SortSpec.

(** ** Notions for the generator *)

Module AssSpec.

Import Parser Ass.
Local Open Scope string_scope.
Local Open Scope Z_scope.

(** The timeline of the Comment is a number. *)
Definition notNaN (c : Comment) : Prop := F64.is_nan (Timeline c) = false.

(** Two Comments have equal timeline values (Go's [==]). *)
Definition sameTime (x y : Comment) : bool :=
  FloatSpec.eqb (Timeline x) (Timeline y).

(** A scrolling white Comment of size 25 with one line of text. *)
Definition comment (no : Z) (timeline : F64.float64) (text : string) : Comment :=
  mkComment timeline 0 no text 0 16777215 (F64.of_Z 25) (F64.of_Z 25)
            (textWidth text (F64.of_Z 25)).

(** Thirteen Comments, "a" to "m": the first twelve at second 1, the last
one at second 0. *)
Definition tieComments : list Comment :=
  [ comment 0 (F64.of_Z 1) "a"; comment 1 (F64.of_Z 1) "b";
    comment 2 (F64.of_Z 1) "c"; comment 3 (F64.of_Z 1) "d";
    comment 4 (F64.of_Z 1) "e"; comment 5 (F64.of_Z 1) "f";
    comment 6 (F64.of_Z 1) "g"; comment 7 (F64.of_Z 1) "h";
    comment 8 (F64.of_Z 1) "i"; comment 9 (F64.of_Z 1) "j";
    comment 10 (F64.of_Z 1) "k"; comment 11 (F64.of_Z 1) "l";
    comment 12 (F64.of_Z 0) "m" ].

(** Three Comments out of order, two of them at the same second. *)
Definition threeComments : list Comment :=
  [ comment 0 (F64.of_Z 5) "late"; comment 1 (F64.of_Z 1) "first";
    comment 2 (F64.of_Z 1) "second" ].

(** A world whose only array, at address 0, holds [threeComments]. *)
Definition threeWorld : World :=
  mkWorld (<[0%nat := threeComments]> ∅) ∅ (fun _ => true).

End AssSpec.

(* ------------------------------------------------------------------ *)
(** *** Reading a time code *)

Module TimeSpec.

Local Open Scope string_scope.
Local Open Scope Z_scope.

(** The value of a decimal digit character. *)
Definition digitOf (c : ascii) : option Z :=
  let n := Z.of_nat (nat_of_ascii c) in
  if (48 <=? n) && (n <=? 57) then Some (n - 48) else None.

(** The number that a string of decimal digits writes, continuing from
[acc]. *)
Fixpoint numeralValue (acc : Z) (s : string) : option Z :=
  match s with
  | EmptyString => Some acc
  | String c s' =>
      match digitOf c with
      | Some d => numeralValue (acc * 10 + d) s'
      | None => None
      end
  end.

(** [s] writes [n] in decimal without padding: no leading zero, except
for the single digit of zero. *)
Definition isNumeral (s : string) (n : Z) : bool :=
  match numeralValue 0 s with
  | Some v =>
      (v =? n)
      && (if n =? 0 then String.eqb s "0" else negb (String.prefix "0" s))
  | None => false
  end.

(** The two decimal digits of a number below one hundred. *)
Definition twoDigits (n : Z) : string :=
  String (Sprintf.digitChar (n / 10))
         (String (Sprintf.digitChar (n mod 10)) EmptyString).

(** A finite number that is zero or positive. *)
Definition nonNegative (x : F64.float64) : bool :=
  FloatSpec.valid x && F64.is_finite x && negb (F64.sign x).

(** The hundredths of a second in the exact value of a non-negative
number, cut off: [floor (100 * (x - floor x))] over the rationals. *)
Definition truncatedCentis (x : F64.float64) : Z :=
  match x with
  | S754_finite _ m (Zneg p) => 100 * (Zpos m mod 2 ^ Zpos p) / 2 ^ Zpos p
  | _ => 0
  end.

(** The exact hundredths of [x] lie at most [2 ^ -47] below the next
integer. *)
Definition nearNextCenti (x : F64.float64) : bool :=
  match x with
  | S754_finite _ m (Zneg p) =>
      let D := Zpos m mod 2 ^ Zpos p in
      let T := 100 * D / 2 ^ Zpos p in
      2 ^ 47 * ((T + 1) * 2 ^ Zpos p - 100 * D) <=? 2 ^ Zpos p
  | _ => false
  end.

End TimeSpec.

(* ------------------------------------------------------------------ *)
(** *** What reaches the subtitle file *)

Module EventSpec.

Import F64 Parser Ass.
Local Open Scope string_scope.
Local Open Scope Z_scope.



(** The style of the positions 0, 1 and 2. *)
Definition positionStyle (position : Z) : string :=
  if position =? 1 then "Top" else if position =? 2 then "Bottom" else "R2L".

(** The event of a text shown from [start] on. *)
Definition eventAt (g : Generator) (start : float64) (style text : string)
  : Event :=
  mkEvent start (add start (DurationStart g)) style text 0 0 0 EmptyString.

(** No event starts before an event that comes earlier in the list. *)
Definition ascendingStarts (events : list Event) : Prop :=
  forall (i j : nat) (a b : Event),
    (i < j)%nat -> events !! i = Some a -> events !! j = Some b ->
    ltb (Start b) (Start a) = false.

(** The probe of the input failed, or answered Bilibili. *)
Definition yieldsNothing (inp : Main.Input) : Prop :=
  snd (snd (ProbeFormat (Main.file inp))) <> None
  \/ fst (snd (ProbeFormat (Main.file inp))) = FormatBilibili.

End EventSpec.

(* ------------------------------------------------------------------ *)
(** *** Code points *)

Module TextSpec.

Local Open Scope Z_scope.

(** A Unicode scalar value: a code point that is no surrogate. *)
Definition scalar (r : Z) : Prop :=
  0 <= r <= 1114111 /\ ~ (55296 <= r <= 57343).

End TextSpec.

(* ================================================================== *)
(** * Properties *)

(** ** The format probe *)

Module ProbeProofs.

Import Parser.
Local Open Scope string_scope.
Local Arguments Strings.take : simpl never.
Local Arguments Strings.drop : simpl never.

(** Reading changes nothing of a file but its offset. *)
Lemma Read_frame (f : Os.File) (n : nat) :
  let f' := fst (Os.Read f n) in
  Os.data f' = Os.data f /\ Os.seekable f' = Os.seekable f
  /\ Os.readable f' = Os.readable f.
Proof.
  unfold Os.Read. destruct (Os.readable f) eqn:Hr; simpl; [| by rewrite Hr].
  destruct (Strings.take _ _); simpl; by rewrite ?Hr.
Qed.

Lemma probeBody_frame (f : Os.File) :
  let f' := fst (probeBody f) in
  Os.data f' = Os.data f /\ Os.seekable f' = Os.seekable f
  /\ Os.readable f' = Os.readable f.
Proof.
  unfold probeBody. pose proof (Read_frame f 100) as H.
  destruct (Os.Read f 100) as [f' [content [e|]]]; simpl in *;
    [destruct (String.eqb e "EOF") |]; exact H.
Qed.

(** C9. [ProbeFormat] leaves the file as it found it: whatever it
    returns, a format or an error, the read position after the call is the
    read position before the call (and the bytes and the flags of the file
    are unchanged too). *)
Theorem ProbeFormat_restores_position (f : Os.File) :
  fst (ProbeFormat f) = f /\ Os.offset (fst (ProbeFormat f)) = Os.offset f.
Proof.
  assert (fst (ProbeFormat f) = f) as E; [| by rewrite E].
  unfold ProbeFormat, Os.Seek at 1.
  destruct (Os.seekable f) eqn:Hs; [| reflexivity].
  destruct (Z.ltb_spec (Os.offset f + 0) 0) as [Hneg | Hpos]; [reflexivity |].
  set (f0 := Os.mkFile _ _ _ _).
  pose proof (probeBody_frame f0) as (Hd & Hsk & Hrd).
  destruct (probeBody f0) as [f1 r]. simpl in Hd, Hsk, Hrd.
  unfold Os.Seek. rewrite Hsk. simpl.
  destruct (Z.ltb_spec (Os.offset f + 0) 0); [lia |]. simpl.
  rewrite Hd, Hrd. subst f0. simpl. rewrite Z.add_0_r, <- Hs. by destruct f.
Qed.

Lemma ProbeFormat_classify (f : Os.File) :
  Os.seekable f = true -> Os.readable f = true -> 0 <= Os.offset f ->
  snd (ProbeFormat f) = classify (Spec.probePrefix f).
Proof.
  intros Hs Hr Ho. unfold ProbeFormat, Os.Seek at 1. rewrite Hs.
  destruct (Z.ltb_spec (Os.offset f + 0) 0); [lia |].
  unfold probeBody, Os.Read. simpl. rewrite Hr, Z.add_0_r.
  fold (Spec.probePrefix f).
  destruct (Spec.probePrefix f) eqn:E; simpl;
    match goal with |- context [Os.Seek ?g ?p ?w] => by destruct (Os.Seek g p w) end.
Qed.

Lemma bracket_not_xml (content : string) :
  Strings.HasPrefix content "[" = true ->
  Strings.HasPrefix content "<?xml" = false.
Proof.
  unfold Strings.HasPrefix. destruct content as [| c rest]; [done |].
  change (String.prefix "[" (String c rest))
    with (if ascii_dec "[" c then String.prefix "" rest else false).
  change (String.prefix "<?xml" (String c rest))
    with (if ascii_dec "<" c then String.prefix "?xml" rest else false).
  destruct (ascii_dec "[" c) as [<- | Hne]; [| intros; discriminate].
  intros _. destruct (ascii_dec "<" "["); [discriminate | reflexivity].
Qed.

(** C7, as the code has it. For a file that can seek and be read, the
    bytes read decide the result: an XML declaration with the marker
    [<i>] gives Bilibili; an XML declaration with the marker [<chat>] and
    without [<i>] gives Niconico; a leading [[] gives AcFun; anything else,
    an XML declaration with neither marker included, gives the empty
    format and the error "unknown format". *)
Theorem ProbeFormat_classification (f : Os.File) :
  Os.seekable f = true -> Os.readable f = true -> 0 <= Os.offset f ->
  let content := Spec.probePrefix f in
  let xml := Strings.HasPrefix content "<?xml" in
  let i := Strings.Contains content "<i>" in
  let chat := Strings.Contains content "<chat>" in
  let bracket := Strings.HasPrefix content "[" in
  (xml = true -> i = true -> snd (ProbeFormat f) = (FormatBilibili, None))
  /\ (xml = true -> i = false -> chat = true ->
      snd (ProbeFormat f) = (FormatNiconico, None))
  /\ (bracket = true -> snd (ProbeFormat f) = (FormatAcfun, None))
  /\ (xml = true -> i = false -> chat = false ->
      snd (ProbeFormat f) = (EmptyString, Some "unknown format"))
  /\ (xml = false -> bracket = false ->
      snd (ProbeFormat f) = (EmptyString, Some "unknown format")).
Proof.
  intros Hs Hr Ho content xml i chat bracket.
  rewrite (ProbeFormat_classify f Hs Hr Ho). fold content.
  unfold classify. fold xml i chat bracket.
  repeat split.
  - by intros -> ->.
  - by intros -> -> ->.
  - intros Hb. unfold xml. by rewrite (bracket_not_xml content Hb), Hb.
  - by intros -> -> ->.
  - by intros -> ->.
Qed.

(** A Bilibili file, probed from its start. *)
Lemma ProbeFormat_classification_witness :
  snd (ProbeFormat (Os.mkFile "<?xml version='1.0'?><i><d p='1,1,25,1,1'>a</d></i>"
                              0 true true))
  = (FormatBilibili, None).
Proof.
  refine (proj1 (ProbeFormat_classification
                   (Os.mkFile "<?xml version='1.0'?><i><d p='1,1,25,1,1'>a</d></i>"
                              0 true true) _ _ _) _ _);
    first [reflexivity | simpl; lia].
Defined.

(** C7 as stated fails on a prefix that holds both markers: this XML
    document has the marker [<chat>], and the probe answers Bilibili. *)
Lemma ProbeFormat_chat_marker_counterexample :
  let f := Os.mkFile "<?xml version='1.0'?><packet><chat><![CDATA[<i>]]></chat></packet>"
                     0 true true in
  Strings.HasPrefix (Spec.probePrefix f) "<?xml" = true
  /\ Strings.Contains (Spec.probePrefix f) "<chat>" = true
  /\ snd (ProbeFormat f) <> (FormatNiconico, None)
  /\ snd (ProbeFormat f) = (FormatBilibili, None).
Proof. vm_compute. repeat split; congruence. Qed.

End ProbeProofs.


(** ** The Bilibili parser *)

Module BilibiliProofs.

Import F64 Parser.
Local Open Scope string_scope.
Local Open Scope Z_scope.

(** The word that [%s] scans ends at the end of the input or in front of a
white space. *)
Lemma notSpaceToken_rest (i : Fmt.input) :
  snd (Fmt.notSpaceToken i) = []
  \/ exists r rest, snd (Fmt.notSpaceToken i) = r :: rest /\ Fmt.isSpace r = true.
Proof.
  induction i as [| r rest IH]; simpl; [by left |].
  destruct (Fmt.isSpace r) eqn:Hr; simpl.
  - right. by exists r, rest.
  - destruct (Fmt.notSpaceToken rest) as [tok i']. exact IH.
Qed.

(** A comma in the format right after [%s] never matches: [%s] has eaten
every comma up to the next white space. *)
Lemma verb_s_then_comma {A : Type} (k : list Z -> unit -> Fmt.scan A)
    (i : Fmt.input) :
  Fmt.bind Fmt.verb_s (fun mode => Fmt.bind (Fmt.literal 44) (k mode)) i = None.
Proof.
  unfold Fmt.verb_s, Fmt.bind, Fmt.skipSpace, Fmt.notEOF.
  destruct (Fmt.SkipSpace i) as [i1 |]; [| done].
  destruct (Fmt.SkipSpace i1) as [i2 |]; [| done].
  destruct i2 as [| r2 i2]; [done |].
  destruct (Fmt.SkipSpace (r2 :: i2)) as [i3 |]; [| done].
  pose proof (notSpaceToken_rest i3) as H.
  destruct (Fmt.notSpaceToken i3) as [tok rest]. simpl in H.
  destruct H as [-> | (r & rest' & -> & Hr)]; [done |].
  unfold Fmt.literal. destruct (Z.eqb_spec r 44) as [-> | _]; [| done].
  by vm_compute in Hr.
Qed.

(** [fmt.Sscanf(c.P, "%f,%s,%d,%d,%d", ...)] returns an error for every
attribute string. *)
Lemma SscanfP_fails (convertFloat : list Z -> option float64) (p : string) :
  SscanfP convertFloat p = None.
Proof.
  unfold SscanfP, Fmt.Sscanf, bilibiliFormat.
  set (i := Utf8.runes p). clearbody i.
  unfold Fmt.bind at 1. destruct (Fmt.verb_f convertFloat i) as [[x i1] |]; [| done].
  unfold Fmt.bind at 1. destruct (Fmt.literal 44 i1) as [[u i2] |]; [| done].
  by rewrite verb_s_then_comma.
Qed.

(** Hence [parseBilibili] appends nothing, whatever the document holds. *)
Lemma parseBilibili_empty (convertFloat : list Z -> option float64)
    (cs : list BilibiliComment) (fontSize : float64) :
  parseBilibili convertFloat (Ok cs) fontSize = Ok [].
Proof.
  unfold parseBilibili, parseBilibiliWith. f_equal.
  generalize 0. induction cs as [| c rest IH]; intros i; simpl; [done |].
  unfold bilibiliStep. by rewrite SscanfP_fails.
Qed.

(** C1, on the code. For the scenario file (records of modes 1, 5 and 9
with well-formed attribute strings) the pipeline does not emit the two
dialogue lines the claim promises: the probe answers Bilibili, the parser
returns no Comment at all, no dialogue line is produced, and the output
file holds the header only. *)
Theorem bilibili_scenario_emits_no_dialogue
    (convertFloat : list Z -> option float64) :
  let g := Spec.defaultGenerator in
  let result := Main.convert convertFloat g [Spec.scenarioInput] "out.ass" 0
                             Spec.emptyWorld in
  snd (ProbeFormat (Main.file Spec.scenarioInput)) = (FormatBilibili, None)
  /\ parseBilibili convertFloat (Ok Spec.scenarioRecords) (Ass.FontSize g) = Ok []
  /\ Main.dialogueLines g (Main.allComments convertFloat (Ass.FontSize g)
                                            [Spec.scenarioInput]) = []
  /\ snd result = None
  /\ Ass.files (fst result) !! "out.ass" = Some (Ass.writeHeader g).
Proof.
  intros g result.
  assert (Main.allComments convertFloat (Ass.FontSize g) [Spec.scenarioInput] = [])
    as Hall.
  { assert (Main.readInput convertFloat (Ass.FontSize g) Spec.scenarioInput = [])
      as Hread.
    { unfold Main.readInput.
      replace (ProbeFormat (Main.file Spec.scenarioInput))
        with (Main.file Spec.scenarioInput, (FormatBilibili, @None string))
        by (vm_compute; reflexivity).
      change (ParseComments convertFloat (Main.document Spec.scenarioInput)
                            FormatBilibili (Ass.FontSize g))
        with (parseBilibili convertFloat (Ok Spec.scenarioRecords) (Ass.FontSize g)).
      by rewrite parseBilibili_empty. }
    unfold Main.allComments. cbn [map]. by rewrite Hread. }
  split; [by vm_compute |].
  split; [apply parseBilibili_empty |].
  split; [by rewrite Hall |].
  subst result. unfold Main.convert. rewrite Hall.
  unfold Ass.GenerateASS, Ass.store, Ass.elems, Ass.backing. simpl.
  split; [done |].
  rewrite lookup_insert_eq. by vm_compute.
Qed.

End BilibiliProofs.

(** ** What the parser loops emit *)

Module LoopProofs.

Import F64 Parser.
Local Open Scope Z_scope.

Section Bilibili.

Variable scanP : string -> option BilibiliFields.
Variable fontSize : float64.

Lemma bilibiliPosition_cases (mode : string) :
  (Spec.supportedModeText mode = true
   /\ exists p, bilibiliPosition mode = Some p /\ Spec.enumerated p)
  \/ (Spec.supportedModeText mode = false /\ bilibiliPosition mode = None).
Proof.
  unfold Spec.supportedModeText, bilibiliPosition, Spec.enumerated.
  destruct (String.eqb mode "1"); [left; eauto 10 |].
  destruct (String.eqb mode "4"); [left; eauto 10 |].
  destruct (String.eqb mode "5"); [left; eauto 10 |].
  destruct (String.eqb mode "6"); [left; eauto 10 |].
  by right.
Qed.

Lemma bilibiliStep_emits (i : Z) (c : BilibiliComment) :
  Spec.bilibiliEmits scanP c = false -> bilibiliStep scanP fontSize i c = None.
Proof.
  unfold Spec.bilibiliEmits, bilibiliStep.
  destruct (scanP (P c)) as [[[[[timeline mode] size] color] timestamp] |]; [| done].
  destruct (bilibiliPosition_cases mode) as [(-> & _) | (_ & ->)]; done.
Qed.

Lemma bilibiliStep_fields (i : Z) (c : BilibiliComment) :
  Spec.bilibiliEmits scanP c = true ->
  exists cm size,
    bilibiliStep scanP fontSize i c = Some cm
    /\ No cm = i /\ Spec.enumerated (Position cm)
    /\ Spec.bilibiliRawSize scanP c = Some size
    /\ Size cm = Spec.scaledSize fontSize size.
Proof.
  unfold Spec.bilibiliEmits, Spec.bilibiliRawSize, bilibiliStep.
  destruct (scanP (P c)) as [[[[[timeline mode] size] color] timestamp] |]; [| done].
  destruct (bilibiliPosition_cases mode) as [(-> & p & -> & Hp) | (-> & _)];
    [| done].
  intros _. eexists _, size. simpl. auto.
Qed.


Lemma bilibiliLoop_positions (i : Z) (cs : list BilibiliComment) :
  Forall (fun cm => Spec.enumerated (Position cm)) (bilibiliLoop scanP fontSize i cs).
Proof.
  revert i. induction cs as [| c rest IH]; intros i; simpl; [constructor |].
  destruct (Spec.bilibiliEmits scanP c) eqn:He.
  - destruct (bilibiliStep_fields i c He) as (cm & size & -> & _ & Hp & _).
    constructor; [exact Hp | apply IH].
  - rewrite (bilibiliStep_emits i c He). apply IH.
Qed.

Lemma bilibiliLoop_length (i : Z) (cs : list BilibiliComment) :
  length (bilibiliLoop scanP fontSize i cs)
  = length (List.filter (Spec.bilibiliEmits scanP) cs).
Proof.
  revert i. induction cs as [| c rest IH]; intros i; simpl; [done |].
  destruct (Spec.bilibiliEmits scanP c) eqn:He.
  - destruct (bilibiliStep_fields i c He) as (cm & size & -> & _).
    simpl. by rewrite IH.
  - rewrite (bilibiliStep_emits i c He). apply IH.
Qed.


Lemma bilibiliLoop_numbers (i : Z) (cs : list BilibiliComment) :
  map No (bilibiliLoop scanP fontSize i cs)
  = Spec.indicesWhere (Spec.bilibiliEmits scanP) i cs.
Proof.
  revert i. induction cs as [| c rest IH]; intros i; simpl; [done |].
  destruct (Spec.bilibiliEmits scanP c) eqn:He.
  - destruct (bilibiliStep_fields i c He) as (cm & size & -> & Hn & _).
    simpl. by rewrite Hn, IH.
  - rewrite (bilibiliStep_emits i c He). apply IH.
Qed.

End Bilibili.

Section Acfun.

Variable fontSize : float64.

Lemma acfunPosition_cases (mode : Z) :
  (Spec.supportedMode mode = true
   /\ exists p, acfunPosition mode = Some p /\ Spec.enumerated p)
  \/ (Spec.supportedMode mode = false /\ acfunPosition mode = None).
Proof.
  unfold Spec.supportedMode, Spec.enumerated.
  destruct (Z.eqb_spec mode 1) as [-> | H1]; [left; simpl; eauto 10 |].
  destruct (Z.eqb_spec mode 4) as [-> | H4]; [left; simpl; eauto 10 |].
  destruct (Z.eqb_spec mode 5) as [-> | H5]; [left; simpl; eauto 10 |].
  destruct (Z.eqb_spec mode 6) as [-> | H6]; [left; simpl; eauto 10 |].
  right. split; [done |].
  destruct mode as [| p | p]; try done.
  destruct p as [[[p | p |] | [p | p |] |] | [[p | p |] | [p | p |] |] |];
    simpl; congruence.
Qed.

Lemma acfunStep_emits (i : Z) (c : AcfunComment) :
  Spec.acfunEmits c = false -> acfunStep fontSize i c = None.
Proof.
  unfold Spec.acfunEmits, acfunStep.
  destruct (acfunPosition_cases (Mode c)) as [(-> & _) | (_ & ->)]; done.
Qed.

Lemma acfunStep_fields (i : Z) (c : AcfunComment) :
  Spec.acfunEmits c = true ->
  exists cm,
    acfunStep fontSize i c = Some cm
    /\ No cm = i /\ Spec.enumerated (Position cm)
    /\ Size cm = Spec.scaledSize fontSize (ASize c).
Proof.
  unfold Spec.acfunEmits, acfunStep.
  destruct (acfunPosition_cases (Mode c)) as [(-> & p & -> & Hp) | (-> & _)];
    [| done].
  intros _. eexists. simpl. auto.
Qed.

Lemma acfunLoop_positions (i : Z) (cs : list AcfunComment) :
  Forall (fun cm => Spec.enumerated (Position cm)) (acfunLoop fontSize i cs).
Proof.
  revert i. induction cs as [| c rest IH]; intros i; simpl; [constructor |].
  destruct (Spec.acfunEmits c) eqn:He.
  - destruct (acfunStep_fields i c He) as (cm & -> & _ & Hp & _).
    constructor; [exact Hp | apply IH].
  - rewrite (acfunStep_emits i c He). apply IH.
Qed.

Lemma acfunLoop_length (i : Z) (cs : list AcfunComment) :
  length (acfunLoop fontSize i cs) = length (List.filter Spec.acfunEmits cs).
Proof.
  revert i. induction cs as [| c rest IH]; intros i; simpl; [done |].
  destruct (Spec.acfunEmits c) eqn:He.
  - destruct (acfunStep_fields i c He) as (cm & -> & _). simpl. by rewrite IH.
  - rewrite (acfunStep_emits i c He). apply IH.
Qed.


End Acfun.

Section Niconico.

Variable fontSize : float64.

(** One command updates each attribute it names and no other. *)
Lemma niconicoCommand_tokens (st : NicoStyle) (t : string) :
  niconicoCommand fontSize st t
  = mkNicoStyle (default (nsPosition st) (Spec.positionToken t))
                (default (nsColor st) (Spec.colorToken t))
                (default (nsSize st) (Spec.sizeToken fontSize t)).
Proof.
  unfold niconicoCommand, Spec.positionToken, Spec.colorToken, Spec.sizeToken.
  destruct (String.eqb_spec t "ue") as [-> | Hue]; [reflexivity |].
  destruct (String.eqb_spec t "shita") as [-> | Hshita]; [reflexivity |].
  destruct (String.eqb_spec t "big") as [-> | Hbig]; [reflexivity |].
  destruct (String.eqb_spec t "small") as [-> | Hsmall]; [reflexivity |].
  destruct (String.length t =? 6)%nat; [| by destruct st].
  destruct (scanColor t); by destruct st.
Qed.

Lemma last_omap_snoc {A B : Type} (f : A -> option B) (l : list A) (x : A) (d : B) :
  List.last (omap f (l ++ [x])) d = default (List.last (omap f l) d) (f x).
Proof.
  rewrite omap_app. simpl. destruct (f x) as [y |]; simpl.
  - apply List.last_last.
  - by rewrite app_nil_r.
Qed.

Lemma niconicoCommands_lastWins (tokens : list string) :
  niconicoCommands fontSize tokens = Spec.lastWins fontSize tokens.
Proof.
  unfold niconicoCommands.
  induction tokens as [| t l IH] using rev_ind; [reflexivity |].
  rewrite fold_left_app. simpl. rewrite IH, niconicoCommand_tokens.
  unfold Spec.lastWins. simpl. by rewrite !last_omap_snoc.
Qed.

Lemma lastWins_position (tokens : list string) :
  let p := nsPosition (Spec.lastWins fontSize tokens) in p = 0 \/ p = 1 \/ p = 2.
Proof.
  simpl. induction tokens as [| t l IH] using rev_ind; [by left |].
  rewrite last_omap_snoc. unfold Spec.positionToken.
  destruct (String.eqb t "ue"); [auto |].
  destruct (String.eqb t "shita"); [auto |]. exact IH.
Qed.

Lemma parseNiconico_positions (cs : list NiconicoComment) :
  Forall (fun cm => Spec.enumerated (Position cm)) (map (niconicoStep fontSize) cs).
Proof.
  apply Forall_map, Forall_forall. intros c _. simpl.
  unfold niconicoStyle. rewrite niconicoCommands_lastWins.
  pose proof (lastWins_position (Strings.Split (Mail c) " ")) as H.
  simpl in H. unfold Spec.enumerated. tauto.
Qed.

End Niconico.

End LoopProofs.

(** ** The claims about the parsers *)

Module ParserClaims.

Import F64 Parser LoopProofs.
Local Open Scope string_scope.
Local Open Scope Z_scope.




(** C8. Every Comment that a parser emits has one of the positions 0, 1,
2, 3: in the Bilibili loop (whatever [fmt.Sscanf] returns, so for
[parseBilibili] too), in the Niconico parser and in the AcFun parser. A
Bilibili or AcFun record whose mode is not 1, 4, 5 or 6 produces no Comment:
the output has exactly one Comment per record that scans with a supported
mode. *)
Theorem emitted_position_is_enumerated
    (scanP : string -> option BilibiliFields)
    (convertFloat : list Z -> option float64) (fontSize : float64)
    (bdoc : result (list BilibiliComment))
    (ndoc : result (list NiconicoComment))
    (adoc : result (list AcfunComment)) :
  Forall (fun cm => Spec.enumerated (Position cm))
         (Spec.commentsOf (parseBilibiliWith scanP fontSize bdoc))
  /\ Forall (fun cm => Spec.enumerated (Position cm))
            (Spec.commentsOf (parseBilibili convertFloat bdoc fontSize))
  /\ Forall (fun cm => Spec.enumerated (Position cm))
            (Spec.commentsOf (parseNiconico ndoc fontSize))
  /\ Forall (fun cm => Spec.enumerated (Position cm))
            (Spec.commentsOf (parseAcfun adoc fontSize))
  /\ length (Spec.commentsOf (parseBilibiliWith scanP fontSize bdoc))
     = length (List.filter (Spec.bilibiliEmits scanP) (Spec.commentsOf bdoc))
  /\ length (Spec.commentsOf (parseAcfun adoc fontSize))
     = length (List.filter Spec.acfunEmits (Spec.commentsOf adoc)).
Proof.
  repeat split.
  - destruct bdoc; simpl; [apply bilibiliLoop_positions | constructor].
  - destruct bdoc; simpl; [apply bilibiliLoop_positions | constructor].
  - destruct ndoc; simpl; [apply parseNiconico_positions | constructor].
  - destruct adoc; simpl; [apply acfunLoop_positions | constructor].
  - destruct bdoc; simpl; [apply bilibiliLoop_length | done].
  - destruct adoc; simpl; [apply acfunLoop_length | done].
Qed.


End ParserClaims.

(** ** [sort.Slice] *)

Module SortProofs.

Import Sort SortSpec.
Local Open Scope nat_scope.

Section Swaps.

Context {A : Type}.
Variable lt : A -> A -> bool.

Lemma Less_lookup (d : list A) (i j : nat) (x y : A) :
  d !! i = Some x -> d !! j = Some y -> Less lt d i j = lt x y.
Proof. unfold Less. by intros -> ->. Qed.

Lemma Swap_length (d : list A) (i j : nat) : length (Swap d i j) = length d.
Proof.
  unfold Swap. destruct (d !! i), (d !! j); try done.
  by rewrite !length_insert.
Qed.

Lemma Swap_lookup (d : list A) (i j k : nat) :
  i < length d -> j < length d ->
  Swap d i j !! k = if decide (k = j) then d !! i
                    else if decide (k = i) then d !! j else d !! k.
Proof.
  intros Hi Hj. unfold Swap.
  destruct (lookup_lt_is_Some_2 d i Hi) as [x Hx].
  destruct (lookup_lt_is_Some_2 d j Hj) as [y Hy].
  rewrite Hx, Hy.
  destruct (decide (k = j)) as [-> | Hkj].
  - rewrite list_lookup_insert_eq; [done | by rewrite length_insert].
  - rewrite list_lookup_insert_ne by done.
    destruct (decide (k = i)) as [-> | Hki].
    + by rewrite list_lookup_insert_eq.
    + by rewrite list_lookup_insert_ne.
Qed.

Lemma Swap_same (d : list A) (i : nat) : Swap d i i = d.
Proof.
  unfold Swap. destruct (d !! i) as [x |] eqn:Hx; [| done].
  rewrite list_insert_insert_eq. by apply list_insert_id.
Qed.

Lemma Swap_perm_lt (d : list A) (i j : nat) :
  i < j -> j < length d -> Swap d i j ≡ₚ d.
Proof.
  intros Hij Hj. unfold Swap.
  destruct (lookup_lt_is_Some_2 d i ltac:(lia)) as [x Hx].
  destruct (lookup_lt_is_Some_2 d j Hj) as [y Hy].
  rewrite Hx, Hy.
  pose proof (take_drop_middle d i x Hx) as Hd.
  assert (drop (S i) d !! (j - S i) = Some y) as Hy'.
  { rewrite lookup_drop. by replace (S i + (j - S i)) with j by lia. }
  pose proof (take_drop_middle _ _ _ Hy') as Hd'.
  set (l1 := take i d) in *. set (l2 := take (j - S i) (drop (S i) d)) in *.
  set (l3 := drop (S (j - S i)) (drop (S i) d)) in *.
  assert (length l1 = i) as Hl1 by (subst l1; rewrite length_take; lia).
  assert (length l2 = j - S i) as Hl2.
  { subst l2. rewrite length_take, length_drop. lia. }
  rewrite <- Hd' in Hd. rewrite <- Hd.
  rewrite insert_app_r_alt by lia. rewrite Hl1, Nat.sub_diag. simpl.
  rewrite insert_app_r_alt by lia. rewrite Hl1.
  replace (j - i) with (S (j - S i)) by lia. simpl.
  rewrite insert_app_r_alt by lia. rewrite Hl2, Nat.sub_diag. simpl.
  apply Permutation_app_head.
  rewrite !(Permutation_middle l2). apply Permutation_app_head.
  apply perm_swap.
Qed.

Lemma Swap_sym (d : list A) (i j : nat) : Swap d i j = Swap d j i.
Proof.
  unfold Swap. destruct (d !! i) as [x |] eqn:Hx, (d !! j) as [y |] eqn:Hy; try done.
  destruct (decide (i = j)) as [-> | Hne]; [congruence |].
  by apply list_insert_insert_ne.
Qed.

Lemma Swap_perm (d : list A) (i j : nat) : Swap d i j ≡ₚ d.
Proof.
  destruct (decide (i < length d)) as [Hi |];
    [| unfold Swap; by rewrite (lookup_ge_None_2 d i) by lia].
  destruct (decide (j < length d)) as [Hj |];
    [| unfold Swap; rewrite (lookup_ge_None_2 d j) by lia; by destruct (d !! i)].
  destruct (Nat.lt_total i j) as [H | [-> | H]].
  - by apply Swap_perm_lt.
  - by rewrite Swap_same.
  - rewrite Swap_sym. by apply Swap_perm_lt.
Qed.

Lemma Swap_permSeg (d : list A) (a b i j : nat) :
  a <= i < b -> a <= j < b -> permSeg d (Swap d i j) a b.
Proof.
  intros Hi Hj. split; [symmetry; apply Swap_perm |].
  intros k Hk. unfold Swap.
  destruct (d !! i) as [x |] eqn:Hx, (d !! j) as [y |] eqn:Hy; try done.
  rewrite !list_lookup_insert_ne by lia. done.
Qed.

Lemma permSeg_refl (d : list A) (a b : nat) : permSeg d d a b.
Proof. split; [done | by intros i _]. Qed.

Lemma permSeg_trans (d1 d2 d3 : list A) (a b : nat) :
  permSeg d1 d2 a b -> permSeg d2 d3 a b -> permSeg d1 d3 a b.
Proof.
  intros [Hp1 Ho1] [Hp2 Ho2]. split; [by etrans |].
  intros i Hi. rewrite Ho2, Ho1; done.
Qed.

Lemma permSeg_weaken (d d' : list A) (a b a' b' : nat) :
  a' <= a -> b <= b' -> permSeg d d' a b -> permSeg d d' a' b'.
Proof.
  intros Ha Hb [Hp Ho]. split; [done |]. intros i Hi. apply Ho. lia.
Qed.

Lemma permSeg_length (d d' : list A) (a b : nat) :
  permSeg d d' a b -> length d' = length d.
Proof. intros [Hp _]. by rewrite Hp. Qed.

Lemma seg_lookup (d : list A) (a b k : nat) :
  k < b - a -> seg d a b !! k = d !! (a + k).
Proof. intros Hk. unfold seg. by rewrite lookup_take_lt, lookup_drop. Qed.

Lemma seg_elem (d : list A) (a b : nat) (x : A) :
  x ∈ seg d a b <-> exists k, a <= k < b /\ d !! k = Some x.
Proof.
  rewrite list_elem_of_lookup. split.
  - intros [k Hk]. assert (k < b - a) as Hlt.
    { apply lookup_lt_Some in Hk. unfold seg in Hk.
      rewrite length_take in Hk. lia. }
    rewrite seg_lookup in Hk by done. exists (a + k). split; [lia | done].
  - intros (k & Hk & Hx). exists (k - a). rewrite seg_lookup by lia.
    by replace (a + (k - a)) with k by lia.
Qed.

Lemma seg_split (d : list A) (a b : nat) :
  a <= b -> d = take a d ++ seg d a b ++ drop b d.
Proof.
  intros Hab. unfold seg.
  rewrite <- (take_drop a d) at 1. f_equal.
  rewrite <- (take_drop (b - a) (drop a d)) at 1. f_equal.
  rewrite drop_drop. f_equal. lia.
Qed.

Lemma permSeg_seg (d d' : list A) (a b : nat) :
  a <= b -> permSeg d d' a b -> seg d a b ≡ₚ seg d' a b.
Proof.
  intros Hab [Hp Ho].
  assert (take a d' = take a d) as Ht.
  { apply list_eq. intros i. destruct (decide (i < a)).
    - rewrite !lookup_take_lt by done. apply Ho. lia.
    - by rewrite !lookup_take_ge by lia. }
  assert (drop b d' = drop b d) as Hd.
  { apply list_eq. intros i. rewrite !lookup_drop. apply Ho. lia. }
  rewrite (seg_split d a b Hab) in Hp. rewrite (seg_split d' a b Hab) in Hp.
  rewrite Ht, Hd in Hp.
  apply Permutation_app_inv_l in Hp. by apply Permutation_app_inv_r in Hp.
Qed.

(** A property of all elements of a range survives a rearrangement of the
range, or of a part of it. *)
Lemma allSeg_permSeg (P : A -> Prop) (d d' : list A) (a b a' b' : nat) :
  a <= a' -> a' <= b' -> b' <= b ->
  permSeg d d' a' b' -> allSeg P d a b -> allSeg P d' a b.
Proof.
  intros Ha Hab Hb Hperm Hall k x Hk Hx.
  destruct (decide (a' <= k < b')) as [Hin | Hout].
  - assert (x ∈ seg d' a' b') as Hel by (apply seg_elem; eauto).
    rewrite <- (permSeg_seg d d' a' b' Hab Hperm) in Hel.
    apply seg_elem in Hel as (k' & Hk' & Hx'). apply (Hall k' x); [lia | done].
  - destruct Hperm as [_ Ho]. rewrite Ho in Hx by lia. by apply (Hall k x).
Qed.

(** A rearrangement of one range leaves the properties of a range that is
disjoint from it. *)
Lemma allSeg_outside (P : A -> Prop) (d d' : list A) (a b a' b' : nat) :
  b <= a' \/ b' <= a ->
  permSeg d d' a' b' -> allSeg P d a b -> allSeg P d' a b.
Proof.
  intros Hdis [_ Ho] Hall k x Hk Hx. rewrite Ho in Hx by lia. by apply (Hall k x).
Qed.

Lemma sortedSeg_outside (d d' : list A) (a b a' b' : nat) :
  b <= a' \/ b' <= a ->
  permSeg d d' a' b' -> sortedSeg lt d a b -> sortedSeg lt d' a b.
Proof.
  intros Hdis [_ Ho] Hs i j x y Hi Hij Hj Hx Hy.
  rewrite Ho in Hx by lia. rewrite Ho in Hy by lia. by apply (Hs i j x y).
Qed.

Lemma sortedSeg_sub (d : list A) (a b a' b' : nat) :
  a <= a' -> b' <= b -> sortedSeg lt d a b -> sortedSeg lt d a' b'.
Proof. intros Ha Hb Hs i j x y Hi Hij Hj. apply Hs; lia. Qed.

(** *** The steps of [pdqsort_func] that only rearrange *)

Lemma reverseLoop_permSeg (a b : nat) (fuel : nat) (d : list A) (i j : nat) :
  a <= i -> j < b -> permSeg d (reverseLoop fuel d i j) a b.
Proof.
  revert d i j. induction fuel as [| fuel IH]; intros d i j Hi Hj; simpl.
  - apply permSeg_refl.
  - destruct (Nat.ltb_spec i j) as [Hlt | _]; [| apply permSeg_refl].
    apply (permSeg_trans _ (Swap d i j)).
    + apply Swap_permSeg; lia.
    + apply IH; lia.
Qed.

Lemma reverseRange_permSeg (d : list A) (a b : nat) :
  a < b -> permSeg d (reverseRange_func d a b) a b.
Proof. intros Hab. apply reverseLoop_permSeg; lia. Qed.

Lemma nextPowerOfTwo_bound (length : nat) :
  0 < length ->
  (Z.of_nat length < nextPowerOfTwo length <= 2 * Z.of_nat length)%Z.
Proof.
  intros Hpos. unfold nextPowerOfTwo, bitsLen.
  destruct length as [| n]; [lia |].
  pose proof (Nat.log2_spec (S n) ltac:(lia)) as [Hlo Hhi].
  assert (Z.of_nat (2 ^ S (Nat.log2 (S n))) = 2 ^ Z.of_nat (S (Nat.log2 (S n))))%Z
    as <- by (by rewrite Nat2Z.inj_pow).
  change (2 ^ S (Nat.log2 (S n))) with (2 * 2 ^ Nat.log2 (S n)) in *.
  lia.
Qed.

Lemma breakStep_permSeg (a b idx : nat) (st : list A * Z) (i : nat) :
  8 <= b - a -> idx = a + (b - a) / 4 * 2 - 1 -> i <= 2 ->
  permSeg (fst st)
          (fst (breakStep a (b - a) idx (nextPowerOfTwo (b - a)) st i)) a b.
Proof.
  intros Hlen -> Hi. destruct st as [d random]. unfold breakStep. cbn [fst].
  set (m := nextPowerOfTwo (b - a)).
  set (r := xorshiftNext random).
  pose proof (nextPowerOfTwo_bound (b - a) ltac:(lia)) as Hm. fold m in Hm.
  assert (0 <= Z.land r (m - 1) < m)%Z as Hland.
  { unfold m, nextPowerOfTwo.
    replace (2 ^ Z.of_nat (bitsLen (b - a)) - 1)%Z
      with (Z.ones (Z.of_nat (bitsLen (b - a))))
      by (rewrite Z.ones_equiv; lia).
    rewrite Z.land_ones by lia. apply Z.mod_pos_bound. lia. }
  set (other := Z.to_nat (Z.land r (m - 1))) in *.
  assert (Z.of_nat other = Z.land r (m - 1)) as Hother by (unfold other; lia).
  pose proof (Nat.Div0.mul_div_le (b - a) 4) as Hdiv.
  assert (4 * 2 <= 4 * ((b - a) / 4)) as Hdiv2.
  { pose proof (Nat.Div0.div_le_mono 8 (b - a) 4 Hlen) as H.
    change (8 / 4) with 2 in H. lia. }
  apply Swap_permSeg; [lia |].
  destruct (Nat.leb_spec (b - a) other); lia.
Qed.

Lemma breakPatterns_permSeg (d : list A) (a b : nat) :
  permSeg d (breakPatterns_func d a b) a b.
Proof.
  unfold breakPatterns_func.
  destruct (Nat.leb_spec 8 (b - a)) as [Hlen | _]; [| apply permSeg_refl].
  cbn [fold_left].
  set (idx := a + (b - a) / 4 * 2 - 1). set (m := nextPowerOfTwo (b - a)).
  set (st0 := (d, Z.of_nat (b - a))).
  set (st1 := breakStep a (b - a) idx m st0 0).
  set (st2 := breakStep a (b - a) idx m st1 1).
  apply (permSeg_trans _ (fst st1));
    [apply (breakStep_permSeg a b idx st0 0); (lia || done) |].
  apply (permSeg_trans _ (fst st2));
    [apply (breakStep_permSeg a b idx st1 1); (lia || done) |].
  apply (breakStep_permSeg a b idx st2 2); (lia || done).
Qed.

Lemma order2_range (d : list A) (lo hi x y sw : nat) :
  lo <= x < hi -> lo <= y < hi ->
  let '(x', y', _) := order2_func lt d x y sw in lo <= x' < hi /\ lo <= y' < hi.
Proof. intros Hx Hy. unfold order2_func. by destruct (Less lt d y x). Qed.

Lemma median_range (d : list A) (lo hi x y z sw : nat) :
  lo <= x < hi -> lo <= y < hi -> lo <= z < hi ->
  lo <= fst (median_func lt d x y z sw) < hi.
Proof.
  intros Hx Hy Hz. unfold median_func.
  pose proof (order2_range d lo hi x y sw Hx Hy) as H1.
  destruct (order2_func lt d x y sw) as [[x1 y1] sw1]. destruct H1 as [Hx1 Hy1].
  pose proof (order2_range d lo hi y1 z sw1 Hy1 Hz) as H2.
  destruct (order2_func lt d y1 z sw1) as [[y2 z2] sw2]. destruct H2 as [Hy2 Hz2].
  pose proof (order2_range d lo hi x1 y2 sw2 Hx1 Hy2) as H3.
  destruct (order2_func lt d x1 y2 sw2) as [[x3 y3] sw3]. by destruct H3.
Qed.

(** The pivot that [choosePivot_func] picks lies in the range. *)
Lemma choosePivot_range (d : list A) (a b : nat) :
  8 <= b - a -> a <= fst (choosePivot_func lt d a b) < b.
Proof.
  intros Hlen. unfold choosePivot_func.
  pose proof (Nat.Div0.mul_div_le (b - a) 4) as Hdiv.
  assert (2 <= (b - a) / 4) as Hq.
  { pose proof (Nat.Div0.div_le_mono 8 (b - a) 4 Hlen) as H.
    by change (8 / 4) with 2 in H. }
  destruct (Nat.leb_spec 8 (b - a)) as [_ | ?]; [| lia].
  assert (forall (js : nat * nat),
             a <= fst js < b ->
             a <= fst (let '(j, swaps) := js in
                       if swaps =? 0 then (j, increasingHint)
                       else if swaps =? maxSwaps then (j, decreasingHint)
                       else (j, unknownHint)) < b) as Hfin.
  { intros [j sw] Hj. simpl in *.
    destruct (sw =? 0); [done |]. by destruct (sw =? maxSwaps). }
  apply Hfin.
  destruct (Nat.leb_spec shortestNinther (b - a)) as [Hbig | Hsmall].
  - unfold shortestNinther in Hbig.
    assert (12 <= (b - a) / 4) as Hq12.
    { pose proof (Nat.Div0.div_le_mono 48 (b - a) 4 ltac:(lia)) as H.
      by change (48 / 4) with 12 in H. }
    unfold medianAdjacent_func.
    pose proof (median_range d a b (a + (b - a) / 4 * 1 - 1)
                  (a + (b - a) / 4 * 1) (a + (b - a) / 4 * 1 + 1) 0
                  ltac:(lia) ltac:(lia) ltac:(lia)) as H1.
    destruct (median_func lt d _ _ _ 0) as [i1 sw1]. simpl in H1.
    pose proof (median_range d a b (a + (b - a) / 4 * 2 - 1)
                  (a + (b - a) / 4 * 2) (a + (b - a) / 4 * 2 + 1) sw1
                  ltac:(lia) ltac:(lia) ltac:(lia)) as H2.
    destruct (median_func lt d _ _ _ sw1) as [j1 sw2]. simpl in H2.
    pose proof (median_range d a b (a + (b - a) / 4 * 3 - 1)
                  (a + (b - a) / 4 * 3) (a + (b - a) / 4 * 3 + 1) sw2
                  ltac:(lia) ltac:(lia) ltac:(lia)) as H3.
    destruct (median_func lt d _ _ _ sw2) as [k1 sw3]. simpl in H3.
    by apply median_range.
  - apply median_range; lia.
Qed.

End Swaps.

End SortProofs.

Module OrderProofs.

Import Sort SortSpec SortProofs.
Local Open Scope nat_scope.

Section Correct.

Context {A : Type}.
Variable lt : A -> A -> bool.

(** The order is a strict weak order on the elements that satisfy [ok]
(for [float64] keys: on everything but NaN). *)
Variable ok : A -> Prop.
Hypothesis lt_irrefl : forall x, ok x -> lt x x = false.
Hypothesis lt_trans : forall x y z,
  ok x -> ok y -> ok z -> lt x y = true -> lt y z = true -> lt x z = true.
Hypothesis lt_negtrans : forall x y z,
  ok x -> ok y -> ok z -> lt x y = false -> lt y z = false -> lt x z = false.

Lemma lt_asym (x y : A) : ok x -> ok y -> lt x y = true -> lt y x = false.
Proof.
  intros Hx Hy Hxy. destruct (lt y x) eqn:Hyx; [| done].
  rewrite <- (lt_irrefl x Hx). symmetry. by apply (lt_trans x y x).
Qed.

Lemma ok_lookup (d : list A) (i : nat) (x : A) :
  Forall ok d -> d !! i = Some x -> ok x.
Proof. intros Hok Hx. by apply (Forall_lookup_1 ok d i x). Qed.

Lemma ok_permSeg (d d' : list A) (a b : nat) :
  permSeg d d' a b -> Forall ok d -> Forall ok d'.
Proof. intros [Hp _] Hok. by rewrite <- Hp. Qed.

(** One step of an insertion: exchanging the element at [S k] with a
greater one in front of it moves the exception one place down. *)
Lemma sortedExcept_swap (d : list A) (a b k : nat) :
  Forall ok d -> a <= k -> S k < b -> b <= length d ->
  Less lt d (S k) k = true ->
  sortedExcept lt d a b (S k) ->
  sortedExcept lt (Swap d (S k) k) a b k.
Proof.
  intros Hok Hak Hkb Hb Hless Hs i j x y Hi Hij Hj Hjk.
  rewrite !Swap_lookup by lia.
  destruct (lookup_lt_is_Some_2 d k ltac:(lia)) as [u Hu].
  destruct (lookup_lt_is_Some_2 d (S k) ltac:(lia)) as [v Hv].
  rewrite (Less_lookup lt d (S k) k v u Hv Hu) in Hless.
  pose proof (ok_lookup d k u Hok Hu) as Hoku.
  pose proof (ok_lookup d (S k) v Hok Hv) as Hokv.
  destruct (decide (j = k)) as [? | _]; [lia |].
  destruct (decide (j = S k)) as [-> | Hj1].
  - destruct (decide (i = k)) as [-> | Hi1].
    + intros Hx Hy. replace x with v by congruence.
      replace y with u by congruence. by apply lt_asym.
    + destruct (decide (i = S k)); [lia |].
      intros Hx Hy. apply (Hs i k x y); (lia || done).
  - destruct (decide (i = k)) as [-> | Hi1].
    + intros Hx Hy. apply (Hs (S k) j x y); (lia || done).
    + destruct (decide (i = S k)) as [-> | Hi2].
      * intros Hx Hy. apply (Hs k j x y); (lia || done).
      * intros Hx Hy. apply (Hs i j x y); (lia || done).
Qed.

(** Where the insertion stops, the range is sorted. *)
Lemma sortedExcept_stop (d : list A) (a b k : nat) :
  Forall ok d -> k < b -> b <= length d ->
  (k <= a \/ exists k', k = S k' /\ Less lt d k k' = false) ->
  sortedExcept lt d a b k -> sortedSeg lt d a b.
Proof.
  intros Hok Hkb Hb Hstop Hs i j x y Hi Hij Hj Hx Hy.
  destruct (decide (j = k)) as [-> | Hne]; [| by apply (Hs i j x y)].
  destruct Hstop as [Hle | (k' & -> & Hless)]; [lia |].
  destruct (lookup_lt_is_Some_2 d k' ltac:(lia)) as [u Hu].
  rewrite (Less_lookup lt d (S k') k' y u Hy Hu) in Hless.
  destruct (decide (i = k')) as [-> | Hik]; [by simplify_eq |].
  apply (lt_negtrans y u x); eauto using ok_lookup.
  apply (Hs i k' x u); (lia || done).
Qed.

Lemma insertDown_spec (a b : nat) (k : nat) (d : list A) :
  Forall ok d -> a <= k -> k < b -> b <= length d ->
  sortedExcept lt d a b k ->
  permSeg d (insertDown lt d a k) a b /\ sortedSeg lt (insertDown lt d a k) a b.
Proof.
  revert d. induction k as [| k IH]; intros d Hok Hak Hkb Hb Hs; simpl.
  - split; [apply permSeg_refl |].
    apply (sortedExcept_stop d a b 0); auto with lia.
  - destruct (Nat.ltb_spec a (S k)) as [Hlt | Hge]; simpl.
    + destruct (Less lt d (S k) k) eqn:Hless.
      * assert (permSeg d (Swap d (S k) k) a b) as Hsw
          by (apply Swap_permSeg; lia).
        destruct (IH (Swap d (S k) k)) as [Hp Hsorted].
        -- by apply (ok_permSeg d _ a b).
        -- lia.
        -- lia.
        -- by rewrite Swap_length.
        -- apply sortedExcept_swap; (lia || done).
        -- split; [by apply (permSeg_trans _ (Swap d (S k) k)) | done].
      * split; [apply permSeg_refl |].
        apply (sortedExcept_stop d a b (S k)); eauto with lia.
    + split; [apply permSeg_refl |].
      apply (sortedExcept_stop d a b (S k)); auto with lia.
Qed.

Lemma sortedSeg_except (d : list A) (a i : nat) :
  sortedSeg lt d a i -> sortedExcept lt d a (S i) i.
Proof. intros Hs j j' x y Hj Hjj' Hj' Hne. apply Hs; lia. Qed.

Lemma insertionLoop_spec (a : nat) (n : nat) (i : nat) (d : list A) :
  Forall ok d -> a <= i -> i + n <= length d ->
  sortedSeg lt d a i ->
  permSeg d (insertionLoop lt d a i n) a (i + n)
  /\ sortedSeg lt (insertionLoop lt d a i n) a (i + n).
Proof.
  revert i d. induction n as [| n IH]; intros i d Hok Hai Hlen Hs; simpl.
  - rewrite Nat.add_0_r. split; [apply permSeg_refl | done].
  - destruct (insertDown_spec a (S i) i d) as [Hp1 Hs1];
      [done | lia | lia | lia | by apply sortedSeg_except |].
    destruct (IH (S i) (insertDown lt d a i)) as [Hp2 Hs2].
    + by apply (ok_permSeg d _ a (S i)).
    + lia.
    + rewrite (permSeg_length _ _ _ _ Hp1). lia.
    + done.
    + replace (i + S n) with (S i + n) by lia. split; [| done].
      apply (permSeg_trans _ (insertDown lt d a i)); [| done].
      apply (permSeg_weaken _ _ a (S i)); (lia || done).
Qed.

(** [insertionSort_func] sorts the range it is given and touches nothing
else. *)
Lemma insertionSort_spec (d : list A) (a b : nat) :
  Forall ok d -> b <= length d ->
  permSeg d (insertionSort_func lt d a b) a b
  /\ sortedSeg lt (insertionSort_func lt d a b) a b.
Proof.
  intros Hok Hb. unfold insertionSort_func.
  destruct (decide (a + 1 <= b)) as [Hab | Hab].
  - destruct (insertionLoop_spec a (b - (a + 1)) (a + 1) d) as [Hp Hs];
      [done | lia | lia | |].
    + intros i j x y Hi Hij Hj. lia.
    + replace (a + 1 + (b - (a + 1))) with b in * by lia. done.
  - replace (b - (a + 1)) with 0 by lia. simpl.
    split; [apply permSeg_refl |]. intros i j x y Hi Hij Hj. lia.
Qed.

(** *** The scans of the partition loops *)

Lemma scanUp_spec (P : nat -> bool) (fuel i j : nat) :
  i <= j + 1 -> S j - i <= fuel ->
  let i' := scanUp P fuel i j in
  i <= i' <= j + 1
  /\ (forall k, i <= k < i' -> P k = true)
  /\ (i' <= j -> P i' = false).
Proof.
  revert i. induction fuel as [| fuel IH]; intros i Hij Hfuel; simpl.
  - repeat split; (lia || intros; lia).
  - destruct (Nat.leb_spec i j) as [Hle | Hgt]; simpl.
    + destruct (P i) eqn:HP.
      * destruct (IH (S i)) as (Hb & Hall & Hstop); [lia | lia |].
        repeat split; [lia | lia | | done].
        intros k Hk. destruct (decide (k = i)) as [-> | ?]; [done |].
        apply Hall. lia.
      * repeat split; (lia || intros; (lia || done)).
    + repeat split; (lia || intros; lia).
Qed.

Lemma scanDown_spec (P : nat -> bool) (i j : nat) :
  1 <= i -> i <= j + 1 ->
  let j' := scanDown P i j in
  i <= j' + 1 /\ j' <= j
  /\ (forall k, j' < k <= j -> P k = true)
  /\ (i <= j' -> P j' = false).
Proof.
  intros Hi. induction j as [| j IH]; intros Hij; simpl.
  - repeat split; (lia || intros; lia).
  - destruct (Nat.leb_spec i (S j)) as [Hle | Hgt]; simpl.
    + destruct (P (S j)) eqn:HP.
      * destruct IH as (Hb1 & Hb2 & Hall & Hstop); [lia |].
        repeat split; [lia | lia | | done].
        intros k Hk. destruct (decide (k = S j)) as [-> | ?]; [done |].
        apply Hall. lia.
      * repeat split; (lia || intros; (lia || done)).
    + repeat split; (lia || intros; lia).
Qed.

(** Exchanging a misplaced pair extends both sides of a partition. *)
Lemma allSeg_swap_left (P : A -> Prop) (d : list A) (lo i j : nat) (y : A) :
  i < j -> j < length d -> d !! j = Some y -> P y ->
  allSeg P d lo i -> allSeg P (Swap d i j) lo (S i).
Proof.
  intros Hij Hj Hy HP Hall k x Hk. rewrite Swap_lookup by lia.
  destruct (decide (k = j)); [lia |].
  destruct (decide (k = i)) as [-> | ?]; [congruence |].
  apply Hall. lia.
Qed.

Lemma allSeg_swap_right (P : A -> Prop) (d : list A) (hi i j : nat) (x : A) :
  i < j -> j < length d -> d !! i = Some x -> P x ->
  allSeg P d (S j) hi -> allSeg P (Swap d i j) j hi.
Proof.
  intros Hij Hj Hx HP Hall k z Hk. rewrite Swap_lookup by lia.
  destruct (decide (k = j)) as [-> | ?]; [congruence |].
  destruct (decide (k = i)); [lia |].
  apply Hall. lia.
Qed.

Lemma allSeg_extend (P : A -> Prop) (d : list A) (a m b : nat) :
  allSeg P d a m ->
  (forall k x, m <= k < b -> d !! k = Some x -> P x) ->
  allSeg P d a b.
Proof.
  intros H1 H2 k x Hk Hx. destruct (decide (k < m)).
  - apply (H1 k x); (lia || done).
  - apply (H2 k x); (lia || done).
Qed.

(** One round of a partition loop: both scans. The test [t] tells which
elements belong to the left part; [Pu] and [Pd] are the conditions of the
two scans on the indices. *)
Lemma round_spec (t : A -> bool) (d : list A) (a b i j : nat)
    (Pu Pd : nat -> bool) :
  b <= length d -> a < i -> i <= j + 1 -> j < b ->
  (forall k x, a < k < b -> d !! k = Some x ->
               Pu k = t x /\ Pd k = negb (t x)) ->
  allSeg (fun x => t x = true) d (a + 1) i ->
  allSeg (fun x => t x = false) d (j + 1) b ->
  let i' := scanUp Pu (S j - i) i j in
  let j' := scanDown Pd i' j in
  i <= i' /\ j' <= j /\ i' <= j' + 1
  /\ allSeg (fun x => t x = true) d (a + 1) i'
  /\ allSeg (fun x => t x = false) d (j' + 1) b
  /\ (j' < i'
      \/ (i' < j' /\ exists x y, d !! i' = Some x /\ d !! j' = Some y
                                 /\ t x = false /\ t y = true)).
Proof.
  intros Hb Hai Hij Hjb Htest HL HR i' j'.
  destruct (scanUp_spec Pu (S j - i) i j) as (Hi' & Hup & Hupstop); [lia | lia |].
  fold i' in Hi', Hup, Hupstop.
  destruct (scanDown_spec Pd i' j) as (Hj'1 & Hj'2 & Hdown & Hdownstop);
    [lia | lia |].
  fold j' in Hj'1, Hj'2, Hdown, Hdownstop.
  assert (allSeg (fun x => t x = true) d (a + 1) i') as HL'.
  { apply (allSeg_extend _ d (a + 1) i i'); [done |].
    intros k x Hk Hx. destruct (Htest k x) as [<- _]; [lia | done |].
    apply Hup. lia. }
  assert (allSeg (fun x => t x = false) d (j' + 1) b) as HR'.
  { intros k x Hk Hx. destruct (decide (j < k)) as [Hgt | Hle].
    - apply (HR k x); (lia || done).
    - destruct (Htest k x) as [_ Hd]; [lia | done |].
      rewrite Hdown in Hd by lia. by destruct (t x). }
  repeat split; try (lia || done).
  destruct (decide (j' < i')) as [Hlt | Hge]; [by left | right].
  destruct (lookup_lt_is_Some_2 d i' ltac:(lia)) as [x Hx].
  destruct (lookup_lt_is_Some_2 d j' ltac:(lia)) as [y Hy].
  destruct (Htest i' x) as [Hux _]; [lia | done |].
  destruct (Htest j' y) as [_ Hdy]; [lia | done |].
  rewrite Hupstop in Hux by lia. rewrite Hdownstop in Hdy by lia.
  assert (t x = false) as Htx by done.
  assert (t y = true) as Hty by (by destruct (t y)).
  split; [| by exists x, y].
  destruct (decide (i' = j')) as [E | ?]; [| lia].
  rewrite E in Hx. congruence.
Qed.

Lemma partition_tests (p : A) (d : list A) (a b : nat) :
  b <= length d -> d !! a = Some p ->
  forall k x, a < k < b -> d !! k = Some x ->
    Less lt d k a = lt x p /\ negb (Less lt d k a) = negb (lt x p).
Proof.
  intros Hb Hp k x Hk Hx. by rewrite (Less_lookup lt d k a x p Hx Hp).
Qed.

Lemma partitionLoop_spec (p : A) (a b : nat) (fuel : nat) (d : list A) (i j : nat) :
  b <= length d -> d !! a = Some p -> a < i -> i <= j + 1 -> j < b ->
  j + 1 - i <= fuel ->
  allSeg (fun x => lt x p = true) d (a + 1) i ->
  allSeg (fun x => lt x p = false) d (j + 1) b ->
  exists d' j',
    partitionLoop lt fuel d a i j = (d', j')
    /\ permSeg d d' (a + 1) b /\ a <= j' /\ j' < b
    /\ allSeg (fun x => lt x p = true) d' (a + 1) (j' + 1)
    /\ allSeg (fun x => lt x p = false) d' (j' + 1) b.
Proof.
  revert d i j. induction fuel as [| fuel IH];
    intros d i j Hb Hp Hai Hij Hjb Hfuel HL HR.
  - exists d, j. simpl. assert (j + 1 = i) as E by lia. rewrite E in *.
    split; [done |]. split; [apply permSeg_refl |]. by repeat split; try lia.
  - simpl.
    destruct (round_spec (fun x => lt x p) d a b i j
                (fun i => Less lt d i a) (fun j => negb (Less lt d j a)))
      as (Hi' & Hj' & Hij' & HL' & HR' & Hcase);
      [done | done | done | done | by apply partition_tests | done | done |].
    set (i' := scanUp _ _ i j) in *. set (j' := scanDown _ i' j) in *.
    destruct Hcase as [Hlt | (Hlt & x & y & Hx & Hy & Htx & Hty)].
    + destruct (Nat.ltb_spec j' i') as [_ | ?]; [| lia].
      exists d, j'. assert (j' + 1 = i') as E by lia. rewrite E in *.
      split; [done |]. split; [apply permSeg_refl |]. by repeat split; try lia.
    + destruct (Nat.ltb_spec j' i') as [? | _]; [lia |].
      assert (permSeg d (Swap d i' j') (a + 1) b) as Hsw
        by (apply Swap_permSeg; lia).
      destruct (IH (Swap d i' j') (S i') (j' - 1)) as (d' & j2 & -> & Hp2 & Hrest).
      * by rewrite Swap_length.
      * destruct Hsw as [_ Ho]. rewrite Ho by lia. done.
      * lia.
      * lia.
      * lia.
      * lia.
      * apply (allSeg_swap_left _ d (a + 1) i' j' y); (lia || done).
      * replace (j' - 1 + 1) with j' by lia.
        apply (allSeg_swap_right _ d b i' j' x); try (lia || done).
        by replace (S j') with (j' + 1) by lia.
      * exists d', j2. split; [done |]. split; [| done].
        by apply (permSeg_trans _ (Swap d i' j')).
Qed.

(** The last exchange of [partition_func] puts the pivot between the two
parts. *)
Lemma partition_finish (p : A) (d : list A) (a b j : nat) :
  b <= length d -> d !! a = Some p -> a <= j < b ->
  allSeg (fun x => lt x p = true) d (a + 1) (j + 1) ->
  allSeg (fun x => lt x p = false) d (j + 1) b ->
  permSeg d (Swap d j a) a b
  /\ Swap d j a !! j = Some p
  /\ allSeg (fun x => lt x p = true) (Swap d j a) a j
  /\ allSeg (fun x => lt x p = false) (Swap d j a) (j + 1) b.
Proof.
  intros Hb Hp Hj HL HR.
  split; [apply Swap_permSeg; lia |].
  split; [| split].
  - rewrite Swap_lookup by lia.
    destruct (decide (j = a)) as [-> | ?]; [done |].
    by rewrite decide_True by done.
  - intros k x Hk. rewrite Swap_lookup by lia.
    destruct (decide (k = a)) as [-> | ?].
    + intros Hx. apply (HL j x); (lia || done).
    + destruct (decide (k = j)); [lia |].
      intros Hx. apply (HL k x); (lia || done).
  - intros k x Hk. rewrite Swap_lookup by lia.
    destruct (decide (k = a)); [lia |]. destruct (decide (k = j)); [lia |].
    intros Hx. apply (HR k x); (lia || done).
Qed.

(** [partition_func]: the pivot ends at [mid], the smaller elements in
front of it, the others behind it. *)
Lemma partition_spec (d : list A) (a b pivot : nat) (p : A) :
  a <= pivot < b -> b <= length d -> d !! pivot = Some p ->
  exists d' mid already,
    partition_func lt d a b pivot = (d', mid, already)
    /\ permSeg d d' a b /\ a <= mid < b /\ d' !! mid = Some p
    /\ allSeg (fun x => lt x p = true) d' a mid
    /\ allSeg (fun x => lt x p = false) d' (mid + 1) b.
Proof.
  intros Hpiv Hb Hp. unfold partition_func.
  set (d0 := Swap d a pivot).
  assert (permSeg d d0 a b) as Hp0 by (apply Swap_permSeg; lia).
  assert (length d0 = length d) as Hlen0 by apply Swap_length.
  assert (d0 !! a = Some p) as Hpa.
  { unfold d0. rewrite Swap_lookup by lia.
    destruct (decide (a = pivot)) as [-> | ?]; [done |].
    by rewrite decide_True by done. }
  destruct (round_spec (fun x => lt x p) d0 a b (a + 1) (b - 1)
              (fun i => Less lt d0 i a) (fun j => negb (Less lt d0 j a)))
    as (Hi' & Hj' & Hij' & HL' & HR' & Hcase);
    [lia | lia | lia | lia | apply partition_tests; (lia || done) | | |].
  { intros k x Hk. lia. }
  { intros k x Hk. lia. }
  set (i' := scanUp _ _ (a + 1) (b - 1)) in *.
  set (j' := scanDown _ i' (b - 1)) in *.
  destruct Hcase as [Hlt | (Hlt & x & y & Hx & Hy & Htx & Hty)].
  - destruct (Nat.ltb_spec j' i') as [_ | ?]; [| lia].
    assert (j' + 1 = i') as E by lia. rewrite <- E in HL'.
    destruct (partition_finish p d0 a b j') as (Hf1 & Hf2 & Hf3 & Hf4);
      [lia | done | lia | done | done |].
    exists (Swap d0 j' a), j', true. split; [done |].
    split; [by apply (permSeg_trans _ d0) |]. split; [lia |]. done.
  - destruct (Nat.ltb_spec j' i') as [? | _]; [lia |].
    assert (permSeg d0 (Swap d0 i' j') (a + 1) b) as Hsw
      by (apply Swap_permSeg; lia).
    destruct (partitionLoop_spec p a b (b - a) (Swap d0 i' j') (S i') (j' - 1))
      as (d2 & j2 & -> & Hp2 & Hj2a & Hj2b & HL2 & HR2).
    + rewrite Swap_length. lia.
    + destruct Hsw as [_ Ho]. rewrite Ho by lia. done.
    + lia.
    + lia.
    + lia.
    + lia.
    + apply (allSeg_swap_left _ d0 (a + 1) i' j' y); (lia || done).
    + replace (j' - 1 + 1) with j' by lia.
      apply (allSeg_swap_right _ d0 b i' j' x); try (lia || done).
      by replace (S j') with (j' + 1) by lia.
    + assert (permSeg d0 d2 (a + 1) b) as Hp02
        by (by apply (permSeg_trans _ (Swap d0 i' j'))).
      destruct (partition_finish p d2 a b j2) as (Hf1 & Hf2 & Hf3 & Hf4).
      * rewrite (permSeg_length _ _ _ _ Hp02). lia.
      * destruct Hp02 as [_ Ho]. rewrite Ho by lia. done.
      * lia.
      * done.
      * done.
      * exists (Swap d2 j2 a), j2, false. split; [done |].
        split; [| split; [lia | done]].
        apply (permSeg_trans _ d0); [done |].
        apply (permSeg_trans _ d2); [| done].
        apply (permSeg_weaken _ _ (a + 1) b); (lia || done).
Qed.

Lemma partitionEqual_tests (p : A) (d : list A) (a b : nat) :
  b <= length d -> d !! a = Some p ->
  forall k x, a < k < b -> d !! k = Some x ->
    negb (Less lt d a k) = negb (lt p x)
    /\ Less lt d a k = negb (negb (lt p x)).
Proof.
  intros Hb Hp k x Hk Hx. rewrite (Less_lookup lt d a k p x Hp Hx).
  by rewrite negb_involutive.
Qed.

Lemma partitionEqualLoop_spec (p : A) (a b : nat) (fuel : nat) (d : list A)
    (i j : nat) :
  b <= length d -> d !! a = Some p -> a < i -> i <= j + 1 -> j < b ->
  j + 1 - i <= fuel ->
  allSeg (fun x => negb (lt p x) = true) d (a + 1) i ->
  allSeg (fun x => negb (lt p x) = false) d (j + 1) b ->
  exists d' mid,
    partitionEqualLoop lt fuel d a i j = (d', mid)
    /\ permSeg d d' (a + 1) b /\ a < mid /\ mid <= b
    /\ allSeg (fun x => negb (lt p x) = true) d' (a + 1) mid
    /\ allSeg (fun x => negb (lt p x) = false) d' mid b.
Proof.
  revert d i j. induction fuel as [| fuel IH];
    intros d i j Hb Hp Hai Hij Hjb Hfuel HL HR.
  - exists d, i. simpl. assert (j + 1 = i) as E by lia. rewrite E in *.
    split; [done |]. split; [apply permSeg_refl |]. by repeat split; try lia.
  - simpl.
    destruct (round_spec (fun x => negb (lt p x)) d a b i j
                (fun i => negb (Less lt d a i)) (fun j => Less lt d a j))
      as (Hi' & Hj' & Hij' & HL' & HR' & Hcase);
      [done | done | done | done | by apply partitionEqual_tests | done | done |].
    set (i' := scanUp _ _ i j) in *. set (j' := scanDown _ i' j) in *.
    destruct Hcase as [Hlt | (Hlt & x & y & Hx & Hy & Htx & Hty)].
    + destruct (Nat.ltb_spec j' i') as [_ | ?]; [| lia].
      exists d, i'. assert (j' + 1 = i') as E by lia. rewrite E in *.
      split; [done |]. split; [apply permSeg_refl |]. by repeat split; try lia.
    + destruct (Nat.ltb_spec j' i') as [? | _]; [lia |].
      assert (permSeg d (Swap d i' j') (a + 1) b) as Hsw
        by (apply Swap_permSeg; lia).
      destruct (IH (Swap d i' j') (S i') (j' - 1)) as (d' & m & -> & Hp2 & Hrest).
      * by rewrite Swap_length.
      * destruct Hsw as [_ Ho]. rewrite Ho by lia. done.
      * lia.
      * lia.
      * lia.
      * lia.
      * apply (allSeg_swap_left _ d (a + 1) i' j' y); (lia || done).
      * replace (j' - 1 + 1) with j' by lia.
        apply (allSeg_swap_right _ d b i' j' x); try (lia || done).
        by replace (S j') with (j' + 1) by lia.
      * exists d', m. split; [done |]. split; [| done].
        by apply (permSeg_trans _ (Swap d i' j')).
Qed.

(** [partitionEqual_func]: the elements not greater than the pivot come
first, at least the pivot itself; the greater ones follow from [mid] on. *)
Lemma partitionEqual_spec (d : list A) (a b pivot : nat) (p : A) :
  ok p -> a <= pivot < b -> b <= length d -> d !! pivot = Some p ->
  exists d' mid,
    partitionEqual_func lt d a b pivot = (d', mid)
    /\ permSeg d d' a b /\ a < mid /\ mid <= b
    /\ allSeg (fun x => lt p x = false) d' a mid
    /\ allSeg (fun x => lt p x = true) d' mid b.
Proof.
  intros Hokp Hpiv Hb Hp. unfold partitionEqual_func.
  set (d0 := Swap d a pivot).
  assert (permSeg d d0 a b) as Hp0 by (apply Swap_permSeg; lia).
  assert (length d0 = length d) as Hlen0 by apply Swap_length.
  assert (d0 !! a = Some p) as Hpa.
  { unfold d0. rewrite Swap_lookup by lia.
    destruct (decide (a = pivot)) as [-> | ?]; [done |].
    by rewrite decide_True by done. }
  destruct (partitionEqualLoop_spec p a b (b - a) d0 (a + 1) (b - 1))
    as (d' & mid & -> & Hp1 & Hm1 & Hm2 & HL & HR);
    [lia | done | lia | lia | lia | lia | | |].
  { intros k x Hk. lia. }
  { intros k x Hk. lia. }
  exists d', mid. split; [done |].
  split.
  { apply (permSeg_trans _ d0); [done |].
    apply (permSeg_weaken _ _ (a + 1) b); (lia || done). }
  split; [done |]. split; [done |]. split.
  - intros k x Hk Hx. destruct (decide (k = a)) as [-> | ?].
    + destruct Hp1 as [_ Ho]. rewrite Ho in Hx by lia.
      replace x with p by congruence. by apply lt_irrefl.
    + specialize (HL k x ltac:(lia) Hx). simpl in HL. by destruct (lt p x).
  - intros k x Hk Hx. specialize (HR k x Hk Hx). simpl in HR.
    by destruct (lt p x).
Qed.

(** *** [partialInsertionSort_func] *)

Lemma lowerBound_permSeg (d d' : list A) (a b a' b' : nat) :
  a <= a' -> a' <= b' -> b' <= b ->
  permSeg d d' a' b' -> lowerBound lt d a b -> lowerBound lt d' a b.
Proof.
  intros Ha Hab Hb Hperm Hlow q Hpos Hq.
  assert (d !! (a - 1) = Some q) as Hq'.
  { destruct Hperm as [_ Ho]. rewrite <- Ho; [done | lia]. }
  apply (allSeg_permSeg _ d d' a b a' b'); [done | done | done | done |].
  by apply Hlow.
Qed.

Lemma lowerBound_sub (d : list A) (a b b' : nat) :
  b' <= b -> lowerBound lt d a b -> lowerBound lt d a b'.
Proof.
  intros Hb Hlow q Hpos Hq k x Hk. apply (Hlow q Hpos Hq). lia.
Qed.

(** In a range with [lowerBound], the loop that shifts down to index 1 stops
where the insertion into the range stops. *)
Lemma shiftLeft_insertDown (a b : nat) (j : nat) (d : list A) :
  a <= j -> j < b -> b <= length d -> lowerBound lt d a b ->
  shiftLeft lt d j = insertDown lt d a j.
Proof.
  revert d. induction j as [| j IH]; intros d Haj Hjb Hb Hlow; simpl; [done |].
  destruct (Nat.ltb_spec a (S j)) as [Hlt | Hge]; simpl.
  - destruct (Less lt d (S j) j) eqn:Hless; simpl; [| done].
    apply IH; [lia | lia | by rewrite Swap_length |].
    apply (lowerBound_permSeg d _ a b a b); try lia; [| done].
    apply Swap_permSeg; lia.
  - assert (a = S j) as -> by lia.
    destruct (lookup_lt_is_Some_2 d j ltac:(lia)) as [q Hq].
    destruct (lookup_lt_is_Some_2 d (S j) ltac:(lia)) as [x Hx].
    rewrite (Less_lookup lt d (S j) j x q Hx Hq).
    rewrite (Hlow q ltac:(lia)
               ltac:(by replace (S j - 1) with j by lia) (S j) x ltac:(lia) Hx).
    done.
Qed.

Lemma insertDown_same (d : list A) (a : nat) : insertDown lt d a a = d.
Proof.
  destruct a as [| a]; simpl; [done |].
  by destruct (Nat.ltb_spec (S a) (S a)) as [? | _]; [lia |].
Qed.

Lemma shiftRight_permSeg (lo b : nat) (n : nat) (j : nat) (d : list A) :
  lo < j -> j + n <= b -> permSeg d (shiftRight lt d j n) lo b.
Proof.
  revert j d. induction n as [| n IH]; intros j d Hlo Hb; simpl;
    [apply permSeg_refl |].
  destruct (Less lt d j (j - 1)); simpl; [| apply permSeg_refl].
  apply (permSeg_trans _ (Swap d j (j - 1))).
  - apply Swap_permSeg; lia.
  - apply IH; lia.
Qed.

Lemma scanTo_spec (P : nat -> bool) (fuel i b : nat) :
  i <= b -> b - i <= fuel ->
  let i' := scanTo P fuel i b in
  i <= i' <= b
  /\ (forall k, i <= k < i' -> P k = true)
  /\ (i' < b -> P i' = false).
Proof.
  revert i. induction fuel as [| fuel IH]; intros i Hib Hfuel; simpl.
  - repeat split; (lia || intros; lia).
  - destruct (Nat.ltb_spec i b) as [Hlt | Hge]; simpl.
    + destruct (P i) eqn:HP.
      * destruct (IH (S i)) as (Hb & Hall & Hstop); [lia | lia |].
        repeat split; [lia | lia | | done].
        intros k Hk. destruct (decide (k = i)) as [-> | ?]; [done |].
        apply Hall. lia.
      * repeat split; (lia || intros; (lia || done)).
    + repeat split; (lia || intros; lia).
Qed.

(** A sorted range grows over every index whose element is not less than
the one before. *)
Lemma sortedSeg_extend (d : list A) (a i : nat) (n : nat) :
  Forall ok d -> a < i -> i + n <= length d ->
  sortedSeg lt d a i ->
  (forall k, i <= k < i + n -> Less lt d k (k - 1) = false) ->
  sortedSeg lt d a (i + n).
Proof.
  intros Hok Hai. induction n as [| n IH]; intros Hlen Hs Hadj.
  - by rewrite Nat.add_0_r.
  - replace (i + S n) with (S (i + n)) by lia.
    apply (sortedExcept_stop d a (S (i + n)) (i + n)); [done | lia | lia | |].
    + right. exists (i + n - 1). split; [lia |].
      replace (i + n) with (S (i + n - 1)) at 1 by lia.
      replace (S (i + n - 1)) with (i + n) by lia. apply Hadj. lia.
    + apply sortedSeg_except. apply IH; [lia | done |].
      intros k Hk. apply Hadj. lia.
Qed.

Lemma partialLoop_spec (a b : nat) (steps : nat) (d : list A) (i : nat) :
  Forall ok d -> a < i -> i <= b -> b <= length d ->
  lowerBound lt d a b -> sortedSeg lt d a i ->
  permSeg d (fst (partialLoop lt steps d a b i)) a b
  /\ (snd (partialLoop lt steps d a b i) = true ->
      sortedSeg lt (fst (partialLoop lt steps d a b i)) a b).
Proof.
  revert d i. induction steps as [| steps IH];
    intros d i Hok Hai Hib Hb Hlow Hs; simpl.
  - split; [apply permSeg_refl | done].
  - destruct (scanTo_spec (fun i => negb (Less lt d i (i - 1))) (b - i) i b)
      as (Hi' & Hscan & Hstop); [lia | lia |].
    set (i' := scanTo _ _ i b) in *.
    assert (sortedSeg lt d a i') as Hs'.
    { replace i' with (i + (i' - i)) by lia.
      apply sortedSeg_extend; [done | lia | lia | done |].
      intros k Hk. specialize (Hscan k ltac:(lia)). simpl in Hscan.
      by destruct (Less lt d k (k - 1)). }
    destruct (Nat.eqb_spec i' b) as [E | Hne]; simpl.
    { split; [apply permSeg_refl |]. intros _. by rewrite <- E. }
    destruct (Nat.ltb_spec (b - a) shortestShifting) as [_ | Hlong]; simpl.
    { split; [apply permSeg_refl | done]. }
    set (d1 := Swap d i' (i' - 1)).
    assert (permSeg d d1 a b) as Hp1 by (apply Swap_permSeg; lia).
    assert (length d1 = length d) as Hlen1 by apply Swap_length.
    assert (Forall ok d1) as Hok1 by (by apply (ok_permSeg d d1 a b)).
    assert (lowerBound lt d1 a b) as Hlow1
      by (apply (lowerBound_permSeg d d1 a b a b); (lia || done)).
    set (d2 := if 2 <=? i' - a then shiftLeft lt d1 (i' - 1) else d1).
    assert (d2 = insertDown lt d1 a (i' - 1)) as Hd2.
    { unfold d2. destruct (Nat.leb_spec 2 (i' - a)) as [Hge | Hlt].
      - apply (shiftLeft_insertDown a b); (lia || done).
      - replace (i' - 1) with a by lia. by rewrite insertDown_same. }
    destruct (insertDown_spec a i' (i' - 1) d1) as [Hp2 Hs2];
      [done | lia | lia | lia | |].
    { intros j j' x y Hj Hjj' Hj' Hne'. unfold d1.
      rewrite !Swap_lookup by lia.
      destruct (decide (j' = i' - 1)); [lia |].
      destruct (decide (j' = i')); [lia |].
      destruct (decide (j = i' - 1)); [lia |].
      destruct (decide (j = i')); [lia |].
      apply Hs'; lia. }
    rewrite <- Hd2 in Hp2, Hs2.
    assert (permSeg d1 d2 a b) as Hp2'
      by (apply (permSeg_weaken _ _ a i'); (lia || done)).
    set (d3 := if 2 <=? b - i' then shiftRight lt d2 (i' + 1) (b - (i' + 1)) else d2).
    assert (permSeg d2 d3 i' b) as Hp3.
    { unfold d3. destruct (2 <=? b - i'); [| apply permSeg_refl].
      apply shiftRight_permSeg; lia. }
    assert (permSeg d d3 a b) as Hp03.
    { apply (permSeg_trans _ d1); [done |].
      apply (permSeg_trans _ d2); [done |].
      apply (permSeg_weaken _ _ i' b); (lia || done). }
    destruct (IH d3 i') as [Hp4 Hs4].
    + by apply (ok_permSeg d d3 a b).
    + lia.
    + lia.
    + rewrite (permSeg_length _ _ _ _ Hp03). lia.
    + apply (lowerBound_permSeg d d3 a b a b); (lia || done).
    + apply (sortedSeg_outside lt d2 d3 a i' i' b); [lia | done | done].
    + split; [| done]. by apply (permSeg_trans _ d3).
Qed.

(** [partialInsertionSort_func] rearranges the range, and the range is
sorted when it answers true. *)
Lemma partialInsertionSort_spec (d : list A) (a b : nat) :
  Forall ok d -> a < b -> b <= length d -> lowerBound lt d a b ->
  permSeg d (fst (partialInsertionSort_func lt d a b)) a b
  /\ (snd (partialInsertionSort_func lt d a b) = true ->
      sortedSeg lt (fst (partialInsertionSort_func lt d a b)) a b).
Proof.
  intros Hok Hab Hb Hlow. unfold partialInsertionSort_func.
  apply partialLoop_spec; try (lia || done).
  intros i j x y Hi Hij Hj. lia.
Qed.

(** *** [heapSort_func] *)

(** The child that [siftDown_func] compares the root with is not less
than the other child. *)
Lemma larger_child (d : list A) (first hi root : nat) :
  Forall ok d -> first + hi <= length d -> 2 * root + 1 < hi ->
  let child := 2 * root + 1 in
  let c' := if (child + 1 <? hi) && Less lt d (first + child) (first + child + 1)
            then child + 1 else child in
  (c' = child \/ c' = child + 1) /\ c' < hi
  /\ forall c x y, c = child \/ c = child + 1 -> c < hi ->
       d !! (first + c') = Some x -> d !! (first + c) = Some y -> lt x y = false.
Proof.
  intros Hok Hlen Hchild child c'.
  destruct (lookup_lt_is_Some_2 d (first + child) ltac:(lia)) as [u Hu].
  destruct (Nat.ltb_spec (child + 1) hi) as [Hlt | Hge]; simpl in c'.
  - destruct (lookup_lt_is_Some_2 d (first + child + 1) ltac:(lia)) as [v Hv].
    pose proof (Less_lookup lt d _ _ u v Hu Hv) as HL.
    pose proof (ok_lookup d _ u Hok Hu) as Hoku.
    pose proof (ok_lookup d _ v Hok Hv) as Hokv.
    destruct (Less lt d (first + child) (first + child + 1)) eqn:Hless;
      subst c'; (split; [auto |]); (split; [lia |]);
      intros c x y [-> | ->] Hc Hx Hy;
      rewrite ?Nat.add_assoc in *; simplify_eq;
      eauto using lt_asym, lt_irrefl.
  - subst c'. split; [auto |]. split; [lia |].
    intros c x y [-> | ->] Hc Hx Hy; [| lia]. simplify_eq.
    eauto using lt_irrefl, ok_lookup.
Qed.

Lemma Swap_lookup_off (d : list A) (first r c k : nat) :
  first + r < length d -> first + c < length d ->
  Swap d (first + r) (first + c) !! (first + k)
  = if decide (k = c) then d !! (first + r)
    else if decide (k = r) then d !! (first + c) else d !! (first + k).
Proof.
  intros Hr Hc. rewrite Swap_lookup by done.
  destruct (decide (k = c)) as [-> | ?]; [by rewrite decide_True |].
  rewrite decide_False by lia.
  destruct (decide (k = r)) as [-> | ?]; [by rewrite decide_True |].
  by rewrite decide_False by lia.
Qed.

(** Exchanging the sinking root with its larger child moves the exception
of the heap to that child. *)
Lemma siftInv_step (d : list A) (first lo hi root c' : nat) (xr xc : A) :
  Forall ok d -> first + hi <= length d -> lo <= root -> c' < hi ->
  c' = 2 * root + 1 \/ c' = 2 * root + 2 ->
  d !! (first + root) = Some xr -> d !! (first + c') = Some xc ->
  lt xr xc = true ->
  (forall c x y, c = 2 * root + 1 \/ c = 2 * root + 2 -> c < hi ->
     d !! (first + c') = Some x -> d !! (first + c) = Some y -> lt x y = false) ->
  siftInv lt d first lo hi root ->
  siftInv lt (Swap d (first + root) (first + c')) first lo hi c'.
Proof.
  intros Hok Hlen Hlo Hc' Hchild Hxr Hxc Hless Hlarger [Hheap Hgrand].
  pose proof (ok_lookup d _ xr Hok Hxr) as Hokr.
  pose proof (ok_lookup d _ xc Hok Hxc) as Hokc.
  split.
  - intros i Hi Hne c x y Hc Hchi.
    rewrite !Swap_lookup_off by lia.
    destruct (decide (i = c')) as [? | _]; [done |].
    destruct (decide (c = c')) as [-> | Hcc].
    + (* the child is the new place of the old root: [i] is [root] *)
      destruct (decide (i = root)) as [-> | ?]; [| lia].
      intros Hx Hy. replace x with xc by congruence.
      replace y with xr by congruence. by apply lt_asym.
    + destruct (decide (i = root)) as [-> | Hir].
      * rewrite decide_False by lia. intros Hx Hy.
        apply (Hlarger c x y); (lia || done).
      * destruct (decide (c = root)) as [-> | Hcr].
        -- intros Hx Hy. apply (Hgrand i c' x y); (lia || done).
        -- intros Hx Hy. apply (Hheap i Hi Hir c x y); done.
  - intros g c x y Hg Hgc Hcc Hchi.
    rewrite !Swap_lookup_off by lia.
    destruct (decide (g = c')); [lia |].
    destruct (decide (g = root)) as [-> | ?]; [| lia].
    destruct (decide (c = c')); [lia |]. destruct (decide (c = root)); [lia |].
    intros Hx Hy. apply (Hheap c' ltac:(lia) ltac:(lia) c x y); done.
Qed.

Lemma siftDownN_S (fuel : nat) (d : list A) (root hi first : nat) :
  siftDownN lt (S fuel) d root hi first
  = let child := 2 * root + 1 in
    if hi <=? child then d
    else
      let child :=
        if (child + 1 <? hi) && Less lt d (first + child) (first + child + 1)
        then child + 1 else child in
      if negb (Less lt d (first + root) (first + child)) then d
      else siftDownN lt fuel (Swap d (first + root) (first + child)) child hi first.
Proof. reflexivity. Qed.

Lemma siftDownN_spec (first lo hi : nat) (fuel : nat) (d : list A) (root : nat) :
  Forall ok d -> first + hi <= length d -> lo <= root -> hi <= fuel + root ->
  siftInv lt d first lo hi root ->
  permSeg d (siftDownN lt fuel d root hi first) (first + lo) (first + hi)
  /\ heapRange lt (siftDownN lt fuel d root hi first) first lo hi.
Proof.
  revert d root. induction fuel as [| fuel IH];
    intros d root Hok Hlen Hlo Hfuel Hinv.
  - split; [apply permSeg_refl |]. intros i Hi. apply Hinv; lia.
  - rewrite siftDownN_S. cbv zeta.
    destruct (Nat.leb_spec hi (2 * root + 1)) as [Hleaf | Hchild].
    { split; [apply permSeg_refl |]. intros i Hi.
      destruct (decide (i = root)) as [-> | Hne]; [| by apply Hinv].
      intros c x y Hc Hchi. lia. }
    destruct (larger_child d first hi root Hok Hlen Hchild)
      as (Hc' & Hc'hi & Hlarger).
    match goal with
    | |- context [if ?t then 2 * root + 1 + 1 else 2 * root + 1] =>
        set (c' := if t then 2 * root + 1 + 1 else 2 * root + 1) in *
    end.
    destruct (lookup_lt_is_Some_2 d (first + root) ltac:(lia)) as [xr Hxr].
    destruct (lookup_lt_is_Some_2 d (first + c') ltac:(lia)) as [xc Hxc].
    rewrite (Less_lookup lt d _ _ xr xc Hxr Hxc).
    destruct (lt xr xc) eqn:Hless; simpl.
    + assert (permSeg d (Swap d (first + root) (first + c')) (first + lo) (first + hi))
        as Hsw by (apply Swap_permSeg; lia).
      destruct (IH (Swap d (first + root) (first + c')) c') as [Hp Hheap].
      * by apply (ok_permSeg d _ _ _ Hsw).
      * by rewrite Swap_length.
      * lia.
      * lia.
      * apply (siftInv_step d first lo hi root c' xr xc); try (lia || done).
        intros c x y Hc. apply Hlarger. lia.
      * split; [| done]. by apply (permSeg_trans _ (Swap d (first + root) (first + c'))).
    + split; [apply permSeg_refl |]. intros i Hi.
      destruct (decide (i = root)) as [-> | Hne]; [| by apply Hinv].
      intros c x y Hc Hchi Hx Hy. replace x with xr by congruence.
      apply (lt_negtrans xr xc y); eauto using ok_lookup.
      apply (Hlarger c xc y); (lia || done).
Qed.

Lemma heapBuild_spec (first hi : nat) (n : nat) (d : list A) :
  Forall ok d -> first + hi <= length d ->
  heapRange lt d first n hi ->
  permSeg d (heapBuild lt d n hi first) first (first + hi)
  /\ heapRange lt (heapBuild lt d n hi first) first 0 hi.
Proof.
  revert d. induction n as [| i IH]; intros d Hok Hlen Hheap; simpl.
  - split; [apply permSeg_refl | done].
  - unfold siftDown_func.
    destruct (siftDownN_spec first i hi hi d i) as [Hp1 Hh1];
      [done | done | lia | lia | |].
    { split.
      - intros j Hj Hne. apply Hheap. lia.
      - intros g c x y Hg Hgc. lia. }
    destruct (IH (siftDownN lt hi d i hi first)) as [Hp2 Hh2].
    + by apply (ok_permSeg d _ _ _ Hp1).
    + by rewrite (permSeg_length _ _ _ _ Hp1).
    + done.
    + split; [| done]. apply (permSeg_trans _ (siftDownN lt hi d i hi first)); [| done].
      apply (permSeg_weaken _ _ (first + i) (first + hi)); (lia || done).
Qed.

(** The root of a heap is not less than any of its nodes. *)
Lemma heap_root_max (d : list A) (first m : nat) :
  Forall ok d -> first + m <= length d -> heapRange lt d first 0 m ->
  forall k x y, k < m -> d !! first = Some x -> d !! (first + k) = Some y ->
    lt x y = false.
Proof.
  intros Hok Hlen Hheap k. induction k as [k IH] using lt_wf_ind.
  intros x y Hk Hx Hy.
  destruct k as [| k].
  - rewrite Nat.add_0_r in Hy. replace y with x by congruence.
    eauto using lt_irrefl, ok_lookup.
  - set (g := k / 2).
    assert (S k = 2 * g + 1 \/ S k = 2 * g + 2) as Hg.
    { pose proof (Nat.div_mod_eq k 2) as E.
      pose proof (Nat.mod_upper_bound k 2 ltac:(lia)) as Hm. unfold g. lia. }
    destruct (lookup_lt_is_Some_2 d (first + g) ltac:(lia)) as [z Hz].
    apply (lt_negtrans x z y); eauto using ok_lookup.
    + apply (IH g); (lia || done).
    + apply (Hheap g ltac:(lia) (S k) z y); (lia || done).
Qed.

Lemma heapPop_spec (first hi0 : nat) (n : nat) (d : list A) :
  Forall ok d -> n <= hi0 -> first + hi0 <= length d ->
  heapRange lt d first 0 n ->
  sortedSeg lt d (first + n) (first + hi0) ->
  (forall k y, first + n <= k < first + hi0 -> d !! k = Some y ->
               allSeg (fun x => lt y x = false) d first (first + n)) ->
  permSeg d (heapPop lt d n first) first (first + hi0)
  /\ sortedSeg lt (heapPop lt d n first) first (first + hi0).
Proof.
  revert d. induction n as [| i IH]; intros d Hok Hn Hlen Hheap Hsorted Hcross; simpl.
  - rewrite Nat.add_0_r in Hsorted. split; [apply permSeg_refl | done].
  - unfold siftDown_func.
    set (d1 := Swap d first (first + i)).
    assert (permSeg d d1 first (first + hi0)) as Hp1
      by (apply Swap_permSeg; lia).
    assert (length d1 = length d) as Hlen1 by apply Swap_length.
    assert (Forall ok d1) as Hok1 by (by apply (ok_permSeg d d1 _ _ Hp1)).
    assert (forall k, d1 !! k = if decide (k = first + i) then d !! first
                               else if decide (k = first) then d !! (first + i)
                                    else d !! k) as Hd1.
    { intros k. unfold d1. apply Swap_lookup; lia. }
    destruct (lookup_lt_is_Some_2 d first ltac:(lia)) as [top Htop].
    assert (forall k y, k < S i -> d !! (first + k) = Some y -> lt top y = false)
      as Hmax.
    { intros k y Hk Hy.
      apply (heap_root_max d first (S i) Hok ltac:(lia) Hheap k top y); done. }
    destruct (siftDownN_spec first 0 i i d1 0) as [Hp2 Hh2];
      [done | lia | lia | lia | |].
    { split.
      - intros j Hj Hne c x y Hc Hchi. rewrite !Hd1.
        rewrite !decide_False by lia. intros Hx Hy.
        apply (Hheap j ltac:(lia) c x y); (lia || done).
      - intros g c x y Hg Hgc. lia. }
    set (d2 := siftDownN lt i d1 0 i first) in *.
    rewrite Nat.add_0_r in Hp2.
    assert (permSeg d d2 first (first + hi0)) as Hp02.
    { apply (permSeg_trans _ d1); [done |].
      apply (permSeg_weaken _ _ first (first + i)); (lia || done). }
    destruct (IH d2) as [Hp3 Hs3].
    + by apply (ok_permSeg d d2 _ _ Hp02).
    + lia.
    + by rewrite (permSeg_length _ _ _ _ Hp02).
    + done.
    + apply (sortedSeg_outside lt d1 d2 _ _ first (first + i)); [lia | done |].
      intros p q x y Hp Hpq Hq. rewrite !Hd1.
      destruct (decide (q = first + i)); [lia |].
      destruct (decide (q = first)); [lia |].
      destruct (decide (p = first + i)) as [-> | Hpi].
      * intros Hx Hy. replace x with top by congruence.
        apply (Hcross q y ltac:(lia) Hy first top); (lia || done).
      * destruct (decide (p = first)); [lia |]. intros Hx Hy.
        apply (Hsorted p q x y); (lia || done).
    + intros k y Hk Hy.
      assert (d1 !! k = Some y) as Hy1.
      { destruct Hp2 as [_ Ho]. rewrite <- Ho; [done | lia]. }
      apply (allSeg_permSeg _ d1 d2 first (first + i) first (first + i));
        [lia | lia | lia | done |].
      intros k' x Hk'. rewrite Hd1. rewrite Hd1 in Hy1.
      destruct (decide (k' = first + i)); [lia |].
      assert (forall x', (exists m, m < S i /\ d !! (first + m) = Some x') ->
                         lt y x' = false) as Hall.
      { intros x' (m & Hm & Hx').
        destruct (decide (k = first + i)) as [-> | Hki].
        - replace y with top by congruence. by apply (Hmax m).
        - destruct (decide (k = first)); [lia |].
          apply (Hcross k y ltac:(lia) Hy1 (first + m) x'); (lia || done). }
      destruct (decide (k' = first)) as [-> | Hk'f].
      * intros Hx. apply Hall. exists i. split; [lia | done].
      * intros Hx. apply Hall. exists (k' - first).
        split; [lia |]. by replace (first + (k' - first)) with k' by lia.
    + split; [| done]. by apply (permSeg_trans _ d2).
Qed.

(** [heapSort_func] sorts the range it is given and touches nothing else. *)
Lemma heapSort_spec (d : list A) (a b : nat) :
  Forall ok d -> a <= b -> b <= length d ->
  permSeg d (heapSort_func lt d a b) a b
  /\ sortedSeg lt (heapSort_func lt d a b) a b.
Proof.
  intros Hok Hab Hb. unfold heapSort_func. cbv zeta.
  set (hi := b - a).
  assert (a + hi = b) as Hhi by (unfold hi; lia).
  destruct (heapBuild_spec a hi ((hi - 1) / 2 + 1) d) as [Hp1 Hh1];
    [done | lia | |].
  { intros i Hi c x y Hc Hchi.
    pose proof (Nat.div_mod_eq (hi - 1) 2) as E.
    pose proof (Nat.mod_upper_bound (hi - 1) 2 ltac:(lia)) as Hm. lia. }
  set (d1 := heapBuild lt d ((hi - 1) / 2 + 1) hi a) in *.
  destruct (heapPop_spec a hi hi d1) as [Hp2 Hs2].
  - by apply (ok_permSeg d d1 _ _ Hp1).
  - lia.
  - rewrite (permSeg_length _ _ _ _ Hp1). lia.
  - done.
  - intros i j x y Hi Hij Hj. lia.
  - intros k y Hk. lia.
  - rewrite Hhi in *. split; [| done]. by apply (permSeg_trans _ d1).
Qed.

(** *** [pdqsort_func] *)

(** Two sorted parts around a pivot make a sorted range. *)
Lemma sorted_join (d : list A) (a mid b : nat) (p : A) :
  Forall ok d -> a <= mid < b -> b <= length d -> d !! mid = Some p ->
  allSeg (fun x => lt x p = true) d a mid ->
  allSeg (fun x => lt x p = false) d (mid + 1) b ->
  sortedSeg lt d a mid -> sortedSeg lt d (mid + 1) b ->
  sortedSeg lt d a b.
Proof.
  intros Hok Hmid Hb Hp HL HR HsL HsR i j x y Hi Hij Hj Hx Hy.
  pose proof (ok_lookup d _ p Hok Hp) as Hokp.
  pose proof (ok_lookup d _ x Hok Hx) as Hokx.
  pose proof (ok_lookup d _ y Hok Hy) as Hoky.
  destruct (decide (j < mid)) as [Hjm | Hjm];
    [apply (HsL i j x y); (lia || done) |].
  destruct (decide (mid < i)) as [Him | Him];
    [apply (HsR i j x y); (lia || done) |].
  destruct (decide (i = mid)) as [-> | Hne].
  - replace x with p by congruence. apply (HR j y); (lia || done).
  - specialize (HL i x ltac:(lia) Hx). simpl in HL.
    destruct (decide (j = mid)) as [-> | Hne'].
    + replace y with p by congruence. by apply lt_asym.
    + specialize (HR j y ltac:(lia) Hy). simpl in HR.
      destruct (lt y x) eqn:Hyx; [| done].
      rewrite <- HR. symmetry. by apply (lt_trans y x p).
Qed.

(** The elements equal to an earlier pivot, followed by a sorted part of
greater elements, make a sorted range. *)
Lemma sorted_equal_join (d : list A) (a mid b : nat) (p q : A) :
  Forall ok d -> a < mid -> mid <= b -> b <= length d -> ok p -> ok q ->
  lt q p = false ->
  allSeg (fun x => lt x q = false) d a mid ->
  allSeg (fun x => lt p x = false) d a mid ->
  allSeg (fun x => lt p x = true) d mid b ->
  sortedSeg lt d mid b ->
  sortedSeg lt d a b.
Proof.
  intros Hok Ham Hmb Hb Hokp Hokq Hqp HQ HE HG Hs i j x y Hi Hij Hj Hx Hy.
  pose proof (ok_lookup d _ x Hok Hx) as Hokx.
  pose proof (ok_lookup d _ y Hok Hy) as Hoky.
  destruct (decide (mid <= i)) as [Him | Him];
    [apply (Hs i j x y); (lia || done) |].
  specialize (HE i x ltac:(lia) Hx). simpl in HE.
  destruct (decide (j < mid)) as [Hjm | Hjm].
  - specialize (HQ j y ltac:(lia) Hy). simpl in HQ.
    apply (lt_negtrans y p x); try done.
    by apply (lt_negtrans y q p).
  - specialize (HG j y ltac:(lia) Hy). simpl in HG.
    destruct (lt y x) eqn:Hyx; [| done].
    rewrite <- HE. symmetry. by apply (lt_trans p y x).
Qed.

Lemma pdqsortN_S (fuel : nat) (d : list A) (a b limit : nat)
    (wasBalanced wasPartitioned : bool) :
  pdqsortN lt (S fuel) d a b limit wasBalanced wasPartitioned
  = let length := b - a in
    if length <=? maxInsertion then insertionSort_func lt d a b
    else if limit =? 0 then heapSort_func lt d a b
    else
      let '(data, limit) :=
        if negb wasBalanced then (breakPatterns_func d a b, limit - 1)
        else (d, limit) in
      let '(pivot, hint) := choosePivot_func lt data a b in
      let '(data, pivot, hint) :=
        match hint with
        | decreasingHint =>
            (reverseRange_func data a b, (b - 1) - (pivot - a), increasingHint)
        | _ => (data, pivot, hint)
        end in
      let '(data, sorted) :=
        if wasBalanced && wasPartitioned && isIncreasing hint
        then partialInsertionSort_func lt data a b
        else (data, false) in
      if sorted then data
      else if (0 <? a) && negb (Less lt data (a - 1) pivot) then
        let '(data, mid) := partitionEqual_func lt data a b pivot in
        pdqsortN lt fuel data mid b limit wasBalanced wasPartitioned
      else
        let '(data, mid, alreadyPartitioned) := partition_func lt data a b pivot in
        let leftLen := mid - a in
        let rightLen := b - mid in
        let balanceThreshold := length / 8 in
        if leftLen <? rightLen then
          let data := pdqsortN lt fuel data a mid limit true true in
          pdqsortN lt fuel data (mid + 1) b limit
                   (balanceThreshold <=? leftLen) alreadyPartitioned
        else
          let data := pdqsortN lt fuel data (mid + 1) b limit true true in
          pdqsortN lt fuel data a mid limit
                   (balanceThreshold <=? rightLen) alreadyPartitioned.
Proof. reflexivity. Qed.

Section Rounds.

Variable fuel : nat.

(** What the recursive calls and the following rounds do, by induction. *)
Hypothesis IH : forall (d : list A) (a b limit : nat) (wB wP : bool),
  Forall ok d -> a <= b -> b <= length d -> lowerBound lt d a b ->
  b - a < fuel ->
  permSeg d (pdqsortN lt fuel d a b limit wB wP) a b
  /\ sortedSeg lt (pdqsortN lt fuel d a b limit wB wP) a b.

(** The round that splits off the elements equal to an earlier pivot. *)
Lemma pdqsort_equal_round (d : list A) (a b pivot limit : nat) (wB wP : bool) :
  Forall ok d -> 0 < a -> a <= pivot < b -> b <= length d ->
  lowerBound lt d a b -> b - a <= fuel ->
  Less lt d (a - 1) pivot = false ->
  let '(d4, mid) := partitionEqual_func lt d a b pivot in
  permSeg d (pdqsortN lt fuel d4 mid b limit wB wP) a b
  /\ sortedSeg lt (pdqsortN lt fuel d4 mid b limit wB wP) a b.
Proof.
  intros Hok Hpos Hpiv Hb Hlow Hfuel Hless.
  destruct (lookup_lt_is_Some_2 d pivot ltac:(lia)) as [p Hp].
  destruct (lookup_lt_is_Some_2 d (a - 1) ltac:(lia)) as [q Hq].
  rewrite (Less_lookup lt d _ _ q p Hq Hp) in Hless.
  pose proof (ok_lookup d _ p Hok Hp) as Hokp.
  pose proof (ok_lookup d _ q Hok Hq) as Hokq.
  destruct (partitionEqual_spec d a b pivot p Hokp Hpiv Hb Hp)
    as (d4 & mid & -> & Hp4 & Ham & Hmb & HE & HG).
  assert (Forall ok d4) as Hok4 by (by apply (ok_permSeg d d4 a b)).
  assert (length d4 = length d) as Hlen4 by (by apply (permSeg_length d d4 a b)).
  assert (lowerBound lt d4 a b) as Hlow4
    by (apply (lowerBound_permSeg d d4 a b a b); (lia || done)).
  assert (d4 !! (a - 1) = Some q) as Hq4.
  { destruct Hp4 as [_ Ho]. rewrite Ho by lia. done. }
  destruct (IH d4 mid b limit wB wP) as [Hp5 Hs5]; [done | lia | lia | | lia |].
  { intros r _ Hr k x Hk Hx.
    specialize (HE (mid - 1) r ltac:(lia) Hr). simpl in HE.
    specialize (HG k x Hk Hx). simpl in HG.
    destruct (lt x r) eqn:Hxr; [| done].
    rewrite <- HE. symmetry.
    apply (lt_trans p x r); eauto using ok_lookup. }
  set (d5 := pdqsortN lt fuel d4 mid b limit wB wP) in *.
  assert (permSeg d4 d5 a b) as Hp45
    by (apply (permSeg_weaken _ _ mid b); (lia || done)).
  split; [by apply (permSeg_trans _ d4) |].
  apply (sorted_equal_join d5 a mid b p q); try (lia || done).
  - by apply (ok_permSeg d4 d5 a b).
  - rewrite (permSeg_length d4 d5 a b Hp45). lia.
  - apply (allSeg_outside _ d4 d5 a mid mid b); [lia | done |].
    intros k x Hk Hx. apply (Hlow4 q Hpos Hq4 k x); (lia || done).
  - by apply (allSeg_outside _ d4 d5 a mid mid b); [lia | done |].
  - by apply (allSeg_permSeg _ d4 d5 mid b mid b); [lia | lia | lia | done |].
Qed.

(** After a partition, sorting the two parts one after the other, in
either order, sorts the range. *)
Lemma sorted_two_parts (d4 d5 d6 : list A) (a mid b : nat) (p : A)
    (a1 b1 a2 b2 : nat) :
  Forall ok d4 -> a <= mid < b -> b <= length d4 -> d4 !! mid = Some p ->
  allSeg (fun x => lt x p = true) d4 a mid ->
  allSeg (fun x => lt x p = false) d4 (mid + 1) b ->
  (a1 = a /\ b1 = mid /\ a2 = mid + 1 /\ b2 = b)
  \/ (a1 = mid + 1 /\ b1 = b /\ a2 = a /\ b2 = mid) ->
  permSeg d4 d5 a1 b1 -> sortedSeg lt d5 a1 b1 ->
  permSeg d5 d6 a2 b2 -> sortedSeg lt d6 a2 b2 ->
  permSeg d4 d6 a b /\ sortedSeg lt d6 a b.
Proof.
  intros Hok Hmid Hb Hp HL HR Horder Hp5 Hs5 Hp6 Hs6.
  assert (permSeg d4 d5 a b) as Hp45
    by (apply (permSeg_weaken _ _ a1 b1); (lia || done)).
  assert (permSeg d5 d6 a b) as Hp56
    by (apply (permSeg_weaken _ _ a2 b2); (lia || done)).
  assert (permSeg d4 d6 a b) as Hp46 by (by apply (permSeg_trans _ d5)).
  split; [done |].
  assert (d6 !! mid = Some p) as Hp6m.
  { destruct Hp5 as [_ Ho5], Hp6 as [_ Ho6]. rewrite Ho6, Ho5 by lia. done. }
  apply (sorted_join d6 a mid b p).
  - by apply (ok_permSeg d4 d6 a b).
  - done.
  - rewrite (permSeg_length d4 d6 a b Hp46). lia.
  - done.
  - destruct Horder as [(-> & -> & -> & ->) | (-> & -> & -> & ->)].
    + apply (allSeg_outside _ d5 d6 a mid (mid + 1) b); [lia | done |].
      by apply (allSeg_permSeg _ d4 d5 a mid a mid); [lia | lia | lia | done |].
    + apply (allSeg_permSeg _ d5 d6 a mid a mid); [lia | lia | lia | done |].
      by apply (allSeg_outside _ d4 d5 a mid (mid + 1) b); [lia | done |].
  - destruct Horder as [(-> & -> & -> & ->) | (-> & -> & -> & ->)].
    + apply (allSeg_permSeg _ d5 d6 (mid + 1) b (mid + 1) b);
        [lia | lia | lia | done |].
      by apply (allSeg_outside _ d4 d5 (mid + 1) b a mid); [lia | done |].
    + apply (allSeg_outside _ d5 d6 (mid + 1) b a mid); [lia | done |].
      by apply (allSeg_permSeg _ d4 d5 (mid + 1) b (mid + 1) b);
        [lia | lia | lia | done |].
  - destruct Horder as [(-> & -> & -> & ->) | (-> & -> & -> & ->)]; [| done].
    by apply (sortedSeg_outside lt d5 d6 a mid (mid + 1) b); [lia | done |].
  - destruct Horder as [(-> & -> & -> & ->) | (-> & -> & -> & ->)]; [done |].
    by apply (sortedSeg_outside lt d5 d6 (mid + 1) b a mid); [lia | done |].
Qed.

(** The range in front of the pivot and the range behind it keep their
[lowerBound] while the other one is sorted. *)
Lemma lowerBound_left (d d4 dx : list A) (a mid b : nat) :
  a <= mid < b -> permSeg d d4 a b -> permSeg d4 dx (mid + 1) b ->
  lowerBound lt d a b -> lowerBound lt dx a mid.
Proof.
  intros Hmid Hp4 Hpx Hlow.
  apply (lowerBound_sub dx a b mid); [lia |].
  apply (lowerBound_permSeg d4 dx a b (mid + 1) b); [lia | lia | lia | done |].
  apply (lowerBound_permSeg d d4 a b a b); (lia || done).
Qed.

Lemma lowerBound_right (d4 dx : list A) (a mid b : nat) (p : A) :
  a <= mid < b -> d4 !! mid = Some p -> permSeg d4 dx a mid ->
  allSeg (fun x => lt x p = false) d4 (mid + 1) b ->
  lowerBound lt dx (mid + 1) b.
Proof.
  intros Hmid Hp Hpx HR q _ Hq.
  replace (mid + 1 - 1) with mid in Hq by lia.
  assert (q = p) as ->.
  { destruct Hpx as [_ Ho]. rewrite Ho in Hq by lia. congruence. }
  by apply (allSeg_outside _ d4 dx (mid + 1) b a mid); [lia | done |].
Qed.

(** The round that partitions around a pivot and sorts both parts. *)
Lemma pdqsort_partition_round (d : list A) (a b pivot limit : nat) :
  Forall ok d -> a <= pivot < b -> b <= length d ->
  lowerBound lt d a b -> b - a <= fuel ->
  let '(d4, mid, already) := partition_func lt d a b pivot in
  let r :=
    if mid - a <? b - mid then
      pdqsortN lt fuel (pdqsortN lt fuel d4 a mid limit true true) (mid + 1) b
               limit ((b - a) / 8 <=? mid - a) already
    else
      pdqsortN lt fuel (pdqsortN lt fuel d4 (mid + 1) b limit true true) a mid
               limit ((b - a) / 8 <=? b - mid) already in
  permSeg d r a b /\ sortedSeg lt r a b.
Proof.
  intros Hok Hpiv Hb Hlow Hfuel.
  destruct (lookup_lt_is_Some_2 d pivot ltac:(lia)) as [p Hp].
  destruct (partition_spec d a b pivot p Hpiv Hb Hp)
    as (d4 & mid & already & -> & Hp4 & Hmid & Hpm & HL & HR).
  assert (Forall ok d4) as Hok4 by (by apply (ok_permSeg d d4 a b)).
  assert (length d4 = length d) as Hlen4 by (by apply (permSeg_length d d4 a b)).
  cbv zeta.
  destruct (mid - a <? b - mid).
  - destruct (IH d4 a mid limit true true) as [Hp5 Hs5];
      [done | lia | lia | | lia |].
    { apply (lowerBound_left d d4 d4 a mid b); (done || apply permSeg_refl). }
    set (d5 := pdqsortN lt fuel d4 a mid limit true true) in *.
    destruct (IH d5 (mid + 1) b limit ((b - a) / 8 <=? mid - a) already)
      as [Hp6 Hs6].
    + by apply (ok_permSeg d4 d5 a mid).
    + lia.
    + rewrite (permSeg_length d4 d5 a mid Hp5). lia.
    + by apply (lowerBound_right d4 d5 a mid b p).
    + lia.
    + destruct (sorted_two_parts d4 d5 _ a mid b p a mid (mid + 1) b
                  Hok4 Hmid ltac:(lia) Hpm HL HR ltac:(by left) Hp5 Hs5 Hp6 Hs6)
        as [Hp46 Hs46].
      split; [by apply (permSeg_trans _ d4) | done].
  - destruct (IH d4 (mid + 1) b limit true true) as [Hp5 Hs5];
      [done | lia | lia | | lia |].
    { apply (lowerBound_right d4 d4 a mid b p); (done || apply permSeg_refl). }
    set (d5 := pdqsortN lt fuel d4 (mid + 1) b limit true true) in *.
    destruct (IH d5 a mid limit ((b - a) / 8 <=? b - mid) already)
      as [Hp6 Hs6].
    + by apply (ok_permSeg d4 d5 (mid + 1) b).
    + lia.
    + rewrite (permSeg_length d4 d5 (mid + 1) b Hp5). lia.
    + by apply (lowerBound_left d d4 d5 a mid b).
    + lia.
    + destruct (sorted_two_parts d4 d5 _ a mid b p (mid + 1) b a mid
                  Hok4 Hmid ltac:(lia) Hpm HL HR ltac:(by right) Hp5 Hs5 Hp6 Hs6)
        as [Hp46 Hs46].
      split; [by apply (permSeg_trans _ d4) | done].
Qed.

End Rounds.

(** [pdqsort_func] sorts the range it is given and touches nothing else,
whatever the limit and the two flags are. *)
Lemma pdqsortN_spec (fuel : nat) :
  forall (d : list A) (a b limit : nat) (wB wP : bool),
    Forall ok d -> a <= b -> b <= length d -> lowerBound lt d a b ->
    b - a < fuel ->
    permSeg d (pdqsortN lt fuel d a b limit wB wP) a b
    /\ sortedSeg lt (pdqsortN lt fuel d a b limit wB wP) a b.
Proof.
  induction fuel as [| fuel IH]; intros d a b limit wB wP Hok Hab Hb Hlow Hfuel;
    [lia |].
  rewrite pdqsortN_S. cbv zeta.
  destruct (Nat.leb_spec (b - a) maxInsertion) as [_ | Hlong];
    [by apply insertionSort_spec |].
  unfold maxInsertion in Hlong.
  destruct (Nat.eqb_spec limit 0) as [_ | _]; [by apply heapSort_spec |].
  set (st1 := if negb wB then (breakPatterns_func d a b, limit - 1) else (d, limit)).
  assert (permSeg d (fst st1) a b) as H1.
  { unfold st1. destruct (negb wB); [apply breakPatterns_permSeg | apply permSeg_refl]. }
  destruct st1 as [d1 lim1]. cbn [fst] in H1. cbv beta iota.
  pose proof (choosePivot_range lt d1 a b ltac:(lia)) as Hpiv.
  destruct (choosePivot_func lt d1 a b) as [pivot hint]. cbn [fst] in Hpiv.
  cbv beta iota.
  set (st2 := match hint with
              | decreasingHint =>
                  (reverseRange_func d1 a b, b - 1 - (pivot - a), increasingHint)
              | _ => (d1, pivot, hint)
              end).
  assert (permSeg d1 (fst (fst st2)) a b /\ a <= snd (fst st2) < b) as [H2 Hpiv2].
  { unfold st2. destruct hint; cbn [fst snd];
      (split; [first [apply permSeg_refl | apply reverseRange_permSeg; lia] | lia]). }
  destruct st2 as [[d2 pivot2] hint2]. cbn [fst snd] in H2, Hpiv2. cbv beta iota.
  assert (permSeg d d2 a b) as H02 by (by apply (permSeg_trans _ d1)).
  assert (Forall ok d2) as Hok2 by (by apply (ok_permSeg d d2 a b)).
  assert (length d2 = length d) as Hlen2 by (by apply (permSeg_length d d2 a b)).
  assert (lowerBound lt d2 a b) as Hlow2
    by (apply (lowerBound_permSeg d d2 a b a b); (lia || done)).
  set (st3 := if wB && wP && isIncreasing hint2
              then partialInsertionSort_func lt d2 a b else (d2, false)).
  assert (permSeg d2 (fst st3) a b
          /\ (snd st3 = true -> sortedSeg lt (fst st3) a b)) as [H3 Hs3].
  { unfold st3. destruct (wB && wP && isIncreasing hint2).
    - apply partialInsertionSort_spec; (lia || done).
    - split; [apply permSeg_refl | done]. }
  destruct st3 as [d3 sorted]. cbn [fst snd] in H3, Hs3. cbv beta iota.
  assert (permSeg d d3 a b) as H03 by (by apply (permSeg_trans _ d2)).
  destruct sorted; [split; [done | by apply Hs3] |].
  assert (Forall ok d3) as Hok3 by (by apply (ok_permSeg d d3 a b)).
  assert (length d3 = length d) as Hlen3 by (by apply (permSeg_length d d3 a b)).
  assert (lowerBound lt d3 a b) as Hlow3
    by (apply (lowerBound_permSeg d d3 a b a b); (lia || done)).
  destruct ((0 <? a) && negb (Less lt d3 (a - 1) pivot2)) eqn:Heq.
  - apply andb_true_iff in Heq as [Hpos Hless].
    apply Nat.ltb_lt in Hpos. apply negb_true_iff in Hless.
    pose proof (pdqsort_equal_round fuel IH d3 a b pivot2 lim1 wB wP
                  Hok3 Hpos Hpiv2 ltac:(lia) Hlow3 ltac:(lia) Hless) as Hround.
    destruct (partitionEqual_func lt d3 a b pivot2) as [d4 mid].
    destruct Hround as [Hp Hs]. split; [by apply (permSeg_trans _ d3) | done].
  - pose proof (pdqsort_partition_round fuel IH d3 a b pivot2 lim1
                  Hok3 Hpiv2 ltac:(lia) Hlow3 ltac:(lia)) as Hround.
    destruct (partition_func lt d3 a b pivot2) as [[d4 mid] already].
    cbv zeta in Hround. destruct Hround as [Hp Hs].
    split; [by apply (permSeg_trans _ d3) | done].
Qed.

(** [sort.Slice] returns a permutation of its argument, in ascending
order. *)
Theorem Slice_sorted_perm (x : list A) :
  Forall ok x -> x ≡ₚ Slice lt x /\ sorted lt (Slice lt x).
Proof.
  intros Hok. unfold Slice.
  destruct (pdqsortN_spec (length x + 1) x 0 (length x) (bitsLen (length x))
              true true) as [[Hp _] Hs]; [done | lia | lia | | lia |].
  { intros q Hpos. lia. }
  split; [done |]. unfold sorted. by rewrite <- (Permutation_length Hp).
Qed.

End Correct.

End OrderProofs.

(** ** The order of [float64] *)

Module FloatProofs.

Import F64 FloatSpec.
Local Open Scope Z_scope.

Ltac bool_iff := split; intros; first [discriminate | reflexivity | lia].

Lemma ltb_key (x y : float64) :
  is_nan x = false -> is_nan y = false ->
  (ltb x y = true <-> keyLt (key x) (key y)).
Proof.
  intros Hx Hy. unfold ltb, SFltb, keyLt.
  destruct x as [sx | sx | | sx mx ex], y as [sy | sy | | sy my ey];
    try discriminate; simpl;
    try (destruct sx); try (destruct sy); simpl; try bool_iff.
  - destruct (Z.compare_spec ex ey); try bool_iff.
    change (Pos.compare_cont Eq mx my) with (Pos.compare mx my).
    destruct (Pos.compare_spec mx my); simpl; bool_iff.
  - destruct (Z.compare_spec ex ey); try bool_iff.
    change (Pos.compare_cont Eq mx my) with (Pos.compare mx my).
    destruct (Pos.compare_spec mx my); simpl; bool_iff.
Qed.

Lemma eqb_key (x y : float64) : eqb x y = true -> key x = key y.
Proof.
  unfold eqb, SFeqb.
  destruct x as [sx | sx | | sx mx ex], y as [sy | sy | | sy my ey];
    try discriminate; simpl;
    try (destruct sx); try (destruct sy); simpl; try (discriminate || reflexivity).
  - destruct (Z.compare_spec ex ey); try discriminate.
    change (Pos.compare_cont Eq mx my) with (Pos.compare mx my).
    destruct (Pos.compare_spec mx my); try discriminate. by subst.
  - destruct (Z.compare_spec ex ey); try discriminate.
    change (Pos.compare_cont Eq mx my) with (Pos.compare mx my).
    destruct (Pos.compare_spec mx my); try discriminate. by subst.
Qed.

Lemma eqb_not_nan (x y : float64) :
  eqb x y = true -> is_nan x = false /\ is_nan y = false.
Proof.
  unfold eqb, SFeqb. destruct x, y; simpl; (discriminate || done).
Qed.

Lemma ltb_not_nan (x y : float64) :
  ltb x y = true -> is_nan x = false /\ is_nan y = false.
Proof.
  unfold ltb, SFltb. destruct x, y; simpl; (discriminate || done).
Qed.

Lemma keyLt_irrefl (k : Z * Z * Z) : ~ keyLt k k.
Proof. destruct k as [[c e] m]. unfold keyLt. lia. Qed.

Lemma keyLt_trans (k1 k2 k3 : Z * Z * Z) :
  keyLt k1 k2 -> keyLt k2 k3 -> keyLt k1 k3.
Proof.
  destruct k1 as [[c1 e1] m1], k2 as [[c2 e2] m2], k3 as [[c3 e3] m3].
  unfold keyLt. lia.
Qed.

Lemma keyLt_negtrans (k1 k2 k3 : Z * Z * Z) :
  ~ keyLt k1 k2 -> ~ keyLt k2 k3 -> ~ keyLt k1 k3.
Proof.
  destruct k1 as [[c1 e1] m1], k2 as [[c2 e2] m2], k3 as [[c3 e3] m3].
  unfold keyLt. lia.
Qed.

Lemma ltb_irrefl (x : float64) : is_nan x = false -> ltb x x = false.
Proof.
  intros Hx. destruct (ltb x x) eqn:E; [| done].
  apply ltb_key in E; [| done | done]. by apply keyLt_irrefl in E.
Qed.

Lemma ltb_trans (x y z : float64) :
  is_nan x = false -> is_nan y = false -> is_nan z = false ->
  ltb x y = true -> ltb y z = true -> ltb x z = true.
Proof.
  intros Hx Hy Hz Hxy Hyz. apply ltb_key; [done | done |].
  apply (keyLt_trans _ (key y)); by apply ltb_key.
Qed.

Lemma ltb_negtrans (x y z : float64) :
  is_nan x = false -> is_nan y = false -> is_nan z = false ->
  ltb x y = false -> ltb y z = false -> ltb x z = false.
Proof.
  intros Hx Hy Hz Hxy Hyz. destruct (ltb x z) eqn:E; [| done].
  apply ltb_key in E; [| done | done]. exfalso.
  revert E. apply (keyLt_negtrans _ (key y)).
  - intros H. apply ltb_key in H; [congruence | done | done].
  - intros H. apply ltb_key in H; [congruence | done | done].
Qed.

(** Two numbers that are [==] to a third one are not [<] one another. *)
Lemma ltb_eqb_compat (x y z : float64) :
  ltb x y = true -> eqb z x = true -> eqb z y = true -> False.
Proof.
  intros Hlt Hzx Hzy.
  destruct (ltb_not_nan x y Hlt) as [Hx Hy].
  apply ltb_key in Hlt; [| done | done].
  apply eqb_key in Hzx, Hzy. rewrite <- Hzx, <- Hzy in Hlt.
  by apply keyLt_irrefl in Hlt.
Qed.

End FloatProofs.

(** ** Stability of the insertion sort *)

Module StableProofs.

Import Sort SortSpec SortProofs OrderProofs.
Local Open Scope nat_scope.

Section Stable.

Context {A : Type}.
Variable lt : A -> A -> bool.
Variable eqv : A -> A -> bool.

(** Two elements of one class are never strictly ordered. *)
Hypothesis compat : forall x y z,
  lt x y = true -> eqv z x = true -> eqv z y = true -> False.

Lemma Swap_adjacent (d : list A) (k : nat) (u v : A) :
  d !! k = Some u -> d !! S k = Some v ->
  exists l1 l2, d = l1 ++ u :: v :: l2 /\ Swap d (S k) k = l1 ++ v :: u :: l2.
Proof.
  intros Hu Hv.
  assert (exists l1 l2, d = l1 ++ u :: v :: l2 /\ length l1 = k)
    as (l1 & l2 & Hd & Hlen).
  { pose proof (take_drop_middle d k u Hu) as Hd.
    assert (drop (S k) d !! 0 = Some v) as Hv'.
    { rewrite lookup_drop. by replace (S k + 0) with (S k) by lia. }
    pose proof (take_drop_middle _ _ _ Hv') as Hd'. simpl in Hd'.
    exists (take k d), (drop 1 (drop (S k) d)). rewrite Hd', Hd.
    split; [done |]. rewrite length_take. apply lookup_lt_Some in Hu. lia. }
  exists l1, l2. split; [done |].
  unfold Swap. rewrite Hv, Hu. subst d.
  rewrite (insert_app_r_alt l1 _ (S k)) by lia.
  rewrite Hlen. replace (S k - k) with 1 by lia. simpl.
  rewrite insert_app_r_alt by lia. by rewrite Hlen, Nat.sub_diag.
Qed.

Lemma Swap_stable (d : list A) (k : nat) :
  Less lt d (S k) k = true -> stable eqv d (Swap d (S k) k).
Proof.
  intros Hless z. unfold Less in Hless.
  destruct (d !! S k) as [v |] eqn:Hv; [| done].
  destruct (d !! k) as [u |] eqn:Hu; [| done].
  destruct (Swap_adjacent d k u v Hu Hv) as (l1 & l2 & Hd & ->).
  rewrite Hd. rewrite !List.filter_app. f_equal. simpl.
  destruct (eqv z v) eqn:Ev, (eqv z u) eqn:Eu; try done.
  destruct (compat v u z Hless Ev Eu).
Qed.

Lemma stable_trans (d1 d2 d3 : list A) :
  stable eqv d1 d2 -> stable eqv d2 d3 -> stable eqv d1 d3.
Proof. intros H1 H2 z. by rewrite H2, H1. Qed.

Lemma insertDown_stable (a k : nat) (d : list A) :
  stable eqv d (insertDown lt d a k).
Proof.
  revert d. induction k as [| k IH]; intros d; simpl; [done |].
  destruct (a <? S k); simpl; [| done].
  destruct (Less lt d (S k) k) eqn:Hless; [| done].
  apply (stable_trans _ (Swap d (S k) k)); [by apply Swap_stable | apply IH].
Qed.

Lemma insertionLoop_stable (a n i : nat) (d : list A) :
  stable eqv d (insertionLoop lt d a i n).
Proof.
  revert i d. induction n as [| n IH]; intros i d; simpl; [done |].
  apply (stable_trans _ (insertDown lt d a i)); [apply insertDown_stable | apply IH].
Qed.

(** [insertionSort_func] is stable. *)
Lemma insertionSort_stable (d : list A) (a b : nat) :
  stable eqv d (insertionSort_func lt d a b).
Proof. apply insertionLoop_stable. Qed.

(** Up to 12 elements, [sort.Slice] is the insertion sort. *)
Lemma Slice_small (x : list A) :
  length x <= maxInsertion -> Slice lt x = insertionSort_func lt x 0 (length x).
Proof.
  intros Hlen. unfold Slice. replace (length x + 1) with (S (length x)) by lia.
  rewrite pdqsortN_S. cbv zeta. rewrite Nat.sub_0_r.
  by destruct (Nat.leb_spec (length x) maxInsertion) as [_ | ?]; [| lia].
Qed.

End Stable.

End StableProofs.

(** ** The claims about the generator *)

Module AssClaims.

Import F64 Parser Ass AssSpec Sort SortSpec.
Local Open Scope nat_scope.

Lemma lessTimeline_irrefl (x : Comment) : notNaN x -> lessTimeline x x = false.
Proof. apply FloatProofs.ltb_irrefl. Qed.

Lemma lessTimeline_trans (x y z : Comment) :
  notNaN x -> notNaN y -> notNaN z ->
  lessTimeline x y = true -> lessTimeline y z = true -> lessTimeline x z = true.
Proof. apply FloatProofs.ltb_trans. Qed.

Lemma lessTimeline_negtrans (x y z : Comment) :
  notNaN x -> notNaN y -> notNaN z ->
  lessTimeline x y = false -> lessTimeline y z = false -> lessTimeline x z = false.
Proof. apply FloatProofs.ltb_negtrans. Qed.

Lemma lessTimeline_sameTime (x y z : Comment) :
  lessTimeline x y = true -> sameTime z x = true -> sameTime z y = true -> False.
Proof. apply FloatProofs.ltb_eqb_compat. Qed.

(** The sort of [GenerateASS] returns a permutation in ascending order. *)
Lemma Slice_lessTimeline (cs : list Comment) :
  Forall notNaN cs ->
  cs ≡ₚ Slice lessTimeline cs /\ sorted lessTimeline (Slice lessTimeline cs).
Proof.
  apply (OrderProofs.Slice_sorted_perm lessTimeline notNaN);
    [apply lessTimeline_irrefl | apply lessTimeline_trans | apply lessTimeline_negtrans].
Qed.

Lemma elems_length (w : World) (s : CommentSlice) :
  low s + len s <= length (backing w s) -> length (elems w s) = len s.
Proof. intros H. unfold elems. rewrite length_take, length_drop. lia. Qed.

Lemma backing_store (w : World) (s : CommentSlice) (l : list Comment) :
  backing (store w s l) s
  = take (low s) (backing w s) ++ l ++ drop (low s + len s) (backing w s).
Proof. unfold store, backing at 1. simpl. by rewrite lookup_insert_eq. Qed.

(** Reading a slice back after its window was overwritten. *)
Lemma elems_store (w : World) (s : CommentSlice) (l : list Comment) :
  low s + len s <= length (backing w s) -> length l = len s ->
  elems (store w s l) s = l.
Proof.
  intros Hwin Hlen. unfold elems. rewrite backing_store.
  rewrite drop_app_length' by (rewrite length_take; lia).
  by rewrite take_app_length'.
Qed.

Lemma GenerateASS_heap (g : Generator) (s : CommentSlice) (output : string)
    (w : World) :
  heap (fst (GenerateASS g s output w))
  = heap (store w s (Slice lessTimeline (elems w s))).
Proof. unfold GenerateASS. by destruct (creatable _ output). Qed.

(** C10. [GenerateASS] sorts the caller's slice in place. For a slice
that lies within its backing array and holds no NaN timeline, the elements
the caller reads through the same slice after the call are the Comments it
held before, each one unchanged, rearranged into ascending timeline order;
the rest of the backing array and all other arrays are as before. This
holds also when the output file cannot be created. *)
Theorem GenerateASS_sorts_in_place (g : Generator) (comments : CommentSlice)
    (output : string) (w : World) :
  low comments + len comments <= length (backing w comments) ->
  Forall notNaN (elems w comments) ->
  let w' := fst (GenerateASS g comments output w) in
  elems w comments ≡ₚ elems w' comments
  /\ sorted lessTimeline (elems w' comments)
  /\ elems w' comments = Slice lessTimeline (elems w comments)
  /\ take (low comments) (backing w' comments)
     = take (low comments) (backing w comments)
  /\ drop (low comments + len comments) (backing w' comments)
     = drop (low comments + len comments) (backing w comments)
  /\ (forall addr, addr <> array comments -> heap w' !! addr = heap w !! addr).
Proof.
  intros Hwin Hnan w'.
  destruct (Slice_lessTimeline (elems w comments) Hnan) as [Hperm Hsorted].
  assert (length (Slice lessTimeline (elems w comments)) = len comments) as Hlen.
  { rewrite <- (Permutation_length Hperm). by apply elems_length. }
  assert (backing w' comments
          = backing (store w comments (Slice lessTimeline (elems w comments)))
                    comments) as Hback.
  { unfold backing. subst w'. by rewrite GenerateASS_heap. }
  assert (elems w' comments = Slice lessTimeline (elems w comments)) as Helems.
  { unfold elems. rewrite Hback.
    by apply (elems_store w comments _ Hwin Hlen). }
  rewrite Helems. repeat split; try done.
  - rewrite Hback, backing_store.
    rewrite take_app_length'; [done |]. rewrite length_take. lia.
  - rewrite Hback, backing_store. rewrite app_assoc.
    rewrite drop_app_length'; [done |].
    rewrite length_app, length_take, Hlen. lia.
  - intros addr Hne. subst w'. rewrite GenerateASS_heap. unfold store. simpl.
    by rewrite lookup_insert_ne.
Qed.

(** Three Comments at seconds 5, 1, 1 in the caller's array come back in
the order 1, 1, 5. *)
Lemma GenerateASS_sorts_in_place_witness :
  let s := mkSlice 0 0 3 in
  let w' := fst (GenerateASS Spec.defaultGenerator s "out.ass" threeWorld) in
  (elems threeWorld s ≡ₚ elems w' s /\ sorted lessTimeline (elems w' s))
  /\ map Text (elems threeWorld s) = ["late"; "first"; "second"]%string
  /\ map Text (elems w' s) = ["first"; "second"; "late"]%string.
Proof.
  split.
  - pose proof (GenerateASS_sorts_in_place Spec.defaultGenerator (mkSlice 0 0 3)
                  "out.ass" threeWorld) as H.
    simpl in H. destruct H as (H1 & H2 & _).
    + vm_compute. lia.
    + repeat constructor.
    + split; [exact H1 | exact H2].
  - split; by vm_compute.
Defined.

(** The events come in the order of the sorted Comments. *)
Lemma generateEvents_omap (g : Generator) (cs : list Comment) :
  generateEvents g cs = omap (eventOf g) cs.
Proof.
  induction cs as [| c rest IH]; simpl; [done |].
  destruct (eventOf g c); by rewrite IH.
Qed.

(** C2, as the code has it. The sort of [GenerateASS] orders the Comments
by ascending timeline (a permutation in ascending order, when no timeline is
NaN), and the events follow that order. Comments with equal timeline values
keep their input order when at most 12 Comments are sorted; [sort.Slice]
promises nothing for longer inputs. *)
Theorem sort_stable_up_to_twelve (g : Generator) (cs : list Comment) :
  (Forall notNaN cs ->
   cs ≡ₚ Slice lessTimeline cs /\ sorted lessTimeline (Slice lessTimeline cs))
  /\ generateEvents g (Slice lessTimeline cs)
     = omap (eventOf g) (Slice lessTimeline cs)
  /\ (length cs <= 12 -> stable sameTime cs (Slice lessTimeline cs)).
Proof.
  split; [apply Slice_lessTimeline |]. split; [apply generateEvents_omap |].
  intros Hlen. rewrite StableProofs.Slice_small by done.
  apply (StableProofs.insertionSort_stable lessTimeline sameTime).
  apply lessTimeline_sameTime.
Qed.

(** The two Comments at second 1 of [threeComments] keep their order. *)
Lemma sort_stable_up_to_twelve_witness :
  (threeComments ≡ₚ Slice lessTimeline threeComments
   /\ sorted lessTimeline (Slice lessTimeline threeComments))
  /\ stable sameTime threeComments (Slice lessTimeline threeComments).
Proof.
  destruct (sort_stable_up_to_twelve Spec.defaultGenerator threeComments)
    as (H1 & _ & H3).
  split.
  - apply H1. repeat constructor.
  - apply H3. simpl. lia.
Defined.

(** C2 as stated fails for thirteen Comments. In [tieComments] the
Comments "a" to "l" share the timeline 1.0 and come in this order; after the
sort of [GenerateASS] the events come in the order m, g, c, d, e, f, a, h, i,
j, k, l, b: "g" is ahead of "a", and "b" is last. *)
Lemma sort_stability_counterexample :
  let sorted := Slice lessTimeline tieComments in
  map EText (generateEvents Spec.defaultGenerator sorted)
  = ["m"; "g"; "c"; "d"; "e"; "f"; "a"; "h"; "i"; "j"; "k"; "l"; "b"]%string
  /\ ~ stable sameTime tieComments sorted.
Proof.
  split; [by vm_compute |].
  intros H. specialize (H (comment 0 (of_Z 1) "a")).
  vm_compute in H. discriminate H.
Qed.

End AssClaims.

(** ** Rounding in binary64 *)

Module RoundProofs.

Import F64 FloatSpec.
Local Open Scope Z_scope.

Lemma digits2_pos_bounds (p : positive) :
  2 ^ (Zpos (digits2_pos p) - 1) <= Zpos p < 2 ^ Zpos (digits2_pos p).
Proof.
  induction p as [p IH | p IH |]; simpl digits2_pos.
  - rewrite Pos2Z.inj_succ, (Pos2Z.inj_xI p).
    replace (Z.succ (Zpos (digits2_pos p)) - 1) with (Z.succ (Zpos (digits2_pos p) - 1)) by lia.
    rewrite !Z.pow_succ_r by lia. lia.
  - rewrite Pos2Z.inj_succ, (Pos2Z.inj_xO p).
    replace (Z.succ (Zpos (digits2_pos p)) - 1) with (Z.succ (Zpos (digits2_pos p) - 1)) by lia.
    rewrite !Z.pow_succ_r by lia. lia.
  - simpl. lia.
Qed.

Lemma digits2_pos_unique (p : positive) (k : Z) :
  2 ^ (k - 1) <= Zpos p < 2 ^ k -> Zpos (digits2_pos p) = k.
Proof.
  intros [Hlo Hhi]. pose proof (digits2_pos_bounds p) as [Dlo Dhi].
  set (d := Zpos (digits2_pos p)) in *.
  assert (0 < k) as Hk.
  { destruct (Z.ltb_spec 0 k); [done |].
    destruct (Z.eq_dec k 0) as [-> | ?]; [simpl in Hhi; lia |].
    rewrite Z.pow_neg_r in Hhi by lia. lia. }
  destruct (Z.lt_trichotomy d k) as [Hlt | [Heq | Hgt]]; [| done |].
  - assert (2 ^ d <= 2 ^ (k - 1)) by (apply Z.pow_le_mono_r; lia). lia.
  - assert (2 ^ k <= 2 ^ (d - 1)) by (apply Z.pow_le_mono_r; lia). lia.
Qed.

Lemma iter_xO (m d : positive) : Zpos (Pos.iter xO m d) = Zpos m * 2 ^ Zpos d.
Proof.
  induction d as [| d IH] using Pos.peano_ind.
  - simpl. lia.
  - rewrite Pos.iter_succ, (Pos2Z.inj_xO (Pos.iter xO m d)), IH, Pos2Z.inj_succ,
      Z.pow_succ_r by lia.
    lia.
Qed.

(** [shl_align] keeps the value and lowers the exponent to [e'] when that
is below [e]. *)
Lemma shl_align_spec (m : positive) (e e' : Z) :
  (e' < e -> exists m', shl_align m e e' = (m', e')
                        /\ Zpos m' = Zpos m * 2 ^ (e - e'))
  /\ (e <= e' -> shl_align m e e' = (m, e)).
Proof.
  unfold shl_align. split; intros H.
  - destruct (e' - e) as [| d | d] eqn:E; try lia.
    exists (Pos.iter xO m d). split; [done |].
    rewrite iter_xO. f_equal. f_equal. lia.
  - destruct (e' - e) as [| d | d] eqn:E; try lia; done.
Qed.

(** Rounding a mantissa that is already in the format changes nothing. *)
Lemma binary_round_aux_canonical (s : bool) (m : positive) (e : Z) :
  bounded prec emax m e = true ->
  binary_round_aux prec emax s (Zpos m) e loc_Exact = S754_finite s m e.
Proof.
  unfold bounded, canonical_mantissa. intros H.
  apply andb_true_iff in H as [Hc He]. apply Z.eqb_eq in Hc.
  unfold binary_round_aux, shr_fexp. simpl Zdigits2. rewrite Hc, Z.sub_diag.
  simpl. rewrite Hc, Z.sub_diag. simpl. by rewrite He.
Qed.

(** *** Shifting a mantissa to the right *)

Lemma iter_pos_nat {A : Type} (f : A -> A) (p : positive) (x : A) :
  SpecFloat.iter_pos f p x = Nat.iter (Pos.to_nat p) f x.
Proof.
  revert x. induction p as [p IH | p IH |]; intros x; simpl SpecFloat.iter_pos.
  - rewrite !IH, Pos2Nat.inj_xI.
    replace (S (2 * Pos.to_nat p)) with (Pos.to_nat p + S (Pos.to_nat p))%nat by lia.
    rewrite Nat.iter_add. f_equal. by rewrite Nat.iter_succ_r.
  - rewrite !IH, Pos2Nat.inj_xO.
    replace (2 * Pos.to_nat p)%nat with (Pos.to_nat p + Pos.to_nat p)%nat by lia.
    by rewrite Nat.iter_add.
  - done.
Qed.

Lemma shr_1_nonneg (m : Z) (r s : bool) :
  0 <= m ->
  shr_1 (Build_shr_record m r s) = Build_shr_record (m / 2) (Z.odd m) (r || s).
Proof.
  intros Hm. rewrite <- Z.div2_div.
  destruct m as [| [p | p |] | p]; try done; lia.
Qed.

(** The lowest [k + 1] bits of [m] are zero when the lowest [k] are and the
bit [k] is. *)
Lemma mod_pow2_succ (m : Z) (k : nat) :
  0 <= m ->
  (m mod 2 ^ Z.of_nat (S k) =? 0)
  = negb (Z.odd (m / 2 ^ Z.of_nat k)) && (m mod 2 ^ Z.of_nat k =? 0).
Proof.
  intros Hm. rewrite Nat2Z.inj_succ, Z.pow_succ_r by lia.
  assert (0 < 2 ^ Z.of_nat k) as Hpow by (apply Z.pow_pos_nonneg; lia).
  rewrite (Z.mul_comm 2), Z.rem_mul_r by lia.
  pose proof (Z.mod_pos_bound m (2 ^ Z.of_nat k) Hpow) as Hb.
  rewrite (Zmod_odd (m / 2 ^ Z.of_nat k)).
  destruct (Z.odd (m / 2 ^ Z.of_nat k)); simpl.
  - apply Z.eqb_neq. lia.
  - by rewrite Z.mul_0_r, Z.add_0_r.
Qed.

(** After [k + 1] shifts the record holds the quotient, the bit that was
shifted out last, and whether a lower bit was set. *)
Lemma shr_iter (m : Z) (k : nat) :
  0 <= m ->
  Nat.iter (S k) shr_1 (Build_shr_record m false false)
  = Build_shr_record (m / 2 ^ Z.of_nat (S k)) (Z.odd (m / 2 ^ Z.of_nat k))
                     (negb (m mod 2 ^ Z.of_nat k =? 0)).
Proof.
  intros Hm. induction k as [| k IH].
  - rewrite Nat.iter_succ. unfold Nat.iter at 1. cbn [nat_rect].
    rewrite shr_1_nonneg by done.
    change (Z.of_nat 1) with 1. change (Z.of_nat 0) with 0.
    by rewrite Z.pow_1_r, Z.pow_0_r, Z.div_1_r, Z.mod_1_r.
  - rewrite Nat.iter_succ, IH, shr_1_nonneg
      by (apply Z.div_pos; [done | apply Z.pow_pos_nonneg; lia]).
    f_equal.
    + rewrite Z.div_div by (try apply Z.pow_pos_nonneg; lia).
      f_equal. rewrite (Nat2Z.inj_succ (S k)), Z.pow_succ_r by lia. lia.
    + rewrite mod_pow2_succ by done.
      by destruct (Z.odd (m / 2 ^ Z.of_nat k)), (m mod 2 ^ Z.of_nat k =? 0).
Qed.

Lemma shr_pos (m e : Z) (p : positive) :
  0 <= m ->
  shr (Build_shr_record m false false) e (Zpos p)
  = (Build_shr_record (m / 2 ^ Zpos p) (Z.odd (m / 2 ^ (Zpos p - 1)))
                      (negb (m mod 2 ^ (Zpos p - 1) =? 0)),
     e + Zpos p).
Proof.
  intros Hm. unfold shr. rewrite iter_pos_nat.
  destruct (Pos2Nat.is_succ p) as [k Hk]. rewrite Hk, shr_iter by done.
  assert (Z.of_nat (S k) = Zpos p) as Hp by (rewrite <- Hk; apply positive_nat_Z).
  rewrite Hp. replace (Z.of_nat k) with (Zpos p - 1) by lia. done.
Qed.

Lemma fexp_eq (z : Z) : fexp prec emax z = Z.max (z - 53) (-1074).
Proof. reflexivity. Qed.

(** The bit below the cut weighs half a unit of the quotient. *)
Lemma odd_div_mod (m n : Z) :
  0 <= m -> 0 < n ->
  Z.odd (m / 2 ^ (n - 1)) = true -> 2 ^ (n - 1) <= m mod 2 ^ n.
Proof.
  intros Hm Hn Hodd.
  assert (0 < 2 ^ (n - 1)) as Hpow by (apply Z.pow_pos_nonneg; lia).
  assert (2 ^ n = 2 ^ (n - 1) * 2) as ->
    by (replace n with (Z.succ (n - 1)) at 1 by lia;
        rewrite Z.pow_succ_r by lia; lia).
  rewrite Z.rem_mul_r by lia.
  rewrite (Zmod_odd (m / 2 ^ (n - 1))), Hodd.
  pose proof (Z.mod_pos_bound m (2 ^ (n - 1)) Hpow). lia.
Qed.

Lemma round_nearest_even_bounds (m : Z) (r s : bool) :
  m <= round_nearest_even m (loc_of_shr_record (Build_shr_record m r s))
    <= m + (if r then 1 else 0).
Proof.
  destruct r, s; simpl; try destruct (IntDef.Z.even m); lia.
Qed.

(** Rounding a product or a sum whose mantissa is too long: the first
shift cuts [e1 - E] bits, the result lies between the truncated mantissa
and half a unit above the exact one. *)
Lemma binary_round_aux_shift (M : positive) (E : Z) :
  let e1 := fexp prec emax (Zpos (digits2_pos M) + E) in
  E < e1 -> e1 - E <= Zpos (digits2_pos M) - 1 -> e1 + 1 <= 971 ->
  exists m2 e2,
    binary_round_aux prec emax false (Zpos M) E loc_Exact = S754_finite false m2 e2
    /\ e1 <= e2
    /\ Zpos M / 2 ^ (e1 - E) <= Zpos m2 * 2 ^ (e2 - e1)
    /\ 2 * (Zpos m2 * 2 ^ (e2 - e1)) * 2 ^ (e1 - E) <= 2 * Zpos M + 2 ^ (e1 - E).
Proof.
  intros e1 HE Hn He1.
  pose proof (digits2_pos_bounds M) as [Dlo Dhi].
  assert (e1 = Z.max (Zpos (digits2_pos M) + E - 53) (-1074)) as He1eq
    by apply fexp_eq.
  unfold binary_round_aux, shr_fexp.
  change (Zdigits2 (Zpos M)) with (Zpos (digits2_pos M)).
  change (fexp prec emax (Zpos (digits2_pos M) + E)) with e1.
  change (shr_record_of_loc (Zpos M) loc_Exact)
    with (Build_shr_record (Zpos M) false false).
  clearbody e1. set (dM := Zpos (digits2_pos M)) in *.
  destruct (e1 - E) as [| p | p] eqn:Hp; try lia.
  rewrite shr_pos by lia. replace (E + Zpos p) with e1 by lia.
  cbv beta iota. cbn [shr_m].
  assert (0 < 2 ^ Zpos p) as Hpow by (apply Z.pow_pos_nonneg; lia).
  set (m1 := Zpos M / 2 ^ Zpos p).
  assert (1 <= m1 < 2 ^ 53) as Hm1.
  { split.
    - apply Z.div_le_lower_bound; [lia |].
      transitivity (2 ^ (dM - 1)); [| lia].
      rewrite Z.mul_1_r. apply Z.pow_le_mono_r; lia.
    - apply Z.div_lt_upper_bound; [lia |].
      rewrite <- Z.pow_add_r by lia.
      eapply Z.lt_le_trans; [apply Dhi |]. apply Z.pow_le_mono_r; lia. }
  set (r := Z.odd (Zpos M / 2 ^ (Zpos p - 1))).
  set (s := negb (Zpos M mod 2 ^ (Zpos p - 1) =? 0)).
  pose proof (round_nearest_even_bounds m1 r s) as Hr.
  set (mr := round_nearest_even m1 _) in *.
  assert (2 * mr * 2 ^ Zpos p <= 2 * Zpos M + 2 ^ Zpos p) as Hup.
  { pose proof (Z.div_mod (Zpos M) (2 ^ Zpos p) ltac:(lia)) as Hdm.
    fold m1 in Hdm.
    pose proof (Z.mod_pos_bound (Zpos M) (2 ^ Zpos p) Hpow) as Hmod.
    destruct r eqn:Er.
    - pose proof (odd_div_mod (Zpos M) (Zpos p) ltac:(lia) ltac:(lia) Er) as Hbit.
      assert (2 ^ Zpos p = 2 * 2 ^ (Zpos p - 1)) as Hhalf
        by (rewrite <- Z.pow_succ_r by lia; f_equal; lia).
      nia.
    - nia. }
  assert (1 <= mr <= 2 ^ 53) as Hmr by (destruct r; lia).
  assert (m1 <= mr) as Hlow by lia.
  clearbody mr. clear Hr.
  destruct mr as [| q | q]; try lia.
  change (Zdigits2 (Zpos q)) with (Zpos (digits2_pos q)).
  change (shr_record_of_loc (Zpos q) loc_Exact)
    with (Build_shr_record (Zpos q) false false).
  pose proof (digits2_pos_bounds q) as [Qlo Qhi].
  set (dq := Zpos (digits2_pos q)) in *.
  assert (dq <= 54) as Hdq.
  { destruct (Z.le_gt_cases dq 54) as [? | Hgt]; [done |].
    assert (2 ^ 54 <= 2 ^ (dq - 1)) by (apply Z.pow_le_mono_r; lia). lia. }
  rewrite fexp_eq.
  destruct (Z.max (dq + e1 - 53) (-1074) - e1) as [| p2 | p2] eqn:Hp2.
  - cbn [shr fst snd shr_m].
    replace (e1 <=? emax - prec) with true by (symmetry; apply Z.leb_le; unfold emax, prec; lia).
    exists q, e1. rewrite Z.sub_diag, Z.pow_0_r. split; [done |]. lia.
  - assert (dq = 54 /\ Zpos p2 = 1) as [Hd54 Hp1] by lia.
    assert (Zpos q = 2 ^ 53) as Hq.
    { rewrite Hd54 in Qlo. change (54 - 1) with 53 in Qlo. lia. }
    rewrite shr_pos by lia. cbv beta iota. cbn [shr_m].
    rewrite Hq, Hp1. change (2 ^ 53 / 2 ^ 1) with (Zpos 4503599627370496).
    replace (e1 + 1 <=? emax - prec) with true by (symmetry; apply Z.leb_le; unfold emax, prec; lia).
    exists 4503599627370496%positive, (e1 + 1).
    replace (e1 + 1 - e1) with 1 by lia.
    change (Zpos 4503599627370496 * 2 ^ 1) with (2 ^ 53). rewrite <- Hq.
    split; [done |]. lia.
  - cbn [shr fst snd shr_m].
    replace (e1 <=? emax - prec) with true by (symmetry; apply Z.leb_le; unfold emax, prec; lia).
    exists q, e1. rewrite Z.sub_diag, Z.pow_0_r. split; [done |]. lia.
Qed.

Lemma digits2_pos_shift (m M : positive) (k : Z) :
  0 <= k -> Zpos M = Zpos m * 2 ^ k ->
  Zpos (digits2_pos M) = Zpos (digits2_pos m) + k.
Proof.
  intros Hk HM. apply digits2_pos_unique.
  pose proof (digits2_pos_bounds m) as [Dlo Dhi].
  assert (0 < 2 ^ k) as Hpow by (apply Z.pow_pos_nonneg; lia).
  replace (Zpos (digits2_pos m) + k - 1) with (Zpos (digits2_pos m) - 1 + k) by lia.
  rewrite !Z.pow_add_r by lia. nia.
Qed.

(** A value that the format holds is rounded to its canonical
representation, whatever mantissa and exponent it was given with. *)
Lemma binary_round_exact (s : bool) (M m : positive) (E e : Z) :
  bounded prec emax m e = true ->
  (e <= E /\ Zpos m = Zpos M * 2 ^ (E - e))
  \/ (E < e /\ Zpos M = Zpos m * 2 ^ (e - E)) ->
  binary_round prec emax s M E = S754_finite s m e.
Proof.
  intros Hb Hval. pose proof Hb as Hb'.
  unfold bounded, canonical_mantissa in Hb'.
  apply andb_true_iff in Hb' as [Hc He]. apply Z.eqb_eq in Hc.
  apply Z.leb_le in He.
  unfold binary_round.
  assert (Zpos (digits2_pos M) + E = Zpos (digits2_pos m) + e) as Hd.
  { destruct Hval as [[Hle Hm] | [Hlt HM]].
    - rewrite (digits2_pos_shift M m (E - e)) by (done || lia). lia.
    - rewrite (digits2_pos_shift m M (e - E)) by (done || lia). lia. }
  rewrite Hd, Hc.
  destruct Hval as [[Hle Hm] | [Hlt HM]].
  - destruct (Z.eq_dec e E) as [-> | Hne].
    + rewrite (proj2 (shl_align_spec M E E)) by lia.
      rewrite Z.sub_diag, Z.pow_0_r, Z.mul_1_r in Hm.
      injection Hm as <-. by apply binary_round_aux_canonical.
    + destruct (proj1 (shl_align_spec M E e)) as (m' & -> & Hm'); [lia |].
      rewrite <- Hm in Hm'. injection Hm' as ->.
      by apply binary_round_aux_canonical.
  - rewrite (proj2 (shl_align_spec M E e)) by lia.
    unfold binary_round_aux, shr_fexp.
    change (Zdigits2 (Zpos M)) with (Zpos (digits2_pos M)).
    rewrite Hd, Hc.
    change (shr_record_of_loc (Zpos M) loc_Exact)
      with (Build_shr_record (Zpos M) false false).
    destruct (e - E) as [| p | p] eqn:Hp; try lia.
    rewrite shr_pos by lia. replace (E + Zpos p) with e by lia.
    cbv beta iota. cbn [shr_m].
    assert (0 < 2 ^ (Zpos p - 1)) as Hpow by (apply Z.pow_pos_nonneg; lia).
    assert (2 ^ Zpos p = 2 ^ (Zpos p - 1) * 2) as Hhalf.
    { replace (Zpos p) with (Z.succ (Zpos p - 1)) at 1 by lia.
      rewrite Z.pow_succ_r by lia. lia. }
    replace (Zpos M / 2 ^ Zpos p) with (Zpos m)
      by (rewrite HM; symmetry; apply Z.div_mul; lia).
    assert (Zpos M = Zpos m * 2 * 2 ^ (Zpos p - 1)) as HM2
      by (rewrite HM, Hhalf; lia).
    replace (Zpos M / 2 ^ (Zpos p - 1)) with (Zpos m * 2)
      by (rewrite HM2; symmetry; apply Z.div_mul; lia).
    replace (Zpos M mod 2 ^ (Zpos p - 1)) with 0
      by (rewrite HM2; symmetry; apply Z.mod_mul; lia).
    rewrite Z.odd_mul, andb_false_r. cbn [Z.eqb negb loc_of_shr_record round_nearest_even].
    change (Zdigits2 (Zpos m)) with (Zpos (digits2_pos m)).
    rewrite Hc, Z.sub_diag. cbn [shr shr_record_of_loc shr_m fst snd].
    by rewrite (proj2 (Z.leb_le _ _) He).
Qed.

(** *** The integer part and the fractional part *)

Lemma bounded_spec (m : positive) (e : Z) :
  bounded prec emax m e = true
  <-> Z.max (Zpos (digits2_pos m) + e - 53) (-1074) = e /\ e <= 971.
Proof.
  unfold bounded, canonical_mantissa.
  by rewrite andb_true_iff, Z.eqb_eq, Z.leb_le, fexp_eq.
Qed.

Lemma digits2_pos_le (m : positive) (k : Z) :
  Zpos m < 2 ^ k -> Zpos (digits2_pos m) <= k.
Proof.
  intros Hm. pose proof (digits2_pos_bounds m) as [Dlo _].
  destruct (Z.le_gt_cases (Zpos (digits2_pos m)) k) as [? | Hgt]; [done |].
  assert (2 ^ k <= 2 ^ (Zpos (digits2_pos m) - 1))
    by (apply Z.pow_le_mono_r; lia).
  lia.
Qed.

(** A short mantissa in the normal range is shifted up to 53 bits. *)
Lemma binary_round_normal (s : bool) (N : positive) (E : Z) :
  Zpos (digits2_pos N) <= 53 ->
  -1074 <= Zpos (digits2_pos N) + E - 53 <= 971 ->
  exists m,
    binary_round prec emax s N E
    = S754_finite s m (Zpos (digits2_pos N) + E - 53)
    /\ bounded prec emax m (Zpos (digits2_pos N) + E - 53) = true
    /\ Zpos m = Zpos N * 2 ^ (53 - Zpos (digits2_pos N)).
Proof.
  intros Hd Hrange. set (d := Zpos (digits2_pos N)) in *.
  assert (0 < Zpos N * 2 ^ (53 - d)) as Hpos
    by (apply Z.mul_pos_pos; [lia | apply Z.pow_pos_nonneg; lia]).
  exists (Z.to_pos (Zpos N * 2 ^ (53 - d))).
  rewrite Z2Pos.id by done.
  assert (bounded prec emax (Z.to_pos (Zpos N * 2 ^ (53 - d))) (d + E - 53) = true)
    as Hb.
  { apply bounded_spec.
    rewrite (digits2_pos_shift N _ (53 - d)) by (rewrite ?Z2Pos.id; lia).
    fold d. lia. }
  split; [| done].
  apply binary_round_exact; [done |]. left. split; [lia |].
  rewrite Z2Pos.id by done. f_equal. f_equal. lia.
Qed.

Lemma Floor_integer (m : positive) (e : Z) :
  bounded prec emax m e = true -> 0 <= e ->
  Floor (S754_finite false m e) = S754_finite false m e.
Proof.
  intros Hb He. unfold Floor, floorZ.
  destruct e as [| p | p]; [| | lia].
  - apply (binary_round_exact false m m 0 0); [done |]. left. split; lia.
  - assert (0 < Zpos m * 2 ^ Zpos p) as Hpos
      by (apply Z.mul_pos_pos; [lia | apply Z.pow_pos_nonneg; lia]).
    destruct (Zpos m * 2 ^ Zpos p) as [| M | M] eqn:HM; try lia.
    apply (binary_round_exact false M m 0 (Zpos p)); [done |].
    right. split; [lia |]. by rewrite Z.sub_0_r.
Qed.

Lemma Floor_small (m : positive) (e : Z) :
  e < 0 -> Zpos m < 2 ^ (- e) ->
  Floor (S754_finite false m e) = S754_zero false.
Proof.
  intros He Hm. unfold Floor, floorZ. destruct e as [| p | p]; try lia.
  change (- Zneg p) with (Zpos p) in Hm.
  by rewrite Z.div_small by lia.
Qed.

(** A number of at least one has a full mantissa, and its floor has the
same exponent. *)
Lemma Floor_large (m : positive) (e : Z) :
  bounded prec emax m e = true -> e < 0 -> 2 ^ (- e) <= Zpos m ->
  exists mF,
    Floor (S754_finite false m e) = S754_finite false mF e
    /\ Zpos mF = Zpos m / 2 ^ (- e) * 2 ^ (- e).
Proof.
  intros Hb He Hm. apply bounded_spec in Hb as [Hc Hmax].
  pose proof (digits2_pos_bounds m) as [Dlo Dhi].
  set (dm := Zpos (digits2_pos m)) in *.
  assert (- e < dm) as Hk.
  { destruct (Z.lt_ge_cases (- e) dm) as [? | Hge]; [done |].
    assert (2 ^ dm <= 2 ^ (- e)) by (apply Z.pow_le_mono_r; lia). lia. }
  assert (dm = 53) as Hdm by lia. rewrite Hdm in Dlo, Dhi.
  change (53 - 1) with 52 in Dlo.
  unfold Floor, floorZ. destruct e as [| p | p]; try lia.
  change (- Zneg p) with (Zpos p) in *.
  assert (0 < 2 ^ Zpos p) as Hpow by (apply Z.pow_pos_nonneg; lia).
  assert (2 ^ Zpos p * 2 ^ (52 - Zpos p) = 2 ^ 52) as H52
    by (rewrite <- Z.pow_add_r by lia; f_equal; lia).
  assert (2 ^ Zpos p * 2 ^ (53 - Zpos p) = 2 ^ 53) as H53
    by (rewrite <- Z.pow_add_r by lia; f_equal; lia).
  assert (2 ^ (52 - Zpos p) <= Zpos m / 2 ^ Zpos p < 2 ^ (53 - Zpos p)) as Hn.
  { split.
    - apply Z.div_le_lower_bound; lia.
    - apply Z.div_lt_upper_bound; lia. }
  assert (0 < 2 ^ (52 - Zpos p)) by (apply Z.pow_pos_nonneg; lia).
  destruct (Zpos m / 2 ^ Zpos p) as [| n | n] eqn:En; try lia.
  assert (Zpos (digits2_pos n) = 53 - Zpos p) as Hdn.
  { apply digits2_pos_unique. by replace (53 - Zpos p - 1) with (52 - Zpos p) by lia. }
  destruct (binary_round_normal false n 0) as (mF & HF & _ & HmF);
    [lia | lia |].
  rewrite Hdn in HF, HmF. exists mF. split.
  - cbn [binary_normalize]. rewrite HF. f_equal. lia.
  - rewrite HmF. f_equal. f_equal. lia.
Qed.

(** [seconds - math.Floor(seconds)] is computed without error: it is zero,
or the canonical representation of the low bits of the mantissa. *)
Lemma fraction_spec (m : positive) (e : Z) :
  bounded prec emax m e = true -> e < 0 ->
  let x := S754_finite false m e in
  let D := Zpos m mod 2 ^ (- e) in
  (D = 0 /\ sub x (Floor x) = S754_zero false)
  \/ (exists mf ef,
        sub x (Floor x) = S754_finite false mf ef
        /\ bounded prec emax mf ef = true
        /\ ef <= e
        /\ Zpos mf = D * 2 ^ (e - ef)).
Proof.
  intros Hb He x D. subst x.
  assert (0 < 2 ^ (- e)) as Hpow by (apply Z.pow_pos_nonneg; lia).
  destruct (Z.lt_ge_cases (Zpos m) (2 ^ (- e))) as [Hlt | Hge].
  - right. rewrite Floor_small by done. exists m, e.
    subst D. rewrite Z.mod_small by lia.
    rewrite Z.sub_diag, Z.pow_0_r. split; [done |]. split; [done |]. lia.
  - destruct (Floor_large m e Hb He Hge) as (mF & -> & HmF).
    pose proof (Z.div_mod (Zpos m) (2 ^ (- e)) ltac:(lia)) as Hdm.
    pose proof (Z.mod_pos_bound (Zpos m) (2 ^ (- e)) Hpow) as HD. fold D in Hdm, HD.
    unfold sub, SFsub.
    change (IntDef.Z.min e e) with (Z.min e e). rewrite Z.min_id.
    rewrite !(proj2 (shl_align_spec _ e e)) by lia.
    cbn [fst cond_Zopp].
    replace (Zpos m - Zpos mF) with D by lia.
    destruct D as [| D' | D'] eqn:ED; try lia.
    + left. done.
    + right. cbn [binary_normalize].
      apply bounded_spec in Hb as [Hc Hmax].
      pose proof (digits2_pos_bounds m) as [Dlo Dhi].
      assert (Zpos (digits2_pos m) <= 53) as Hdm53 by lia.
      assert (Zpos m < 2 ^ 53) as Hm53.
      { eapply Z.lt_le_trans; [apply Dhi |]. apply Z.pow_le_mono_r; lia. }
      assert (- 52 <= e) as He52.
      { destruct (Z.le_gt_cases (- 52) e) as [? | Hgt]; [done |].
        assert (2 ^ 53 <= 2 ^ (- e)) by (apply Z.pow_le_mono_r; lia). lia. }
      assert (Zpos (digits2_pos D') <= 53) as HdD
        by (apply digits2_pos_le; lia).
      pose proof (digits2_pos_bounds D') as [_ HdD1].
      destruct (binary_round_normal false D' e) as (mf & Hf & Hbf & Hmf);
        [done | lia |].
      exists mf, (Zpos (digits2_pos D') + e - 53).
      split; [done |]. split; [done |]. split; [lia |].
      rewrite Hmf. f_equal. f_equal. lia.
Qed.

(** *** The centiseconds *)

Lemma of_Z_100 : of_Z 100 = S754_finite false 7036874417766400 (-46).
Proof. vm_compute. reflexivity. Qed.

(** The floor of a number given on a finer grid [2 ^ e1]. *)
Lemma floorZ_scaled (m : positive) (e e1 : Z) :
  e1 <= e -> e1 <= 0 ->
  floorZ (S754_finite false m e) = Zpos m * 2 ^ (e - e1) / 2 ^ (- e1).
Proof.
  intros He He1.
  assert (0 < 2 ^ (- e1)) as Hpow by (apply Z.pow_pos_nonneg; lia).
  unfold floorZ. destruct e as [| p | p].
  - rewrite Z.sub_0_l. symmetry. apply Z.div_mul. lia.
  - replace (Zpos p - e1) with (Zpos p + - e1) by lia.
    rewrite Z.pow_add_r, Z.mul_assoc by lia. symmetry. apply Z.div_mul. lia.
  - assert (0 < 2 ^ (Zneg p - e1)) by (apply Z.pow_pos_nonneg; lia).
    replace (2 ^ (- e1)) with (2 ^ Zpos p * 2 ^ (Zneg p - e1))
      by (rewrite <- Z.pow_add_r by lia; f_equal; lia).
    rewrite Z.div_mul_cancel_r; [done | | lia].
    apply Z.pow_nonzero; lia.
Qed.

(** The product of a fraction below one with 100, as binary64 forms it: its
integer part is the truncated exact product [T] or, when the exact product
is within [2 ^ -47] of the next integer, [T + 1]; it never reaches 100. *)
Lemma centis_spec (mf : positive) (ef : Z) :
  bounded prec emax mf ef = true -> ef < 0 -> Zpos mf < 2 ^ (- ef) ->
  exists m2 e2,
    mul (S754_finite false mf ef) (of_Z 100) = S754_finite false m2 e2
    /\ let T := 100 * Zpos mf / 2 ^ (- ef) in
       let c := floorZ (S754_finite false m2 e2) in
       T <= c <= T + 1 /\ c <= 99
       /\ (c = T + 1 -> 2 ^ 47 * ((T + 1) * 2 ^ (- ef) - 100 * Zpos mf) <= 2 ^ (- ef)).
Proof.
  intros Hb Hef Hlt1. apply bounded_spec in Hb as [Hc Hmax].
  rewrite of_Z_100. unfold mul, SFmul. cbn [xorb].
  set (M := (mf * 7036874417766400)%positive).
  assert (Zpos M = Zpos mf * (100 * 2 ^ 46)) as HM by (subst M; lia).
  pose proof (digits2_pos_bounds mf) as [Flo Fhi].
  pose proof (digits2_pos_le mf (- ef) Hlt1) as Hdf.
  set (dmf := Zpos (digits2_pos mf)) in *.
  assert (0 < 2 ^ (dmf - 1)) as Hpf by (apply Z.pow_pos_nonneg; lia).
  assert (dmf + 52 <= Zpos (digits2_pos M) <= dmf + 53) as HdM.
  { split.
    - pose proof (digits2_pos_bounds M) as [_ Dhi].
      destruct (Z.le_gt_cases (dmf + 52) (Zpos (digits2_pos M))) as [? | Hgt]; [done |].
      assert (2 ^ Zpos (digits2_pos M) <= 2 ^ (dmf - 1 + 52))
        by (apply Z.pow_le_mono_r; lia).
      rewrite Z.pow_add_r in * by lia. lia.
    - apply digits2_pos_le. rewrite Z.pow_add_r by lia. lia. }
  destruct (binary_round_aux_shift M (ef + -46)) as (m2 & e2 & -> & He2 & Hlo & Hup).
  { rewrite fexp_eq. lia. }
  { rewrite fexp_eq. lia. }
  { rewrite fexp_eq. lia. }
  exists m2, e2. split; [done |].
  rewrite fexp_eq in He2, Hlo, Hup.
  set (e1 := Z.max (Zpos (digits2_pos M) + (ef + -46) - 53) (-1074)) in *.
  assert (e1 <= -46) as He46 by lia.
  assert (0 < e1 - (ef + -46) <= 53) as Hn by lia.
  assert (e1 - (ef + -46) <= - ef) as HnR by lia.
  rewrite (floorZ_scaled m2 e2 e1) by lia.
  set (v := Zpos m2 * 2 ^ (e2 - e1)) in *.
  set (P := 2 ^ (e1 - (ef + -46))) in *.
  set (Q := 2 ^ (- e1)).
  set (R := 2 ^ (- ef)) in *.
  assert (0 < P <= 2 ^ 53) as HP.
  { split; [apply Z.pow_pos_nonneg; lia | apply Z.pow_le_mono_r; lia]. }
  assert (P <= R) as HPR by (apply Z.pow_le_mono_r; lia).
  assert (0 < Q) as HQ by (apply Z.pow_pos_nonneg; lia).
  assert (P * Q = 2 ^ 46 * R) as HPQ.
  { subst P Q R. rewrite <- !Z.pow_add_r by lia. f_equal. lia. }
  assert (0 < R) as HR by (apply Z.pow_pos_nonneg; lia).
  assert (100 * Zpos mf / R = Zpos M / P / Q) as HT.
  { rewrite Z.div_div, HPQ, HM by lia.
    replace (Zpos mf * (100 * 2 ^ 46)) with (100 * Zpos mf * 2 ^ 46) by lia.
    rewrite (Z.mul_comm (2 ^ 46) R).
    symmetry. apply Z.div_mul_cancel_r; lia. }
  cbv zeta. set (T := 100 * Zpos mf / R) in *.
  assert (T * (P * Q) <= Zpos M < (T + 1) * (P * Q)) as HTM.
  { rewrite HT, Z.div_div by lia.
    pose proof (Z.div_mod (Zpos M) (P * Q) ltac:(lia)).
    pose proof (Z.mod_pos_bound (Zpos M) (P * Q) ltac:(lia)). lia. }
  assert (T <= v / Q) as Hlow.
  { rewrite HT. apply Z.div_le_mono; lia. }
  assert (v < (T + 2) * Q) as Hv2 by nia.
  assert (v < 100 * Q) as Hv100 by nia.
  assert (v / Q <= T + 1) as Hhigh.
  { apply Z.lt_succ_r. apply Z.div_lt_upper_bound; lia. }
  assert (v / Q <= 99) as H99.
  { apply Z.lt_succ_r. apply Z.div_lt_upper_bound; lia. }
  split; [lia |]. split; [lia |].
  intros Hc1.
  assert ((T + 1) * Q <= v) as Hv1.
  { rewrite <- Hc1. rewrite (Z.mul_comm _ Q). apply Z.mul_div_le. lia. }
  change (2 ^ 47) with (2 * 2 ^ 46). nia.
Qed.

End RoundProofs.

(* ------------------------------------------------------------------ *)
(** ** The time code *)

Module TimeProofs.

Import F64 FloatSpec TimeSpec Ass RoundProofs.
Local Open Scope string_scope.
Local Open Scope Z_scope.

Lemma below_cases (P : Z -> Prop) (b : nat) (n : Z) :
  Forall (fun k => P (Z.of_nat k)) (seq 0 b) ->
  0 <= n < Z.of_nat b -> P n.
Proof.
  intros Hall Hn. rewrite Forall_forall in Hall.
  rewrite <- (Z2Nat.id n) by lia. apply Hall, elem_of_seq. lia.
Qed.

Lemma below_casesb (f : Z -> bool) (b : nat) (n : Z) :
  forallb (fun k => f (Z.of_nat k)) (seq 0 b) = true ->
  0 <= n < Z.of_nat b -> f n = true.
Proof.
  intros Hall Hn. rewrite <- (Z2Nat.id n) by lia.
  apply (proj1 (forallb_forall _ _) Hall (Z.to_nat n)), in_seq. lia.
Qed.

Lemma digitOf_digitChar (d : Z) :
  0 <= d < 10 -> digitOf (Sprintf.digitChar d) = Some d.
Proof.
  apply (below_cases (fun d => digitOf (Sprintf.digitChar d) = Some d) 10).
  repeat constructor.
Qed.

Lemma digitChar_zero (d : Z) :
  0 <= d < 10 -> Sprintf.digitChar d = "0"%char -> d = 0.
Proof.
  apply (below_cases (fun d => Sprintf.digitChar d = "0"%char -> d = 0) 10).
  repeat constructor; intros; discriminate.
Qed.

Lemma verb_02d_two (n : Z) :
  0 <= n < 100 -> Sprintf.verb_02d n = twoDigits n.
Proof.
  intros Hn. apply String.eqb_eq.
  apply (below_casesb
           (fun n => (Sprintf.verb_02d n =? twoDigits n)%string) 100);
    [| done].
  vm_compute. reflexivity.
Qed.

Lemma to_int_small (c : Z) :
  0 <= c < 100 -> to_int (binary_normalize prec emax c 0 false) = c.
Proof.
  intros Hc. apply Z.eqb_eq.
  apply (below_casesb
           (fun c => to_int (binary_normalize prec emax c 0 false) =? c) 100);
    [| done].
  vm_compute. reflexivity.
Qed.

Lemma append_nil (t : string) : EmptyString ++ t = t.
Proof. reflexivity. Qed.

Lemma append_String (a : ascii) (s t : string) :
  String a s ++ t = String a (s ++ t).
Proof. reflexivity. Qed.

Lemma append_cons (s : string) (c : ascii) (t : string) :
  (s ++ String c EmptyString) ++ t = s ++ String c t.
Proof.
  induction s as [| a s IH]; [done |].
  by rewrite !append_String, IH.
Qed.

(** The digits [digitsN] puts in front of [acc] spell [n], most
significant digit first, and start with a zero only for zero. *)
Lemma digitsN_spec (fuel : nat) (n : Z) (acc : string) :
  (1 <= fuel)%nat -> 0 <= n < 2 ^ Z.of_nat fuel ->
  exists c ds k,
    Sprintf.digitsN fuel 10 n acc = String c (ds ++ acc)
    /\ (c = "0"%char -> n = 0)
    /\ forall a rest,
         numeralValue a (String c (ds ++ rest)) = numeralValue (a * k + n) rest.
Proof.
  revert n acc. induction fuel as [| fuel IH]; intros n acc Hf Hn; [lia |].
  cbn [Sprintf.digitsN]. cbv zeta.
  pose proof (Z.mod_pos_bound n 10 ltac:(lia)) as Hmod.
  destruct (Z.ltb_spec n 10) as [Hlt | Hge].
  - exists (Sprintf.digitChar (n mod 10)), EmptyString, 10.
    rewrite Z.mod_small by lia. split; [done |]. split.
    + intros Hz. apply digitChar_zero; [lia | done].
    + intros a rest. rewrite append_nil. cbn [numeralValue].
      by rewrite digitOf_digitChar by lia.
  - rewrite Nat2Z.inj_succ, Z.pow_succ_r in Hn by lia.
    assert (6 <= 2 ^ Z.of_nat fuel) as H8 by lia.
    assert (1 <= fuel)%nat as Hf'.
    { destruct fuel; [simpl in H8; lia | lia]. }
    assert (0 < n / 10 < 2 ^ Z.of_nat fuel) as Hq.
    { split; [apply Z.div_str_pos; lia |].
      apply Z.div_lt_upper_bound; lia. }
    destruct (IH (n / 10) (String (Sprintf.digitChar (n mod 10)) acc) Hf' ltac:(lia))
      as (c & ds & k & -> & Hc & Hval).
    exists c, (ds ++ String (Sprintf.digitChar (n mod 10)) EmptyString), (k * 10).
    rewrite append_cons. split; [done |]. split; [intros Hz; apply Hc in Hz; lia |].
    intros a rest. rewrite append_cons, Hval. cbn [numeralValue].
    rewrite digitOf_digitChar by lia.
    f_equal. pose proof (Z.div_mod n 10 ltac:(lia)). lia.
Qed.

(** [%d] writes a number that is not negative without padding. *)
Lemma verb_d_numeral (n : Z) : 0 <= n -> isNumeral (Sprintf.verb_d n) n = true.
Proof.
  intros Hn. destruct (Z.eq_dec n 0) as [-> | Hn0]; [reflexivity |].
  unfold Sprintf.verb_d, Sprintf.padded.
  rewrite (proj2 (Z.ltb_ge n 0)) by done. rewrite Z.abs_eq by done.
  cbn [String.length Nat.sub Sprintf.zeros]. rewrite !append_nil.
  unfold Sprintf.digits.
  destruct (digitsN_spec (S (Z.to_nat (Z.log2 n))) n EmptyString)
    as (c & ds & k & -> & Hc & Hval).
  { lia. }
  { split; [done |].
    rewrite Nat2Z.inj_succ, Z2Nat.id by apply Z.log2_nonneg.
    apply Z.log2_spec. lia. }
  unfold isNumeral. rewrite Hval. cbn [numeralValue].
  rewrite Z.mul_0_l, Z.add_0_l, Z.eqb_refl.
  rewrite (proj2 (Z.eqb_neq n 0)) by done.
  cbn [String.prefix andb]. destruct (ascii_dec "0" c) as [<- | ?]; [| done].
  by specialize (Hc eq_refl).
Qed.

Lemma nonNegative_cases (x : float64) :
  nonNegative x = true ->
  x = S754_zero false
  \/ exists m e, x = S754_finite false m e /\ bounded prec emax m e = true.
Proof.
  unfold nonNegative, valid.
  destruct x as [[] | [] | | [] m e]; cbn; try discriminate; eauto.
  all: try (rewrite ?andb_false_r; discriminate).
  rewrite !andb_true_r. eauto.
Qed.

(** [int(seconds)] is the floor of a number that is not negative and
below [2 ^ 63]. *)
Lemma to_int_nonneg (x : float64) :
  nonNegative x = true -> floorZ x < 2 ^ 63 ->
  to_int x = floorZ x /\ 0 <= floorZ x.
Proof.
  intros [-> | (m & e & -> & Hb)]%nonNegative_cases Hx; [done |].
  unfold to_int, trunc. unfold floorZ in *.
  set (t := match e with
            | 0 => Zpos m
            | Zpos p => Zpos m * 2 ^ Zpos p
            | Zneg p => Zpos m / 2 ^ Zpos p
            end) in *.
  assert (0 <= t) as Ht.
  { subst t. destruct e as [| p | p]; [lia | |].
    - apply Z.mul_nonneg_nonneg; [lia | apply Z.pow_nonneg; lia].
    - apply Z.div_pos; [lia | apply Z.pow_pos_nonneg; lia]. }
  cbv zeta.
  rewrite (proj2 (Z.leb_le (- 2 ^ 63) t)) by lia.
  by rewrite (proj2 (Z.ltb_lt t (2 ^ 63))) by lia.
Qed.

Lemma centis_zero :
  to_int (Floor (mul (S754_zero false) (of_Z 100))) = 0.
Proof. vm_compute. reflexivity. Qed.

(** The centiseconds of the time code: the floor of the binary64 product
of the fractional part with 100. *)
Lemma centis_of (x : float64) :
  nonNegative x = true ->
  let cc := to_int (Floor (mul (sub x (Floor x)) (of_Z 100))) in
  0 <= cc <= 99
  /\ (cc = truncatedCentis x
      \/ (cc = truncatedCentis x + 1 /\ nearNextCenti x = true)).
Proof.
  intros [-> | (m & e & -> & Hb)]%nonNegative_cases cc; subst cc.
  { split; [done | by left]. }
  destruct (Z.le_gt_cases 0 e) as [He | He].
  - rewrite Floor_integer by done.
    assert (sub (S754_finite false m e) (S754_finite false m e) = S754_zero false)
      as ->.
    { unfold sub, SFsub. change (IntDef.Z.min e e) with (Z.min e e).
      rewrite Z.min_id, (proj2 (shl_align_spec m e e)) by lia.
      cbn [fst cond_Zopp]. by rewrite Z.sub_diag. }
    rewrite centis_zero. split; [lia |]. left.
    destruct e; [done | done | lia].
  - destruct (fraction_spec m e Hb He) as [[HD ->] | (mf & ef & -> & Hbf & Hef & Hmf)].
    + rewrite centis_zero. split; [lia |]. left.
      destruct e as [| p | p]; try lia. cbn [truncatedCentis].
      change (- Zneg p) with (Zpos p) in HD. by rewrite HD.
    + destruct e as [| p | p]; try lia.
      change (- Zneg p) with (Zpos p) in *. cbn [truncatedCentis nearNextCenti].
      assert (0 < 2 ^ Zpos p) as Hpow by (apply Z.pow_pos_nonneg; lia).
      pose proof (Z.mod_pos_bound (Zpos m) (2 ^ Zpos p) Hpow) as HD.
      set (D := Zpos m mod 2 ^ Zpos p) in *.
      set (S := 2 ^ (Zneg p - ef)) in *.
      assert (0 < S) as HS by (apply Z.pow_pos_nonneg; lia).
      assert (2 ^ (- ef) = 2 ^ Zpos p * S) as HR
        by (subst S; rewrite <- Z.pow_add_r by lia; f_equal; lia).
      destruct (centis_spec mf ef Hbf ltac:(lia)) as (m2 & e2 & -> & Hc).
      { rewrite HR, Hmf. nia. }
      cbv zeta in Hc. rewrite HR, Hmf in Hc.
      replace (100 * (D * S) / (2 ^ Zpos p * S)) with (100 * D / 2 ^ Zpos p) in Hc
        by (rewrite Z.mul_assoc; symmetry; apply Z.div_mul_cancel_r; lia).
      set (T := 100 * D / 2 ^ Zpos p) in *.
      destruct Hc as (HT & H99 & Hnear).
      assert (0 <= T) as HT0
        by (apply Z.div_pos; lia).
      assert (to_int (Floor (S754_finite false m2 e2))
              = floorZ (S754_finite false m2 e2)) as ->
        by (unfold Floor; apply to_int_small; lia).
      split; [lia |].
      destruct (Z.eq_dec (floorZ (S754_finite false m2 e2)) T) as [? | Hne];
        [by left | right].
      split; [lia |]. apply Z.leb_le.
      specialize (Hnear ltac:(lia)). nia.
Qed.
(** X1. [formatTime], for a number of seconds that is finite, not negative
    and below [2 ^ 63]: the time code is the hours of the whole seconds in
    decimal without padding, then [:], the minutes and the seconds in two
    digits each, then [.] and two digits of centiseconds. The centiseconds
    are between 0 and 99; they are the hundredths of the exact value cut
    off, or one more when the exact hundredths lie within [2 ^ -47] of the
    next integer (the product with 100 is rounded before the floor is
    taken). *)
Theorem formatTime_format (x : float64) :
  nonNegative x = true -> floorZ x < 2 ^ 63 ->
  exists h cc,
    formatTime x
    = h ++ ":" ++ twoDigits (floorZ x mod 3600 / 60) ++ ":"
        ++ twoDigits (floorZ x mod 60) ++ "." ++ twoDigits cc
    /\ isNumeral h (floorZ x / 3600) = true
    /\ 0 <= cc <= 99
    /\ (cc = truncatedCentis x
        \/ (cc = truncatedCentis x + 1 /\ nearNextCenti x = true)).
Proof.
  intros Hx Hlt.
  destruct (to_int_nonneg x Hx Hlt) as [Hi HN].
  pose proof (centis_of x Hx) as [Hcc Hrel]. cbv zeta in Hcc, Hrel.
  unfold formatTime. cbv zeta. rewrite Hi.
  set (N := floorZ x) in *.
  set (cc := to_int (Floor (mul (sub x (Floor x)) (of_Z 100)))) in *.
  rewrite (Z.quot_div_nonneg N 3600), (Z.rem_mod_nonneg N 3600),
    (Z.rem_mod_nonneg N 60) by lia.
  pose proof (Z.mod_pos_bound N 3600 ltac:(lia)) as H3600.
  pose proof (Z.mod_pos_bound N 60 ltac:(lia)) as H60.
  rewrite (Z.quot_div_nonneg (N mod 3600) 60) by lia.
  assert (0 <= N mod 3600 / 60 < 100) as Hmin.
  { split; [apply Z.div_pos; lia | apply Z.div_lt_upper_bound; lia]. }
  rewrite !verb_02d_two by lia.
  exists (Sprintf.verb_d (N / 3600)), cc.
  split; [done |]. split; [| done].
  apply verb_d_numeral, Z.div_pos; lia.
Qed.

(** 59.999 seconds. *)
Lemma formatTime_format_witness :
  exists h cc,
    formatTime (of_dec 59999 3)
    = h ++ ":" ++ twoDigits (floorZ (of_dec 59999 3) mod 3600 / 60) ++ ":"
        ++ twoDigits (floorZ (of_dec 59999 3) mod 60) ++ "." ++ twoDigits cc
    /\ isNumeral h (floorZ (of_dec 59999 3) / 3600) = true
    /\ 0 <= cc <= 99
    /\ (cc = truncatedCentis (of_dec 59999 3)
        \/ (cc = truncatedCentis (of_dec 59999 3) + 1
            /\ nearNextCenti (of_dec 59999 3) = true)).
Proof.
  apply (formatTime_format (of_dec 59999 3)); vm_compute; reflexivity.
Defined.

End TimeProofs.

(** ** From the probe to the parser *)

Module DispatchProofs.

Import F64 Parser.
Local Open Scope string_scope.
Local Arguments Strings.take : simpl never.
Local Arguments Strings.drop : simpl never.

Lemma classify_formats (content : string) (format : Format) :
  classify content = (format, None) ->
  format = FormatBilibili \/ format = FormatNiconico \/ format = FormatAcfun.
Proof.
  unfold classify.
  destruct (Strings.HasPrefix content "<?xml").
  - destruct (Strings.Contains content "<i>"); [intros [= <-]; auto |].
    destruct (Strings.Contains content "<chat>"); [intros [= <-]; auto |].
    discriminate.
  - destruct (Strings.HasPrefix content "["); [intros [= <-]; auto |].
    discriminate.
Qed.

Lemma probeBody_formats (f : Os.File) (format : Format) :
  snd (probeBody f) = (format, None) ->
  format = FormatBilibili \/ format = FormatNiconico \/ format = FormatAcfun.
Proof.
  unfold probeBody.
  destruct (Os.Read f 100) as [f' [content [e |]]]; simpl;
    [destruct (String.eqb e "EOF"); simpl |]; try discriminate;
    apply classify_formats.
Qed.

(** X2. Every format tag that [ProbeFormat] returns without an error is
    one of the three tags that [ParseComments] dispatches on: after a
    successful probe [ParseComments] runs the parser of that format and
    never answers "unsupported format". That answer is given for every
    other tag, with no Comment. *)
Theorem probed_format_is_parsed (f : Os.File)
    (convertFloat : list Z -> option float64) (doc : Document)
    (fontSize : float64) (format : Format) :
  (snd (ProbeFormat f) = (format, None) ->
   (format = FormatBilibili
    /\ ParseComments convertFloat doc format fontSize
       = parseBilibili convertFloat (asBilibili doc) fontSize)
   \/ (format = FormatNiconico
       /\ ParseComments convertFloat doc format fontSize
          = parseNiconico (asNiconico doc) fontSize)
   \/ (format = FormatAcfun
       /\ ParseComments convertFloat doc format fontSize
          = parseAcfun (asAcfun doc) fontSize))
  /\ (format <> FormatBilibili -> format <> FormatNiconico ->
      format <> FormatAcfun ->
      ParseComments convertFloat doc format fontSize
      = Err ("unsupported format: " ++ format)).
Proof.
  split.
  - intros Hprobe.
    assert (format = FormatBilibili \/ format = FormatNiconico
            \/ format = FormatAcfun) as [-> | [-> | ->]];
      [| by left | by right; left | by right; right].
    unfold ProbeFormat in Hprobe.
    destruct (Os.Seek f 0 Os.SeekCurrent) as [f0 [curPos | e]]; [| discriminate].
    pose proof (probeBody_formats f0 format) as Hbody.
    destruct (probeBody f0) as [f1 r].
    destruct (Os.Seek f1 curPos Os.SeekStart) as [f2 r2].
    simpl in *. auto.
  - intros HB HN HA. unfold ParseComments.
    destruct (String.eqb_spec format FormatBilibili); [done |].
    destruct (String.eqb_spec format FormatNiconico); [done |].
    by destruct (String.eqb_spec format FormatAcfun).
Qed.

(** An AcFun file. *)
Lemma probed_format_is_parsed_witness :
  let f := Os.mkFile "[{'time':1,'mode':1}]" 0 true true in
  let doc := mkDocument (Err "EOF") (Err "EOF") (Ok []) in
  (FormatAcfun = FormatBilibili
   /\ ParseComments (fun _ => None) doc FormatAcfun (of_Z 48)
      = parseBilibili (fun _ => None) (asBilibili doc) (of_Z 48))
  \/ (FormatAcfun = FormatNiconico
      /\ ParseComments (fun _ => None) doc FormatAcfun (of_Z 48)
         = parseNiconico (asNiconico doc) (of_Z 48))
  \/ (FormatAcfun = FormatAcfun
      /\ ParseComments (fun _ => None) doc FormatAcfun (of_Z 48)
         = parseAcfun (asAcfun doc) (of_Z 48)).
Proof.
  intros f doc.
  apply (proj1 (probed_format_is_parsed f (fun _ => None) doc (of_Z 48)
                                        FormatAcfun)).
  reflexivity.
Defined.

Lemma probePrefix_at_end (f : Os.File) :
  (String.length (Os.data f) <= Z.to_nat (Os.offset f))%nat ->
  Spec.probePrefix f = EmptyString.
Proof.
  unfold Spec.probePrefix. generalize (Z.to_nat (Os.offset f)) as n.
  generalize (Os.data f) as s.
  induction s as [| c s IH]; intros n Hn.
  - by destruct n.
  - destruct n as [| n]; [simpl in Hn; lia |].
    change (Strings.drop (S n) (String c s)) with (Strings.drop n s).
    apply IH. simpl in Hn. lia.
Qed.

(** X3. A file that has nothing left to read (an empty file, or a read
    position at or behind the end) is no error for [ProbeFormat] as such:
    the end of the file is read as an empty prefix, and the answer is
    "unknown format" with the empty format tag. A file that cannot seek is
    answered with the error of [Seek] before anything is read. *)
Theorem ProbeFormat_nothing_to_read (f : Os.File) :
  (Os.seekable f = true -> Os.readable f = true -> (0 <= Os.offset f)%Z ->
   (String.length (Os.data f) <= Z.to_nat (Os.offset f))%nat ->
   snd (ProbeFormat f) = (EmptyString, Some "unknown format"))
  /\ (Os.seekable f = false ->
      exists e, ProbeFormat f = (f, (EmptyString, Some e))).
Proof.
  split.
  - intros Hs Hr Ho Hend.
    rewrite (ProbeProofs.ProbeFormat_classify f Hs Hr Ho).
    by rewrite (probePrefix_at_end f Hend).
  - intros Hs. unfold ProbeFormat, Os.Seek. rewrite Hs. eauto.
Qed.

(** The empty file. *)
Lemma ProbeFormat_nothing_to_read_witness :
  snd (ProbeFormat (Os.mkFile EmptyString 0 true true))
  = (EmptyString, Some "unknown format").
Proof.
  apply (proj1 (ProbeFormat_nothing_to_read (Os.mkFile EmptyString 0 true true)));
    first [reflexivity | simpl; lia].
Defined.

End DispatchProofs.

(** ** From the parsers to the events *)

Module EventProofs.

Import F64 Parser Ass AssSpec EventSpec.
Local Open Scope string_scope.
Local Open Scope Z_scope.



Lemma positionStyle_styleOf (p : Z) :
  p = 0 \/ p = 1 \/ p = 2 -> styleOf p = Some (positionStyle p).
Proof. by intros [-> | [-> | ->]]. Qed.

(** X5. The events of a Niconico document: every record becomes exactly
    one event, in the order of the document. The event starts at [vpos]
    hundredths of a second, ends the generator's duration later, shows the
    content with its line breaks, and has the style of the position that
    the mail commands leave (R2L when no command sets one). *)
Theorem niconico_events (g : Generator) (fontSize : float64)
    (cs : list NiconicoComment) :
  generateEvents g (Spec.commentsOf (parseNiconico (Ok cs) fontSize))
  = map (fun c => eventAt g (div (of_Z (VPos c)) (of_Z 100))
                          (positionStyle
                             (nsPosition (niconicoStyle fontSize (Mail c))))
                          (normalizeText (NContent c)))
        cs.
Proof.
  cbn [parseNiconico Spec.commentsOf].
  induction cs as [| c rest IH]; [done |].
  cbn [map generateEvents]. unfold eventOf, niconicoStep at 1.
  cbn [Position Timeline Text].
  rewrite positionStyle_styleOf, IH; [done |].
  unfold niconicoStyle. rewrite LoopProofs.niconicoCommands_lastWins.
  apply (LoopProofs.lastWins_position fontSize).
Qed.

Lemma acfunLoop_fields (fontSize : float64) (i : Z) (cs : list AcfunComment) :
  map No (acfunLoop fontSize i cs) = Spec.indicesWhere Spec.acfunEmits i cs
  /\ map (fun cm => (Timeline cm, Timestamp cm, Color cm))
         (acfunLoop fontSize i cs)
     = map (fun c => (Time c, 0, AColor c)) (List.filter Spec.acfunEmits cs).
Proof.
  revert i. induction cs as [| c rest IH]; intros i; [done |].
  cbn [acfunLoop List.filter Spec.indicesWhere].
  destruct (Spec.acfunEmits c) eqn:He.
  - unfold acfunStep. unfold Spec.acfunEmits in He.
    destruct (LoopProofs.acfunPosition_cases (Mode c)) as [(_ & p & -> & _) | (Hs & _)];
      [| congruence].
    destruct (IH (i + 1)) as [IH1 IH2]. cbn. by rewrite IH1, IH2.
  - rewrite (LoopProofs.acfunStep_emits fontSize i c He). apply IH.
Qed.

(** X6. The Comments of an AcFun document carry, in the order of the
    records with a supported mode, the index of their record in the decoded
    array as sequence number (so the numbers ascend and skipped records
    leave gaps), the time and the color of the record, and the timestamp 0. *)
Theorem acfun_fields (fontSize : float64) (cs : list AcfunComment) :
  let out := Spec.commentsOf (parseAcfun (Ok cs) fontSize) in
  map No out = Spec.indicesWhere Spec.acfunEmits 0 cs
  /\ map (fun cm => (Timeline cm, Timestamp cm, Color cm)) out
     = map (fun c => (Time c, 0, AColor c)) (List.filter Spec.acfunEmits cs).
Proof. apply acfunLoop_fields. Qed.

End EventProofs.

(** ** The subtitle file *)

Module OutputProofs.

Import F64 Parser Ass AssSpec EventSpec Sort SortSpec.
Local Open Scope string_scope.
Local Open Scope nat_scope.

(** A partial map keeps the order of the elements it keeps. *)
Lemma omap_lookup_order {A B : Type} (f : A -> option B)
    (R : A -> A -> Prop) (R' : B -> B -> Prop) (l : list A) :
  (forall x y a b, f x = Some a -> f y = Some b -> R x y -> R' a b) ->
  (forall i j x y, i < j -> l !! i = Some x -> l !! j = Some y -> R x y) ->
  forall i j a b,
    i < j -> omap f l !! i = Some a -> omap f l !! j = Some b -> R' a b.
Proof.
  intros Hf. induction l as [| x l IH]; intros Hl i j a b Hij Ha Hb; [done |].
  assert (forall i j x y, i < j -> l !! i = Some x -> l !! j = Some y -> R x y)
    as Hl'.
  { intros i' j' x' y' Hlt Hx Hy. apply (Hl (S i') (S j')); [lia | done | done]. }
  cbn [omap list_omap] in Ha, Hb.
  destruct (f x) as [a0 |] eqn:Hfx; [| by apply (IH Hl' i j)].
  destruct i as [| i].
  - injection Ha as <-. destruct j as [| j]; [lia |]. cbn in Hb.
    assert (b ∈ omap f l) as Hin by (by eapply list_elem_of_lookup_2).
    apply list_elem_of_omap in Hin as (y & Hy & Hfy).
    apply list_elem_of_lookup_1 in Hy as [k Hk].
    apply (Hf x y); [done | done |].
    apply (Hl 0 (S k)); [lia | done | done].
  - destruct j as [| j]; [lia |]. apply (IH Hl' i j); [lia | done | done].
Qed.

Lemma eventOf_Start (g : Generator) (c : Comment) (ev : Event) :
  eventOf g c = Some ev -> Start ev = Timeline c.
Proof.
  unfold eventOf. destruct (styleOf (Position c)); [| done]. by intros [= <-].
Qed.

(** The events of a sorted slice start in ascending order. *)
Lemma generateEvents_ascending (g : Generator) (cs : list Comment) :
  sorted lessTimeline cs -> ascendingStarts (generateEvents g cs).
Proof.
  intros Hs. rewrite AssClaims.generateEvents_omap.
  intros i j a b Hij Ha Hb.
  apply (omap_lookup_order (eventOf g)
           (fun x y => lessTimeline y x = false)
           (fun a b => ltb (Start b) (Start a) = false) cs) with i j;
    [| | done | done | done].
  - intros x y a' b' Hx Hy Hlt.
    rewrite (eventOf_Start g x a' Hx), (eventOf_Start g y b' Hy). exact Hlt.
  - intros i' j' x y Hlt Hx Hy.
    apply (Hs i' j' x y); [lia | done | | done | done].
    by apply lookup_lt_Some in Hy.
Qed.

Lemma append_empty (s : string) : s ++ EmptyString = s.
Proof.
  induction s as [| c s IH]; [done |].
  change (String c s ++ EmptyString) with (String c (s ++ EmptyString)).
  by rewrite IH.
Qed.

(** X7. What [GenerateASS] leaves in the file system, for a slice within
    its array that holds no NaN timeline. When the output file can be
    created, the call returns no error and the file holds the header
    followed by the dialogue lines of the events, nothing else; the events
    are those of the caller's Comments (one per Comment at position 0, 1 or
    2), rearranged so that their start times ascend; no other file changes.
    When the file cannot be created, the call returns the error and changes
    no file. *)
Theorem GenerateASS_writes (g : Generator) (comments : CommentSlice)
    (output : string) (w : World) :
  low comments + len comments <= length (backing w comments) ->
  Forall notNaN (elems w comments) ->
  let r := GenerateASS g comments output w in
  (creatable w output = true ->
   exists events,
     snd r = None
     /\ files (fst r)
        = <[output := writeHeader g ++ String.concat EmptyString (writeEvents events)]>
            (files w)
     /\ events ≡ₚ generateEvents g (elems w comments)
     /\ ascendingStarts events)
  /\ (creatable w output = false ->
      snd r <> None /\ files (fst r) = files w).
Proof.
  intros Hwin Hnan r. subst r. unfold GenerateASS.
  destruct (AssClaims.Slice_lessTimeline (elems w comments) Hnan)
    as [Hperm Hsorted].
  assert (length (Slice lessTimeline (elems w comments)) = len comments) as Hlen.
  { rewrite <- (Permutation_length Hperm). by apply AssClaims.elems_length. }
  change (creatable (store w comments (Slice lessTimeline (elems w comments))) output)
    with (creatable w output).
  split; intros Hc; rewrite Hc.
  - exists (generateEvents g (Slice lessTimeline (elems w comments))).
    rewrite (AssClaims.elems_store w comments _ Hwin Hlen). cbn [fst snd files].
    split; [done |]. split; [done |]. split.
    + rewrite !AssClaims.generateEvents_omap. by rewrite <- Hperm.
    + by apply generateEvents_ascending.
  - done.
Qed.

(** The three Comments of [threeWorld], written to "out.ass". *)
Lemma GenerateASS_writes_witness :
  exists events,
    snd (GenerateASS Spec.defaultGenerator (mkSlice 0 0 3) "out.ass" threeWorld)
    = None
    /\ files (fst (GenerateASS Spec.defaultGenerator (mkSlice 0 0 3) "out.ass"
                               threeWorld))
       = <["out.ass" := writeHeader Spec.defaultGenerator
                          ++ String.concat EmptyString (writeEvents events)]>
           (files threeWorld)
    /\ events ≡ₚ generateEvents Spec.defaultGenerator
                   (elems threeWorld (mkSlice 0 0 3))
    /\ ascendingStarts events.
Proof.
  apply (proj1 (GenerateASS_writes Spec.defaultGenerator (mkSlice 0 0 3)
                  "out.ass" threeWorld ltac:(vm_compute; lia)
                  ltac:(repeat constructor))).
  reflexivity.
Defined.

Lemma readInput_nothing (convertFloat : list Z -> option float64)
    (fontSize : float64) (inp : Main.Input) :
  yieldsNothing inp -> Main.readInput convertFloat fontSize inp = [].
Proof.
  unfold yieldsNothing, Main.readInput.
  destruct (ProbeFormat (Main.file inp)) as [f [format [e |]]]; [done |].
  cbn [fst snd]. intros [H | ->]; [done |].
  change (ParseComments convertFloat (Main.document inp) FormatBilibili fontSize)
    with (parseBilibili convertFloat (asBilibili (Main.document inp)) fontSize).
  destruct (asBilibili (Main.document inp)) as [cs | e]; [| done].
  by rewrite BilibiliProofs.parseBilibili_empty.
Qed.

(** X8. [main] after the flags are parsed: when every input either fails
    the format probe or is probed as Bilibili (whose attribute strings
    [fmt.Sscanf] never accepts), no Comment is collected, and yet the run
    ends without an error: the output file is created and holds the header
    alone. *)
Theorem convert_without_comments (convertFloat : list Z -> option float64)
    (g : Generator) (inputs : list Main.Input) (output : string)
    (addr : nat) (w : World) :
  Forall yieldsNothing inputs -> creatable w output = true ->
  let r := Main.convert convertFloat g inputs output addr w in
  Main.allComments convertFloat (FontSize g) inputs = []
  /\ snd r = None
  /\ files (fst r) = <[output := writeHeader g]> (files w).
Proof.
  intros Hall Hc r.
  assert (Main.allComments convertFloat (FontSize g) inputs = []) as Hnone.
  { unfold Main.allComments. induction Hall as [| inp inputs Hinp _ IH]; [done |].
    cbn [map concat]. by rewrite (readInput_nothing _ _ inp Hinp), IH. }
  split; [done |]. subst r. unfold Main.convert. rewrite Hnone.
  unfold GenerateASS. cbn [length elems len low take].
  change (Slice lessTimeline []) with (@nil Comment).
  cbn [store creatable]. rewrite Hc. cbn [fst snd files generateEvents writeEvents map String.concat].
  by rewrite append_empty.
Qed.

(** The scenario of one Bilibili file. *)
Lemma convert_without_comments_witness :
  Main.allComments (fun _ => None) (FontSize Spec.defaultGenerator)
                   [Spec.scenarioInput] = []
  /\ snd (Main.convert (fun _ => None) Spec.defaultGenerator [Spec.scenarioInput]
                       "out.ass" 0 Spec.emptyWorld) = None
  /\ files (fst (Main.convert (fun _ => None) Spec.defaultGenerator
                              [Spec.scenarioInput] "out.ass" 0 Spec.emptyWorld))
     = <["out.ass" := writeHeader Spec.defaultGenerator]> (files Spec.emptyWorld).
Proof.
  apply (convert_without_comments (fun _ => None) Spec.defaultGenerator
           [Spec.scenarioInput] "out.ass" 0 Spec.emptyWorld).
  - constructor; [| constructor]. right. vm_compute. reflexivity.
  - reflexivity.
Defined.

End OutputProofs.

(** ** UTF-8 and the length of a text *)

Module Utf8Proofs.

Import F64 Parser TextSpec.
Local Open Scope Z_scope.

Lemma byte_chr (b : Z) : 0 <= b < 256 -> Utf8.byte (Utf8.chr b) = b.
Proof.
  intros Hb. unfold Utf8.byte, Utf8.chr.
  rewrite nat_ascii_embedding by lia. lia.
Qed.

Lemma byte_range (c : ascii) : 0 <= Utf8.byte c < 256.
Proof.
  unfold Utf8.byte. pose proof (nat_ascii_bounded c). lia.
Qed.

Lemma land_63 (x : Z) : Z.land x 63 = x mod 64.
Proof. change 63 with (Z.ones 6). by rewrite Z.land_ones by lia. Qed.

Lemma land_31 (x : Z) : Z.land x 31 = x mod 32.
Proof. change 31 with (Z.ones 5). by rewrite Z.land_ones by lia. Qed.

Lemma land_15 (x : Z) : Z.land x 15 = x mod 16.
Proof. change 15 with (Z.ones 4). by rewrite Z.land_ones by lia. Qed.

Lemma land_7 (x : Z) : Z.land x 7 = x mod 8.
Proof. change 7 with (Z.ones 3). by rewrite Z.land_ones by lia. Qed.

(** A continuation byte carries six bits. *)
Lemma cont_chr (lo hi x : Z) :
  0 <= x < 64 -> lo <= 128 + x <= hi ->
  Utf8.cont lo hi (Utf8.chr (128 + x)) = Some x.
Proof.
  intros Hx Hr. unfold Utf8.cont. rewrite byte_chr by lia.
  rewrite (proj2 (Z.leb_le _ _)), (proj2 (Z.leb_le _ _)) by lia.
  cbn [andb]. f_equal. rewrite land_63.
  replace (128 + x) with (x + 2 * 64) by lia.
  rewrite Z.mod_add by lia. apply Z.mod_small. lia.
Qed.

Ltac bits :=
  rewrite ?Z.shiftr_div_pow2, ?Z.shiftl_mul_pow2, ?land_63 by lia;
  change (2 ^ 6) with 64 in *; change (2 ^ 12) with 4096 in *;
  change (2 ^ 18) with 262144 in *.

Ltac cmp :=
  repeat match goal with
    | |- context [?a <? ?b] =>
        first [rewrite (proj2 (Z.ltb_lt a b)) by lia
              | rewrite (proj2 (Z.ltb_ge a b)) by lia]
    | |- context [?a <=? ?b] =>
        first [rewrite (proj2 (Z.leb_le a b)) by lia
              | rewrite (proj2 (Z.leb_gt a b)) by lia]
    | |- context [?a =? ?b] =>
        first [rewrite (proj2 (Z.eqb_eq a b)) by lia
              | rewrite (proj2 (Z.eqb_neq a b)) by lia]
    end;
  cbn [andb orb].

(** Decoding the bytes of a scalar value gives the value back and
consumes exactly these bytes. *)
Lemma DecodeRune_EncodeRune (r : Z) (rest : string) :
  scalar r ->
  exists c cs,
    Utf8.EncodeRune r = c :: cs
    /\ Utf8.DecodeRune c (string_of_list_ascii cs ++ rest)%string = (r, rest).
Proof.
  intros [Hr Hs]. unfold Utf8.EncodeRune. cbv zeta.
  pose proof (Z.mod_pos_bound r 64 ltac:(lia)) as Hm.
  pose proof (Z.mod_pos_bound (r / 64) 64 ltac:(lia)) as Hm1.
  pose proof (Z.mod_pos_bound (r / 4096) 64 ltac:(lia)) as Hm2.
  destruct (Z.lt_ge_cases r 128) as [H1 | H1].
  { cmp. exists (Utf8.chr r), []. split; [done |].
    unfold Utf8.DecodeRune. cbv zeta. rewrite byte_chr by lia. by cmp. }
  destruct (Z.lt_ge_cases r 2048) as [H2 | H2].
  { cmp. eexists _, _. split; [reflexivity |].
    bits. cbn [string_of_list_ascii].
    change (String ?a EmptyString ++ rest)%string with (String a rest).
    unfold Utf8.DecodeRune. cbv zeta.
    assert (2 <= r / 64 < 32) as Hq by (Z.div_mod_to_equations; lia).
    rewrite byte_chr by lia. cmp. rewrite cont_chr by lia.
    f_equal. rewrite land_31. bits.
    replace ((192 + r / 64) mod 32) with (r / 64)
      by (Z.div_mod_to_equations; lia).
    Z.div_mod_to_equations; lia. }
  destruct (Z.lt_ge_cases r 65536) as [H4 | H4].
  { assert (r < 55296 \/ 57343 < r) as [H3 | H3] by lia; cmp.
    all: eexists _, _; (split; [reflexivity |]).
    all: bits; cbn [string_of_list_ascii].
    all: change (String ?a (String ?b EmptyString) ++ rest)%string
           with (String a (String b rest)).
    all: unfold Utf8.DecodeRune; cbv zeta.
    all: assert (0 <= r / 4096 < 16) as Hq by (Z.div_mod_to_equations; lia).
    all: assert (r / 4096 = 0 -> 32 <= (r / 64) mod 64) as Hlo
           by (Z.div_mod_to_equations; lia).
    all: assert (r / 4096 = 13 -> (r / 64) mod 64 < 32) as Hhi
           by (Z.div_mod_to_equations; lia).
    all: rewrite byte_chr by lia; cmp.
    all: destruct (Z.eq_dec (r / 4096) 0) as [E0 | E0];
           destruct (Z.eq_dec (r / 4096) 13) as [E13 | E13]; try lia; cmp.
    all: rewrite !cont_chr by lia.
    all: f_equal; rewrite land_15; bits.
    all: replace ((224 + r / 4096) mod 16) with (r / 4096)
           by (Z.div_mod_to_equations; lia).
    all: Z.div_mod_to_equations; lia. }
  cmp. eexists _, _. split; [reflexivity |].
  bits. cbn [string_of_list_ascii].
  change (String ?a (String ?b (String ?c EmptyString)) ++ rest)%string
    with (String a (String b (String c rest))).
  unfold Utf8.DecodeRune. cbv zeta.
  assert (0 <= r / 262144 <= 4) as Hq by (Z.div_mod_to_equations; lia).
  assert (r / 262144 = 0 -> 16 <= (r / 4096) mod 64) as Hlo
    by (Z.div_mod_to_equations; lia).
  assert (r / 262144 = 4 -> (r / 4096) mod 64 < 16) as Hhi
    by (Z.div_mod_to_equations; lia).
  rewrite byte_chr by lia. cmp.
  destruct (Z.eq_dec (r / 262144) 0) as [E0 | E0];
    destruct (Z.eq_dec (r / 262144) 4) as [E4 | E4]; try lia; cmp.
  all: rewrite !cont_chr by lia.
  all: f_equal; rewrite land_7; bits.
  all: replace ((240 + r / 262144) mod 8) with (r / 262144)
         by (Z.div_mod_to_equations; lia).
  all: Z.div_mod_to_equations; lia.
Qed.

(** Decoding a rune consumes at least the byte it starts with and nothing
beyond the string. *)
Lemma DecodeRune_shorter (c : ascii) (rest : string) :
  (String.length (snd (Utf8.DecodeRune c rest)) <= String.length rest)%nat.
Proof.
  unfold Utf8.DecodeRune. cbv zeta.
  repeat match goal with
    | |- context [if ?b then _ else _] => destruct b
    | |- context [match ?x with _ => _ end] => destruct x
    end; cbn [snd String.length]; lia.
Qed.

(** Any fuel that covers the length of the string decodes it whole. *)
Lemma runesN_fuel (n : nat) (s : string) (f1 f2 : nat) :
  (String.length s <= n)%nat -> (String.length s <= f1)%nat ->
  (String.length s <= f2)%nat ->
  Utf8.runesN f1 s = Utf8.runesN f2 s.
Proof.
  revert s f1 f2. induction n as [| n IH]; intros s f1 f2 Hn H1 H2.
  - destruct s; [| simpl in Hn; lia]. by destruct f1, f2.
  - destruct s as [| c rest]; [by destruct f1, f2 |].
    cbn [String.length] in *.
    destruct f1 as [| f1]; [lia |]. destruct f2 as [| f2]; [lia |].
    cbn [Utf8.runesN]. pose proof (DecodeRune_shorter c rest) as Hd.
    destruct (Utf8.DecodeRune c rest) as [r rest']. cbn [snd] in Hd.
    f_equal. apply IH; lia.
Qed.

Lemma string_of_list_ascii_app (l1 l2 : list ascii) :
  string_of_list_ascii (l1 ++ l2)
  = (string_of_list_ascii l1 ++ string_of_list_ascii l2)%string.
Proof.
  induction l1 as [| a l1 IH]; [done |].
  cbn [app string_of_list_ascii].
  change (String a (string_of_list_ascii l1) ++ string_of_list_ascii l2)%string
    with (String a (string_of_list_ascii l1 ++ string_of_list_ascii l2)%string).
  by rewrite IH.
Qed.

Lemma runes_encode (rs : list Z) :
  Forall scalar rs -> Utf8.runes (Utf8.encode rs) = rs.
Proof.
  induction 1 as [| r rs Hr _ IH]; [done |].
  unfold Utf8.encode. cbn [map concat]. rewrite string_of_list_ascii_app.
  fold (Utf8.encode rs).
  destruct (DecodeRune_EncodeRune r (Utf8.encode rs) Hr) as (c & cs & -> & Hd).
  cbn [string_of_list_ascii].
  change (String c (string_of_list_ascii cs) ++ Utf8.encode rs)%string
    with (String c (string_of_list_ascii cs ++ Utf8.encode rs)%string).
  unfold Utf8.runes. cbn [String.length Utf8.runesN]. rewrite Hd.
  f_equal. transitivity (Utf8.runes (Utf8.encode rs)); [| exact IH].
  unfold Utf8.runes.
  pose proof (DecodeRune_shorter c (string_of_list_ascii cs ++ Utf8.encode rs)%string)
    as Hlen.
  rewrite Hd in Hlen. cbn [snd] in Hlen.
  by apply (runesN_fuel (String.length (Utf8.encode rs))).
Qed.

(** X9. [calculateLength] counts code points, not bytes: on the UTF-8
    encoding of a sequence of Unicode scalar values the rune conversion
    gives the sequence back, so the length is the number of code points,
    whether a code point takes one byte or four. *)
Theorem calculateLength_counts_code_points (rs : list Z) :
  Forall scalar rs ->
  Utf8.runes (Utf8.encode rs) = rs
  /\ calculateLength (Utf8.encode rs) = of_Z (Z.of_nat (length rs)).
Proof.
  intros Hrs. pose proof (runes_encode rs Hrs) as Hround.
  split; [done |]. unfold calculateLength. by rewrite Hround.
Qed.

(** Two CJK characters of three bytes each, an emoji of four bytes and an
exclamation mark: four code points in eleven bytes. *)
Lemma calculateLength_counts_code_points_witness :
  (Utf8.runes (Utf8.encode [20320; 22909; 128512; 33]) = [20320; 22909; 128512; 33]
   /\ calculateLength (Utf8.encode [20320; 22909; 128512; 33])
      = of_Z (Z.of_nat (length [20320; 22909; 128512; 33])))
  /\ String.length (Utf8.encode [20320; 22909; 128512; 33]) = 11%nat.
Proof.
  split; [| reflexivity].
  apply (calculateLength_counts_code_points [20320; 22909; 128512; 33]).
  repeat constructor; lia.
Defined.

End Utf8Proofs.

(** ** The claim about the time code *)

Module TimeClaims.

Import F64 FloatSpec TimeSpec Ass.
Local Open Scope string_scope.
Local Open Scope Z_scope.

(** C5, as the code has it. [formatTime] maps 0 to "0:00:00.00", 3661.5
    to "1:01:01.50" and 59.999 to "0:00:59.99". For every number of seconds
    that is finite, not negative and below [2 ^ 63], the time code is the
    hours of the whole seconds in decimal without padding (as many digits
    as they need), [:], the minutes in two digits, [:], the seconds in two
    digits, [.], and two digits of centiseconds. The centiseconds are
    between 0 and 99 and are never rounded to the nearest: they are the
    floor of the binary64 product of the fractional part with 100, which is
    the hundredths of the exact value cut off, or one more when the exact
    hundredths lie within [2 ^ -47] of the next integer. *)
Theorem formatTime_timecode :
  formatTime (of_Z 0) = "0:00:00.00"
  /\ formatTime (of_dec 36615 1) = "1:01:01.50"
  /\ formatTime (of_dec 59999 3) = "0:00:59.99"
  /\ forall x : float64,
       nonNegative x = true -> floorZ x < 2 ^ 63 ->
       exists h cc,
         formatTime x
         = h ++ ":" ++ twoDigits (floorZ x mod 3600 / 60) ++ ":"
             ++ twoDigits (floorZ x mod 60) ++ "." ++ twoDigits cc
         /\ isNumeral h (floorZ x / 3600) = true
         /\ 0 <= cc <= 99
         /\ (cc = truncatedCentis x
             \/ (cc = truncatedCentis x + 1 /\ nearNextCenti x = true)).
Proof.
  split; [by vm_compute |]. split; [by vm_compute |]. split; [by vm_compute |].
  intros x Hx Hlt.
  destruct (TimeProofs.to_int_nonneg x Hx Hlt) as [Hi HN].
  pose proof (TimeProofs.centis_of x Hx) as [Hcc Hrel]. cbv zeta in Hcc, Hrel.
  exists (Sprintf.verb_d (floorZ x / 3600)),
         (to_int (Floor (mul (sub x (Floor x)) (of_Z 100)))).
  split; [| split; [| done]].
  - unfold formatTime. cbv zeta. rewrite Hi.
    pose proof (Z.mod_pos_bound (floorZ x) 3600 ltac:(lia)) as H3600.
    pose proof (Z.mod_pos_bound (floorZ x) 60 ltac:(lia)) as H60.
    rewrite (Z.quot_div_nonneg (floorZ x) 3600),
      (Z.rem_mod_nonneg (floorZ x) 3600), (Z.rem_mod_nonneg (floorZ x) 60),
      (Z.quot_div_nonneg (floorZ x mod 3600) 60) by lia.
    assert (0 <= floorZ x mod 3600 / 60 < 100) as Hmin.
    { split; [apply Z.div_pos; lia | apply Z.div_lt_upper_bound; lia]. }
    by rewrite !TimeProofs.verb_02d_two by lia.
  - apply TimeProofs.verb_d_numeral, Z.div_pos; lia.
Qed.

(** One hour, one minute and one and a half seconds. *)
Lemma formatTime_timecode_witness :
  exists h cc,
    formatTime (of_dec 36615 1)
    = h ++ ":" ++ twoDigits (floorZ (of_dec 36615 1) mod 3600 / 60) ++ ":"
        ++ twoDigits (floorZ (of_dec 36615 1) mod 60) ++ "." ++ twoDigits cc
    /\ isNumeral h (floorZ (of_dec 36615 1) / 3600) = true
    /\ 0 <= cc <= 99
    /\ (cc = truncatedCentis (of_dec 36615 1)
        \/ (cc = truncatedCentis (of_dec 36615 1) + 1
            /\ nearNextCenti (of_dec 36615 1) = true)).
Proof.
  apply (proj2 (proj2 (proj2 formatTime_timecode)) (of_dec 36615 1));
    vm_compute; reflexivity.
Defined.

(** C5 as stated fails: the centiseconds are not always the truncated
    ones. The [float64] nearest to 0.03 is
    0.029999999999999998889776975..., two hundredths and a fraction; its
    product with 100 rounds to 3.0 in binary64, and the time code shows 03.
    (Read on decimal literals instead, the claim fails the other way round:
    the [float64] nearest to 0.29 lies below 0.29, and 0.29 is shown as
    28.) *)
Lemma formatTime_truncation_counterexample :
  (of_dec 3 2 = S754_finite false 8646911284551352 (-58)
   /\ truncatedCentis (of_dec 3 2) = 2
   /\ formatTime (of_dec 3 2) = "0:00:00.03")
  /\ formatTime (of_dec 29 2) = "0:00:00.28".
Proof. by vm_compute. Qed.

End TimeClaims.
